(** * fixed_converter.py: Digital Logic Sim JSON -> Nand2tetris HDL

    A shallow embedding of [src/fixed_converter.py] (classes [HackChipAPI],
    [Wire], [Component], [FixedConverter]) and the properties of the
    lowering pass proved over it.

    Conventions of the embedding:
    - Python [int] is [Z]; [str(n)] / an f-string field is stdpp's [pretty].
    - Python [str] is [string]; the character-level methods ([lower],
      [capitalize], [split], [replace]) are modelled on ASCII text.
    - A [dict] that is iterated (insertion order matters) is an association
      list with in-place update ([od_set]); [wire_name_map], which is only
      looked up, is a [gmap].
    - [self.warnings] is a list of structured [Warning]s; [warning_text]
      gives the message string the source appends.
    - Methods that mutate [self] return the new converter next to their
      result. *)

From Stdlib Require Import ZArith Ascii String.
From stdpp Require Import base tactics option list sorting strings pretty gmap.

Local Open Scope Z_scope.

(* ================================================================== *)
(** * Python text helpers (ASCII) *)

Definition lower_char (c : ascii) : ascii :=
  let n := N_of_ascii c in
  if ((65 <=? n) && (n <=? 90))%N then ascii_of_N (n + 32) else c.

Definition upper_char (c : ascii) : ascii :=
  let n := N_of_ascii c in
  if ((97 <=? n) && (n <=? 122))%N then ascii_of_N (n - 32) else c.

(** [str.lower()] *)
Fixpoint lower (s : string) : string :=
  match s with
  | EmptyString => EmptyString
  | String c r => String (lower_char c) (lower r)
  end.

(** [str.capitalize()]: first character upper-cased, the rest lower-cased. *)
Definition capitalize (s : string) : string :=
  match s with
  | EmptyString => EmptyString
  | String c r => String (upper_char c) (lower r)
  end.

(** [str.isspace()] on one ASCII character: TAB, LF, VT, FF, CR, FS, GS, RS,
    US and the space. *)
Definition py_isspace (c : ascii) : bool :=
  let n := N_of_ascii c in
  (((9 <=? n) && (n <=? 13)) || ((28 <=? n) && (n <=? 32)))%N.

(** [" " in s] *)
Fixpoint contains_space (s : string) : bool :=
  match s with
  | EmptyString => false
  | String c r => if decide (c = " "%char) then true else contains_space r
  end.

(** [s.split()]: maximal runs of non-whitespace characters. *)
Fixpoint split_go (cur : string) (s : string) : list string :=
  match s with
  | EmptyString => if decide (cur = "") then [] else [cur]
  | String c r =>
      if py_isspace c
      then (if decide (cur = "") then split_go "" r else cur :: split_go "" r)
      else split_go (cur +:+ String c "") r
  end.

Definition split (s : string) : list string := split_go "" s.

(** [s.replace(c, "")] for a one-character [c]. *)
Fixpoint remove_char (c : ascii) (s : string) : string :=
  match s with
  | EmptyString => EmptyString
  | String a r => if decide (a = c) then remove_char c r else String a (remove_char c r)
  end.

(** [sep.join(parts)] *)
Fixpoint join (sep : string) (parts : list string) : string :=
  match parts with
  | [] => ""
  | [p] => p
  | p :: rest => p +:+ sep +:+ join sep rest
  end.

(** [sorted(ids)] on integers. *)
Fixpoint insert_sorted (x : Z) (l : list Z) : list Z :=
  match l with
  | [] => [x]
  | y :: r => if x <=? y then x :: l else y :: insert_sorted x r
  end.

Definition sorted (l : list Z) : list Z := foldr insert_sorted [] l.

(** [l.index(x)]: position of the first element equal to [x].  Python
    raises [ValueError] when there is none; the two call sites only search
    for an element taken from the list itself, so the [length l] returned
    here in that case is never observed (lemmas [index_of_lt] below). *)
Fixpoint index_of `{EqDecision A} (x : A) (l : list A) : nat :=
  match l with
  | [] => 0%nat
  | y :: r => if decide (y = x) then 0%nat else S (index_of x r)
  end.

(* ================================================================== *)
(** * Insertion-ordered dictionaries *)

Section odict.
Context {K V : Type} `{EqDecision K}.

(** [d.get(k)] *)
Fixpoint od_get (k : K) (d : list (K * V)) : option V :=
  match d with
  | [] => None
  | (k', v) :: r => if decide (k' = k) then Some v else od_get k r
  end.

(** [k in d] *)
Definition od_mem (k : K) (d : list (K * V)) : bool :=
  match od_get k d with Some _ => true | None => false end.

(** [d[k] = v]: an existing key keeps its position, a new key goes last. *)
Fixpoint od_set (k : K) (v : V) (d : list (K * V)) : list (K * V) :=
  match d with
  | [] => [(k, v)]
  | (k', v') :: r =>
      if decide (k' = k) then (k, v) :: r else (k', v') :: od_set k v r
  end.

(** [d.keys()] and [d.values()] *)
Definition od_keys (d : list (K * V)) : list K := d.*1.
Definition od_values (d : list (K * V)) : list V := d.*2.
End odict.

(** [d[k].append(x)] on a [defaultdict(list)]. *)
Definition od_append {K V : Type} `{EqDecision K}
    (k : K) (x : V) (d : list (K * list V)) : list (K * list V) :=
  od_set k (default [] (od_get k d) ++ [x]) d.

(* ================================================================== *)
(** * class HackChipAPI *)

Record ChipSpec := { inputs : list string; outputs : list string }.

Module HackChipAPI.

Definition CHIPS : list (string * ChipSpec) :=
  [ ("Nand", {| inputs := ["a"; "b"]; outputs := ["out"] |});
    ("Not", {| inputs := ["in"]; outputs := ["out"] |});
    ("And", {| inputs := ["a"; "b"]; outputs := ["out"] |});
    ("Or", {| inputs := ["a"; "b"]; outputs := ["out"] |});
    ("Xor", {| inputs := ["a"; "b"]; outputs := ["out"] |});
    ("Mux", {| inputs := ["a"; "b"; "sel"]; outputs := ["out"] |});
    ("DMux", {| inputs := ["in"; "sel"]; outputs := ["a"; "b"] |});
    ("Not16", {| inputs := ["in"]; outputs := ["out"] |});
    ("And16", {| inputs := ["a"; "b"]; outputs := ["out"] |});
    ("Or16", {| inputs := ["a"; "b"]; outputs := ["out"] |});
    ("Mux16", {| inputs := ["a"; "b"; "sel"]; outputs := ["out"] |});
    ("Or8Way", {| inputs := ["in"]; outputs := ["out"] |});
    ("Mux4Way16", {| inputs := ["a"; "b"; "c"; "d"; "sel"]; outputs := ["out"] |});
    ("Mux8Way16",
      {| inputs := ["a"; "b"; "c"; "d"; "e"; "f"; "g"; "h"; "sel"];
         outputs := ["out"] |});
    ("DMux4Way", {| inputs := ["in"; "sel"]; outputs := ["a"; "b"; "c"; "d"] |});
    ("DMux8Way",
      {| inputs := ["in"; "sel"];
         outputs := ["a"; "b"; "c"; "d"; "e"; "f"; "g"; "h"] |});
    ("HalfAdder", {| inputs := ["a"; "b"]; outputs := ["sum"; "carry"] |});
    ("Halfadder", {| inputs := ["a"; "b"]; outputs := ["sum"; "carry"] |});
    ("FullAdder", {| inputs := ["a"; "b"; "c"]; outputs := ["sum"; "carry"] |});
    ("Add16", {| inputs := ["a"; "b"]; outputs := ["out"] |});
    ("Inc16", {| inputs := ["in"]; outputs := ["out"] |});
    ("ALU",
      {| inputs := ["x"; "y"; "zx"; "nx"; "zy"; "ny"; "f"; "no"];
         outputs := ["out"; "zr"; "ng"] |});
    ("DFF", {| inputs := ["in"]; outputs := ["out"] |});
    ("Bit", {| inputs := ["in"; "load"]; outputs := ["out"] |});
    ("Register", {| inputs := ["in"; "load"]; outputs := ["out"] |});
    ("RAM8", {| inputs := ["in"; "load"; "address"]; outputs := ["out"] |});
    ("RAM64", {| inputs := ["in"; "load"; "address"]; outputs := ["out"] |});
    ("RAM512", {| inputs := ["in"; "load"; "address"]; outputs := ["out"] |});
    ("RAM4K", {| inputs := ["in"; "load"; "address"]; outputs := ["out"] |});
    ("RAM16K", {| inputs := ["in"; "load"; "address"]; outputs := ["out"] |});
    ("PC", {| inputs := ["in"; "load"; "inc"; "reset"]; outputs := ["out"] |}) ].

Definition get_chip_spec (chip_name : string) : option ChipSpec :=
  od_get chip_name CHIPS.

Definition is_valid_chip (chip_name : string) : bool :=
  od_mem chip_name CHIPS.

End HackChipAPI.

(* ================================================================== *)
(** * Input document and the classes Wire and Component *)

(** One entry of ["InputPins"] / ["OutputPins"]. *)
Record Pin := { pin_ID : Z; pin_Name : string; pin_BitCount : Z }.

(** class Wire: the four fields read from ["SourcePinAddress"] and
    ["TargetPinAddress"]. *)
Record Wire := {
  source_pin_id : Z;
  source_owner_id : Z;
  target_pin_id : Z;
  target_owner_id : Z
}.

(** One entry of ["SubChips"]; [sub_OutputPinColourInfo] lists the
    ["PinID"]s of ["OutputPinColourInfo"] in document order. *)
Record SubChip := {
  sub_Name : string;
  sub_ID : Z;
  sub_OutputPinColourInfo : list Z
}.

(** The parsed JSON document handed to [FixedConverter]. *)
Record Json := {
  Name : string;
  InputPins : list Pin;
  OutputPins : list Pin;
  SubChips : list SubChip;
  Wires : list Wire
}.

Global Instance Pin_eq_dec : EqDecision Pin.
Proof. solve_decision. Defined.

Global Instance Wire_eq_dec : EqDecision Wire.
Proof. solve_decision. Defined.

(** class Component *)
Record Component := {
  comp_name : string;
  comp_id : Z;
  output_pin_ids : list Z;
  input_wires : list (Z * list Wire);
  output_wires : list (Z * list Wire);
  input_pin_names : list (Z * string);
  output_pin_names : list (Z * string)
}.

(** [Component.__init__] *)
Definition new_Component (subchip_data : SubChip) : Component :=
  {| comp_name := sub_Name subchip_data;
     comp_id := sub_ID subchip_data;
     output_pin_ids := sub_OutputPinColourInfo subchip_data;
     input_wires := [];
     output_wires := [];
     input_pin_names := [];
     output_pin_names := [] |}.

Definition set_input_wires (comp : Component) (iw : list (Z * list Wire)) : Component :=
  {| comp_name := comp_name comp; comp_id := comp_id comp;
     output_pin_ids := output_pin_ids comp;
     input_wires := iw; output_wires := output_wires comp;
     input_pin_names := input_pin_names comp;
     output_pin_names := output_pin_names comp |}.

Definition set_output_wires (comp : Component) (ow : list (Z * list Wire)) : Component :=
  {| comp_name := comp_name comp; comp_id := comp_id comp;
     output_pin_ids := output_pin_ids comp;
     input_wires := input_wires comp; output_wires := ow;
     input_pin_names := input_pin_names comp;
     output_pin_names := output_pin_names comp |}.

Definition set_pin_names (comp : Component)
    (inames onames : list (Z * string)) : Component :=
  {| comp_name := comp_name comp; comp_id := comp_id comp;
     output_pin_ids := output_pin_ids comp;
     input_wires := input_wires comp; output_wires := output_wires comp;
     input_pin_names := inames;
     output_pin_names := onames |}.

(* ================================================================== *)
(** * Diagnostics *)

(** The four messages the converter appends to [self.warnings]. *)
Inductive Warning :=
  | ChipRemoved (name : string)
  | ChipNotInAPI (mapped : string)
  | InputArity (name : string) (id : Z) (found expected : nat)
  | OutputArity (name : string) (id : Z) (found expected : nat).

Global Instance Warning_eq_dec : EqDecision Warning.
Proof. solve_decision. Defined.

Definition warning_text (w : Warning) : string :=
  match w with
  | ChipRemoved name =>
      "WARNING: Chip '" +:+ name +:+ "' nao existe no Hack chip-set. Sera ignorado."
  | ChipNotInAPI mapped =>
      "WARNING: Chip '" +:+ mapped +:+ "' nao encontrado na API do Hack chip-set."
  | InputArity name id found expected =>
      "WARNING: " +:+ name +:+ " (ID " +:+ pretty id +:+ "): " +:+
      "Tem " +:+ pretty found +:+ " inputs, mas API espera " +:+ pretty expected
  | OutputArity name id found expected =>
      "WARNING: " +:+ name +:+ " (ID " +:+ pretty id +:+ "): " +:+
      "Tem " +:+ pretty found +:+ " outputs, mas API espera " +:+ pretty expected
  end.

Definition is_ChipRemoved (w : Warning) : bool :=
  match w with ChipRemoved _ => true | _ => false end.

Definition is_InputArity_of (id : Z) (w : Warning) : bool :=
  match w with InputArity _ id' _ _ => bool_decide (id' = id) | _ => false end.

Definition is_Arity_of (id : Z) (w : Warning) : bool :=
  match w with
  | InputArity _ id' _ _ | OutputArity _ id' _ _ => bool_decide (id' = id)
  | _ => false
  end.

(* ================================================================== *)
(** * class FixedConverter *)

Record FixedConverter := {
  data : Json;
  warnings : list Warning;
  chip_name : option string;
  input_pins : list (Z * Pin);
  output_pins : list (Z * Pin);
  components : list (Z * Component);
  wires : list Wire;
  wire_counter : Z;
  wire_name_map : gmap (Z * Z) string
}.

Definition set_warnings (self : FixedConverter) (ws : list Warning) : FixedConverter :=
  {| data := data self; warnings := ws; chip_name := chip_name self;
     input_pins := input_pins self; output_pins := output_pins self;
     components := components self; wires := wires self;
     wire_counter := wire_counter self; wire_name_map := wire_name_map self |}.

Definition set_wire_names (self : FixedConverter)
    (counter : Z) (names : gmap (Z * Z) string) : FixedConverter :=
  {| data := data self; warnings := warnings self; chip_name := chip_name self;
     input_pins := input_pins self; output_pins := output_pins self;
     components := components self; wires := wires self;
     wire_counter := counter; wire_name_map := names |}.

(** The [name_map] literal of [_normalize_chip_name]; [None] marks a chip
    that does not exist in the Hack chip-set. *)
Definition name_map : list (string * option string) :=
  [ ("NAND", Some "Nand"); ("NOT", Some "Not"); ("AND", Some "And");
    ("OR", Some "Or"); ("XOR", Some "Xor"); ("MUX", Some "Mux");
    ("DMUX", Some "DMux");
    ("8-1BIT", None); ("1-8BIT", None); ("Splitter8", None); ("Bus8", None) ].

(** The text operations at the head of [_normalize_chip_name]. *)
Definition clean_chip_name (name : string) : string :=
  let name :=
    if contains_space name then join "" (capitalize <$> split name) else name in
  remove_char "_" (remove_char "-" name).

(** [_normalize_chip_name]: the method only touches [self.warnings], which
    is passed in and returned. *)
Definition _normalize_chip_name (warnings : list Warning) (name : string)
    : option string * list Warning :=
  let name := clean_chip_name name in
  match default (Some name) (od_get name name_map) with
  | None => (None, warnings ++ [ChipRemoved name])
  | Some mapped =>
      if HackChipAPI.is_valid_chip mapped
      then (Some mapped, warnings)
      else (Some mapped, warnings ++ [ChipNotInAPI mapped])
  end.

(** One iteration of the loop of [_map_wires_to_components]. *)
Definition map_wire (comps : list (Z * Component)) (wire : Wire)
    : list (Z * Component) :=
  let comps :=
    match od_get (target_owner_id wire) comps with
    | Some comp =>
        od_set (target_owner_id wire)
          (set_input_wires comp
             (od_append (target_pin_id wire) wire (input_wires comp))) comps
    | None => comps
    end in
  match od_get (source_owner_id wire) comps with
  | Some comp =>
      od_set (source_owner_id wire)
        (set_output_wires comp
           (od_append (source_pin_id wire) wire (output_wires comp))) comps
  | None => comps
  end.

Definition _map_wires_to_components (comps : list (Z * Component))
    (wires : list Wire) : list (Z * Component) :=
  foldl map_wire comps wires.

(** [for idx, pin_id in enumerate(pin_ids)]: the catalog name at [idx] when
    there is one, [<prefix><idx>] otherwise. *)
Fixpoint assign_names (prefix : string) (expected : list string) (idx : nat)
    (pin_ids : list Z) (names : list (Z * string)) : list (Z * string) :=
  match pin_ids with
  | [] => names
  | pin_id :: rest =>
      let nm :=
        match expected !! idx with
        | Some e => e
        | None => prefix +:+ pretty idx
        end in
      assign_names prefix expected (S idx) rest (od_set pin_id nm names)
  end.

(** The loops of [_infer_generic_pin_names]: [<prefix>] for the first pin,
    [<prefix><idx>] after it. *)
Fixpoint assign_generic (prefix : string) (idx : nat)
    (pin_ids : list Z) (names : list (Z * string)) : list (Z * string) :=
  match pin_ids with
  | [] => names
  | pin_id :: rest =>
      let nm := if (0 <? idx)%nat then prefix +:+ pretty idx else prefix in
      assign_generic prefix (S idx) rest (od_set pin_id nm names)
  end.

Definition _infer_generic_pin_names (comp : Component) : Component :=
  set_pin_names comp
    (assign_generic "in" 0 (od_keys (input_wires comp)) (input_pin_names comp))
    (assign_generic "out" 0 (od_keys (output_wires comp)) (output_pin_names comp)).

(** The body of the loop of [_infer_pin_names] for one component. *)
Definition infer_component (warnings : list Warning) (comp : Component)
    : Component * list Warning :=
  match _normalize_chip_name warnings (comp_name comp) with
  | (None, warnings) => (comp, warnings)
  | (Some normalized_name, warnings) =>
      match HackChipAPI.get_chip_spec normalized_name with
      | None => (_infer_generic_pin_names comp, warnings)
      | Some chip_spec =>
          let input_pin_ids := od_keys (input_wires comp) in
          let expected_inputs := inputs chip_spec in
          let warnings :=
            if (length expected_inputs <? length input_pin_ids)%nat
            then warnings ++ [InputArity (comp_name comp) (comp_id comp)
                                (length input_pin_ids) (length expected_inputs)]
            else warnings in
          let inames :=
            assign_names "in" expected_inputs 0 input_pin_ids (input_pin_names comp) in
          let expected_outputs := outputs chip_spec in
          match output_pin_ids comp with
          | _ :: _ =>
              (set_pin_names comp inames
                 (assign_names "out" expected_outputs 0 (output_pin_ids comp)
                    (output_pin_names comp)),
               warnings)
          | [] =>
              let output_pin_ids := od_keys (output_wires comp) in
              let warnings :=
                if (length expected_outputs <? length output_pin_ids)%nat
                then warnings ++ [OutputArity (comp_name comp) (comp_id comp)
                                    (length output_pin_ids) (length expected_outputs)]
                else warnings in
              (set_pin_names comp inames
                 (assign_names "out" expected_outputs 0 output_pin_ids
                    (output_pin_names comp)),
               warnings)
          end
      end
  end.

(** [_infer_pin_names]: every component of the registry, in registry order. *)
Fixpoint _infer_pin_names (warnings : list Warning) (comps : list (Z * Component))
    : list (Z * Component) * list Warning :=
  match comps with
  | [] => ([], warnings)
  | (cid, comp) :: rest =>
      let '(comp, warnings) := infer_component warnings comp in
      let '(rest, warnings) := _infer_pin_names warnings rest in
      ((cid, comp) :: rest, warnings)
  end.

(** [{pin["ID"]: pin for pin in pins}] *)
Definition index_pins (pins : list Pin) : list (Z * Pin) :=
  foldl (fun d pin => od_set (pin_ID pin) pin d) [] pins.

(** [self.components[comp.id] = comp] for every sub-chip. *)
Definition index_components (subchips : list SubChip) : list (Z * Component) :=
  foldl (fun d sc => let comp := new_Component sc in od_set (comp_id comp) comp d)
    [] subchips.

(** [FixedConverter.__init__] *)
Definition init (json_data : Json) : FixedConverter :=
  let '(chip_name, warnings) := _normalize_chip_name [] (Name json_data) in
  let comps := index_components (SubChips json_data) in
  let comps := _map_wires_to_components comps (Wires json_data) in
  let '(comps, warnings) := _infer_pin_names warnings comps in
  {| data := json_data;
     warnings := warnings;
     chip_name := chip_name;
     input_pins := index_pins (InputPins json_data);
     output_pins := index_pins (OutputPins json_data);
     components := comps;
     wires := Wires json_data;
     wire_counter := 0;
     wire_name_map := ∅ |}.

(** [_get_or_create_wire_name] *)
Definition _get_or_create_wire_name (self : FixedConverter) (comp_id pin_id : Z)
    : string * FixedConverter :=
  let key := (comp_id, pin_id) in
  match wire_name_map self !! key with
  | Some nm => (nm, self)
  | None =>
      let counter := wire_counter self + 1 in
      let nm := "w" +:+ pretty counter in
      (nm, set_wire_names self counter (<[key := nm]> (wire_name_map self)))
  end.

(** The name part computed by [_get_wire_source_name] for a top-level input
    pin: lower-cased, with a numeric suffix when several input pins carry
    the same ["Name"]. *)
Definition input_pin_reference (self : FixedConverter) (pin : Pin) : string :=
  let name := lower (pin_Name pin) in
  let same_name_pins :=
    filter (fun p => pin_Name p = pin_Name pin) (od_values (input_pins self)) in
  if (1 <? length same_name_pins)%nat then
    let pin_ids := sorted (pin_ID <$> same_name_pins) in
    let idx := index_of (pin_ID pin) pin_ids in
    if (0 <? idx)%nat then name +:+ pretty idx else name
  else name.

(** [_get_wire_source_name] *)
Definition _get_wire_source_name (self : FixedConverter) (wire : Wire)
    : string * FixedConverter :=
  match od_get (source_owner_id wire) (input_pins self) with
  | Some pin =>
      let name := input_pin_reference self pin in
      let bit_count := pin_BitCount pin in
      if (1 <? bit_count) && (source_pin_id wire <? bit_count)
      then (name +:+ "[" +:+ pretty (source_pin_id wire) +:+ "]", self)
      else (name, self)
  | None =>
      if od_mem (source_owner_id wire) (components self)
      then _get_or_create_wire_name self (source_owner_id wire) (source_pin_id wire)
      else ("unknown", self)
  end.

(** The two loops of [_generate_hdl_signature]. *)
Fixpoint in_parts (seen_names : gmap string Z) (pins : list (Z * Pin)) : list string :=
  match pins with
  | [] => []
  | (_, pin) :: rest =>
      let name := lower (pin_Name pin) in
      let bit_count := pin_BitCount pin in
      let '(name, seen_names) :=
        match seen_names !! name with
        | Some n => (name +:+ pretty (n + 1 - 1), <[name := n + 1]> seen_names)
        | None => (name, <[name := 1]> seen_names)
        end in
      (if 1 <? bit_count then name +:+ "[" +:+ pretty bit_count +:+ "]" else name)
        :: in_parts seen_names rest
  end.

Definition out_part (pin : Pin) : string :=
  let name := remove_char " " (lower (pin_Name pin)) in
  let bit_count := pin_BitCount pin in
  if 1 <? bit_count then name +:+ "[" +:+ pretty bit_count +:+ "]" else name.

Definition _generate_hdl_signature (self : FixedConverter) : string * string :=
  (join ", " (in_parts ∅ (input_pins self)),
   join ", " (out_part <$> od_values (output_pins self))).

(** * [convert] *)

(** One entry of the [PARTS:] section.  A connection is the pair
    [(param_name, wire_name)] that the source formats as
    ["{param_name}={wire_name}"]. *)
Inductive Line :=
  | Skipped (raw_name : string)
  | Part (normalized_name : string) (connections : list (string * string))
  | NoConnections (normalized_name : string).

Definition connection_text (c : string * string) : string :=
  c.1 +:+ "=" +:+ c.2.

Definition line_text (l : Line) : string :=
  match l with
  | Skipped raw_name =>
      "    // SKIPPED: " +:+ raw_name +:+ " (não existe no Hack chip-set)"
  | Part normalized_name connections =>
      "    " +:+ normalized_name +:+ "(" +:+
      join ", " (connection_text <$> connections) +:+ ");"
  | NoConnections normalized_name =>
      "    // WARNING: " +:+ normalized_name +:+ " has no connections"
  end.

(** The loop over [comp.input_wires]: the first wire of every connected
    input pin. *)
Fixpoint input_connections (self : FixedConverter) (comp : Component)
    (pins : list (Z * list Wire)) : list (string * string) * FixedConverter :=
  match pins with
  | [] => ([], self)
  | (pin_id, wires) :: rest =>
      match wires with
      | [] => input_connections self comp rest
      | wire :: _ =>
          let '(source_name, self) := _get_wire_source_name self wire in
          let param_name :=
            default ("in" +:+ pretty pin_id) (od_get pin_id (input_pin_names comp)) in
          let '(conns, self) := input_connections self comp rest in
          ((param_name, source_name) :: conns, self)
      end
  end.

(** [output_pin_ids_ordered] *)
Definition output_pin_ids_ordered (comp : Component) : list Z :=
  match output_pin_ids comp with
  | _ :: _ => output_pin_ids comp
  | [] => od_keys (output_wires comp)
  end.

(** The target of the first wire that reaches a top-level output pin. *)
Fixpoint first_output_pin (self : FixedConverter) (wires : list Wire) : option Pin :=
  match wires with
  | [] => None
  | w :: rest =>
      match od_get (target_owner_id w) (output_pins self) with
      | Some pin => Some pin
      | None => first_output_pin self rest
      end
  end.

(** The choice of [wire_name] for one connected output pin. *)
Definition output_wire_name (self : FixedConverter) (comp_id pin_id : Z)
    (wires : list Wire) : string * FixedConverter :=
  let connects_to_output :=
    existsb (fun w => od_mem (target_owner_id w) (output_pins self)) wires in
  if connects_to_output then
    let chip_spec := chip_name self ≫= HackChipAPI.get_chip_spec in
    let output_pin := first_output_pin self wires in
    match chip_spec, output_pin with
    | Some chip_spec, Some output_pin =>
        let output_pins_list := od_values (output_pins self) in
        let idx := index_of output_pin output_pins_list in
        match outputs chip_spec !! idx with
        | Some wire_name => (wire_name, self)
        | None => _get_or_create_wire_name self comp_id pin_id
        end
    | None, Some output_pin =>
        (remove_char " " (lower (pin_Name output_pin)), self)
    | _, None => _get_or_create_wire_name self comp_id pin_id
    end
  else _get_or_create_wire_name self comp_id pin_id.

(** The loop over [output_pin_ids_ordered]. *)
Fixpoint output_connections (self : FixedConverter) (comp_id : Z) (comp : Component)
    (pin_ids : list Z) : list (string * string) * FixedConverter :=
  match pin_ids with
  | [] => ([], self)
  | pin_id :: rest =>
      match od_get pin_id (output_wires comp) with
      | None => output_connections self comp_id comp rest
      | Some wires =>
          let '(wire_name, self) := output_wire_name self comp_id pin_id wires in
          let param_name :=
            default ("out" +:+ pretty pin_id) (od_get pin_id (output_pin_names comp)) in
          let '(conns, self) := output_connections self comp_id comp rest in
          ((param_name, wire_name) :: conns, self)
      end
  end.

(** The body of the loop [for comp_id, comp in self.components.items()]. *)
Definition component_line (self : FixedConverter) (comp_id : Z) (comp : Component)
    : Line * FixedConverter :=
  let '(normalized_name, warnings) :=
    _normalize_chip_name (warnings self) (comp_name comp) in
  let self := set_warnings self warnings in
  match normalized_name with
  | None => (Skipped (comp_name comp), self)
  | Some normalized_name =>
      let '(ins, self) := input_connections self comp (input_wires comp) in
      let '(outs, self) :=
        output_connections self comp_id comp (output_pin_ids_ordered comp) in
      let connections := ins ++ outs in
      match connections with
      | _ :: _ => (Part normalized_name connections, self)
      | [] => (NoConnections normalized_name, self)
      end
  end.

Fixpoint component_lines (self : FixedConverter) (comps : list (Z * Component))
    : list Line * FixedConverter :=
  match comps with
  | [] => ([], self)
  | (comp_id, comp) :: rest =>
      let '(line, self) := component_line self comp_id comp in
      let '(lines, self) := component_lines self rest in
      (line :: lines, self)
  end.

Definition newline : string := String "010"%char "".

(** [convert]: the module text and the converter after the call. *)
Definition convert (self : FixedConverter) : string * FixedConverter :=
  let '(in_sig, out_sig) := _generate_hdl_signature self in
  let '(body, self') := component_lines self (components self) in
  let hdl :=
    [ "// Converted from Digital Logic Sim (Sebastian Lague)";
      "// Original chip: " +:+ Name (data self);
      "// Fixed converter - compliant with Nand2tetris HDL specification";
      "";
      "CHIP " +:+ default "None" (chip_name self) +:+ " {";
      "    IN " +:+ in_sig +:+ ";";
      "    OUT " +:+ out_sig +:+ ";";
      "";
      "    PARTS:" ]
    ++ (line_text <$> body) ++ ["}"] in
  (join newline hdl, self').

(** One full lowering pass: a fresh converter, then [convert]. *)
Definition lower_pass (json_data : Json) : string * list Warning :=
  let '(hdl, self) := convert (init json_data) in
  (hdl, warnings self).

(** The [PARTS:] entries and the final converter of one pass. *)
Definition pass_body (json_data : Json) : list Line :=
  (component_lines (init json_data) (components (init json_data))).1.

Definition pass_final (json_data : Json) : FixedConverter :=
  (component_lines (init json_data) (components (init json_data))).2.

(* ================================================================== *)
(** * [generate_report] *)

(** [s * n] *)
Fixpoint repeat_string (s : string) (n : nat) : string :=
  match n with
  | O => ""
  | S n => s +:+ repeat_string s n
  end.

(** Truth value of an [Optional[str]]: [None] and the empty string are
    false. *)
Definition truthy (normalized : option string) : bool :=
  match normalized with
  | Some (String _ _) => true
  | _ => false
  end.

Definition pin_report_line (e : Z * Pin) : string :=
  "  " +:+ pin_Name e.2 +:+ ": " +:+ pretty (pin_BitCount e.2) +:+
  " bit(s) [ID: " +:+ pretty e.1 +:+ "]".

Definition pin_name_line (e : Z * string) : string :=
  "      PinID " +:+ pretty e.1 +:+ " -> " +:+ e.2.

(** The body of the loop over [self.components] in [generate_report]. *)
Definition report_component (warnings : list Warning) (comp_id : Z)
    (comp : Component) : list string * list Warning :=
  let '(normalized, warnings) := _normalize_chip_name warnings (comp_name comp) in
  let status := if truthy normalized then "[OK]" else "[SKIP]" in
  let shown := if truthy normalized then default "" normalized else "SKIPPED" in
  let head :=
    "  " +:+ status +:+ " " +:+ comp_name comp +:+ " -> " +:+ shown +:+
    " [ID: " +:+ pretty comp_id +:+ "]" in
  let ins :=
    match truthy normalized, input_pin_names comp with
    | true, _ :: _ => "    Inputs:" :: (pin_name_line <$> input_pin_names comp)
    | _, _ => []
    end in
  let outs :=
    match truthy normalized, output_pin_names comp with
    | true, _ :: _ => "    Outputs:" :: (pin_name_line <$> output_pin_names comp)
    | _, _ => []
    end in
  (head :: ins ++ outs, warnings).

Fixpoint report_components (warnings : list Warning) (comps : list (Z * Component))
    : list string * list Warning :=
  match comps with
  | [] => ([], warnings)
  | (comp_id, comp) :: rest =>
      let '(lines, warnings) := report_component warnings comp_id comp in
      let '(more, warnings) := report_components warnings rest in
      (lines ++ more, warnings)
  end.

(** [generate_report]: the report text and the converter after the call. *)
Definition generate_report (self : FixedConverter) : string * FixedConverter :=
  let rule := repeat_string "=" 70 in
  let head := [rule; "RELATÓRIO DE CONVERSÃO: " +:+ Name (data self); rule; ""] in
  let warns :=
    match warnings self with
    | [] => []
    | _ :: _ =>
        "WARNING:" :: ((fun w => "  " +:+ warning_text w) <$> warnings self) ++ [""]
    end in
  let ins := "ENTRADAS:" :: (pin_report_line <$> input_pins self) in
  let outs := (newline +:+ "SAÍDAS:") :: (pin_report_line <$> output_pins self) in
  let '(comp_lines, warnings) :=
    report_components (warnings self) (components self) in
  let comps :=
    (newline +:+ "COMPONENTES (" +:+ pretty (length (components self)) +:+ "):")
    :: comp_lines in
  (join newline (head ++ warns ++ ins ++ outs ++ comps ++ [newline +:+ rule]),
   set_warnings self warnings).

(** The calls of [main] on a parsed document: the report, then [convert]. *)
Definition main_run (json_data : Json) : string * string * FixedConverter :=
  let converter := init json_data in
  let '(report, converter) := generate_report converter in
  let '(hdl, converter) := convert converter in
  (report, hdl, converter).

(* ================================================================== *)
(** * Specification vocabulary *)

(** The warnings one call of [_normalize_chip_name] appends. *)
Definition norm_result (name : string) : option string :=
  (_normalize_chip_name [] name).1.

Definition norm_warnings (name : string) : list Warning :=
  (_normalize_chip_name [] name).2.

(** A component whose type the normaliser maps to the removed marker. *)
Definition is_removed (c : Z * Component) : bool :=
  match norm_result (comp_name c.2) with None => true | Some _ => false end.

(** The fields of the converter that [convert] only reads. *)
Definition same_env (s s' : FixedConverter) : Prop :=
  data s' = data s ∧ chip_name s' = chip_name s ∧
  input_pins s' = input_pins s ∧ output_pins s' = output_pins s ∧
  components s' = components s ∧ wires s' = wires s.

(** [s'] is a later state of the pass started in [s]: same registries,
    same warnings up to appended ones, and every identifier of [s] kept. *)
Definition extends (s s' : FixedConverter) : Prop :=
  same_env s s' ∧ wire_name_map s ⊆ wire_name_map s'.

(** The identifier table holds exactly [w1 .. w<wire_counter>], one key per
    identifier. *)
Definition alloc_wf (s : FixedConverter) : Prop :=
  0 ≤ wire_counter s ∧
  (∀ k nm, wire_name_map s !! k = Some nm →
     ∃ n, 1 ≤ n ≤ wire_counter s ∧ nm = "w" +:+ pretty n) ∧
  (∀ n, 1 ≤ n ≤ wire_counter s →
     ∃ k, wire_name_map s !! k = Some ("w" +:+ pretty n)) ∧
  (∀ k1 k2 nm, wire_name_map s !! k1 = Some nm →
     wire_name_map s !! k2 = Some nm → k1 = k2).

(** The connection at position [idx] of the [PARTS:] entry at position [j]. *)
Definition emitted (body : list Line) (j idx : nat) : option (string * string) :=
  match body !! j with
  | Some (Part _ conns) => conns !! idx
  | _ => None
  end.

Definition mkWire (so sp to tp : Z) : Wire :=
  {| source_pin_id := sp; source_owner_id := so;
     target_pin_id := tp; target_owner_id := to |}.

Definition mkPin (id : Z) (name : string) (bits : Z) : Pin :=
  {| pin_ID := id; pin_Name := name; pin_BitCount := bits |}.

Definition mkSub (name : string) (id : Z) (outs : list Z) : SubChip :=
  {| sub_Name := name; sub_ID := id; sub_OutputPinColourInfo := outs |}.

(** What the resolvers may do to the converter: extend the identifier
    table, keeping it well formed, and leave the warnings alone. *)
Definition evolves (s s' : FixedConverter) : Prop :=
  extends s s' ∧ warnings s' = warnings s ∧ (alloc_wf s → alloc_wf s').

(** The registry after [_map_wires_to_components], before pin names are
    inferred. *)
Definition wired_components (json_data : Json) : list (Z * Component) :=
  _map_wires_to_components (index_components (SubChips json_data)) (Wires json_data).

(** What [_infer_pin_names] appends for one component. *)
Definition infer_warnings (comp : Component) : list Warning :=
  (infer_component [] comp).2.

(** Registry invariants established by [__init__]: keys are the component
    ids, every wire bucket is non-empty and keyed without repetition. *)
Definition buckets_ok (b : list (Z * list Wire)) : Prop :=
  NoDup (od_keys b) ∧ Forall (fun e => e.2 ≠ []) b.

Definition component_ok (c : Z * Component) : Prop :=
  comp_id c.2 = c.1 ∧ buckets_ok (input_wires c.2) ∧ buckets_ok (output_wires c.2).

Definition registry_ok (comps : list (Z * Component)) : Prop :=
  NoDup (od_keys comps) ∧ Forall component_ok comps.

(** The name [assign_names] gives to the pin at position [idx]. *)
Definition assigned_name (prefix : string) (expected : list string) (idx : nat)
    : string :=
  match expected !! idx with Some e => e | None => prefix +:+ pretty idx end.

(** The bit-index condition of [_get_wire_source_name]. *)
Definition bit_indexed (pin : Pin) (wire : Wire) : Prop :=
  1 < pin_BitCount pin ∧ source_pin_id wire < pin_BitCount pin.

(** The arity warnings [_infer_pin_names] appends for one component, after
    those of the normaliser. *)
Definition arity_warnings (comp : Component) : list Warning :=
  match norm_result (comp_name comp) with
  | None => []
  | Some nm =>
      match HackChipAPI.get_chip_spec nm with
      | None => []
      | Some spec =>
          (if (length (inputs spec) <? length (input_wires comp))%nat
           then [InputArity (comp_name comp) (comp_id comp)
                   (length (input_wires comp)) (length (inputs spec))]
           else []) ++
          match output_pin_ids comp with
          | _ :: _ => []
          | [] =>
              if (length (outputs spec) <? length (output_wires comp))%nat
              then [OutputArity (comp_name comp) (comp_id comp)
                      (length (output_wires comp)) (length (outputs spec))]
              else []
          end
      end
  end.

(** Number of connected pins among the first [k] ordered output pins: the
    position, among a statement's output connections, of the connection of
    the [k]-th ordered pin. *)
Definition connected_before (comp : Component) (pids : list Z) (k : nat) : nat :=
  length (filter (fun q => od_mem q (output_wires comp)) (take k pids)).


(** The output-side arity warning of a component of catalog type [spec]. *)
Definition output_arity_warnings (spec : ChipSpec) (comp : Component) : list Warning :=
  match output_pin_ids comp with
  | _ :: _ => []
  | [] =>
      if (length (outputs spec) <? length (output_wires comp))%nat
      then [OutputArity (comp_name comp) (comp_id comp)
              (length (output_wires comp)) (length (outputs spec))]
      else []
  end.

(** * Example documents *)

(** A [NOT] fed by a wire whose source owner 99 is registered nowhere. *)
Definition ex_unknown_owner : Json :=
  {| Name := "And";
     InputPins := [mkPin 1 "IN" 1];
     OutputPins := [mkPin 5 "OUT" 1];
     SubChips := [mkSub "NOT" 10 []];
     Wires := [mkWire 99 0 10 0; mkWire 10 0 5 0] |}.

(** A [NOT] without any wire. *)
Definition ex_no_connections : Json :=
  {| Name := "And";
     InputPins := [mkPin 1 "IN" 1];
     OutputPins := [mkPin 5 "OUT" 1];
     SubChips := [mkSub "NOT" 10 []];
     Wires := [] |}.

(** An 8-bit bus [A] and a 1-bit pin [S] feeding an [AND]. *)
Definition ex_bus : Json :=
  {| Name := "And";
     InputPins := [mkPin 1 "A" 8; mkPin 2 "S" 1];
     OutputPins := [mkPin 5 "OUT" 1];
     SubChips := [mkSub "AND" 10 []];
     Wires := [mkWire 1 3 10 0; mkWire 2 3 10 1; mkWire 10 0 5 0] |}.

(** A [Splitter8] next to a [NOT]. *)
Definition ex_removed : Json :=
  {| Name := "And";
     InputPins := [mkPin 1 "IN" 1];
     OutputPins := [mkPin 5 "OUT" 1];
     SubChips := [mkSub "Splitter8" 10 []; mkSub "NOT" 11 []];
     Wires := [mkWire 1 0 10 0; mkWire 1 0 11 0; mkWire 11 0 5 0] |}.

(** An [AND] (two catalog inputs) fed on three input pins. *)
Definition ex_overflow : Json :=
  {| Name := "And";
     InputPins := [mkPin 1 "A" 1; mkPin 2 "B" 1; mkPin 3 "C" 1];
     OutputPins := [mkPin 5 "OUT" 1];
     SubChips := [mkSub "AND" 10 []];
     Wires := [mkWire 1 0 10 0; mkWire 2 0 10 1; mkWire 3 0 10 2;
               mkWire 10 0 5 0] |}.

(** A module named like the catalog chip [And] (one declared output) whose
    [NOT] drives the second registered output pin. *)
Definition ex_passthrough_catalog : Json :=
  {| Name := "And";
     InputPins := [mkPin 1 "IN" 1];
     OutputPins := [mkPin 5 "X" 1; mkPin 6 "Y" 1];
     SubChips := [mkSub "NOT" 10 []];
     Wires := [mkWire 1 0 10 0; mkWire 10 0 6 0] |}.

(** The same circuit in a module whose name is not in the catalog. *)
Definition ex_passthrough_custom : Json :=
  {| Name := "Demo";
     InputPins := [mkPin 1 "IN" 1];
     OutputPins := [mkPin 5 "X" 1; mkPin 6 "Y OUT" 1];
     SubChips := [mkSub "NOT" 10 []];
     Wires := [mkWire 1 0 10 0; mkWire 10 0 6 0] |}.

(** A [DMUX] declaring only output pin 0, whose pin 1 feeds a [NOT]. *)
Definition ex_undeclared_output : Json :=
  {| Name := "And";
     InputPins := [mkPin 1 "IN" 1];
     OutputPins := [mkPin 5 "OUT" 1];
     SubChips := [mkSub "DMUX" 10 [0]; mkSub "NOT" 20 []];
     Wires := [mkWire 1 0 10 0; mkWire 10 0 5 0; mkWire 10 1 20 0] |}.

(** Two input pins named [IN], the one with the larger id registered
    first. *)
Definition ex_duplicate_names : Json :=
  {| Name := "And";
     InputPins := [mkPin 2 "IN" 1; mkPin 1 "IN" 1];
     OutputPins := [mkPin 5 "OUT" 1];
     SubChips := [mkSub "AND" 10 []];
     Wires := [mkWire 2 0 10 0; mkWire 1 0 10 1; mkWire 10 0 5 0] |}.

(** The same pins registered in ascending id order. *)
Definition ex_duplicate_names_in_order : Json :=
  {| Name := "And";
     InputPins := [mkPin 1 "IN" 1; mkPin 2 "IN" 1];
     OutputPins := [mkPin 5 "OUT" 1];
     SubChips := [mkSub "AND" 10 []];
     Wires := [mkWire 1 0 10 0; mkWire 2 0 10 1; mkWire 10 0 5 0] |}.

(** Output pin 0 of a [NOT] read by two other [NOT]s. *)
Definition ex_fanout : Json :=
  {| Name := "And";
     InputPins := [mkPin 1 "IN" 1];
     OutputPins := [mkPin 5 "OUT" 1];
     SubChips := [mkSub "NOT" 20 []; mkSub "NOT" 10 []; mkSub "NOT" 30 []];
     Wires := [mkWire 1 0 10 0; mkWire 10 0 20 0; mkWire 10 0 30 0] |}.

(** Output pin 0 of a [NOT] wired to two top-level output pins. *)
Definition ex_fanout_outputs : Json :=
  {| Name := "And";
     InputPins := [mkPin 1 "IN" 1];
     OutputPins := [mkPin 5 "OUT" 1; mkPin 6 "COPY" 1];
     SubChips := [mkSub "NOT" 10 []];
     Wires := [mkWire 1 0 10 0; mkWire 10 0 5 0; mkWire 10 0 6 0] |}.

(** Output pin 0 of a [NOT] wired to a top-level output pin and read by
    another [NOT]. *)
Definition ex_fanout_mixed : Json :=
  {| Name := "And";
     InputPins := [mkPin 1 "IN" 1];
     OutputPins := [mkPin 5 "OUT" 1];
     SubChips := [mkSub "NOT" 10 []; mkSub "NOT" 20 []];
     Wires := [mkWire 1 0 10 0; mkWire 10 0 5 0; mkWire 10 0 20 0] |}.

(** A [NOT] (one catalog input, one catalog output) with two connected
    input pins and two connected output pins. *)
Definition ex_overflow_both : Json :=
  {| Name := "And";
     InputPins := [mkPin 1 "A" 1; mkPin 2 "B" 1];
     OutputPins := [mkPin 5 "OUT" 1; mkPin 6 "COPY" 1];
     SubChips := [mkSub "NOT" 10 []];
     Wires := [mkWire 1 0 10 0; mkWire 2 0 10 1;
               mkWire 10 0 5 0; mkWire 10 1 6 0] |}.

(** * Further vocabulary *)

(** Every character of [s] satisfies [P]. *)
Fixpoint string_forall (P : ascii → bool) (s : string) : bool :=
  match s with
  | EmptyString => true
  | String c r => P c && string_forall P r
  end.

(** A character that [_normalize_chip_name] never leaves in its result. *)
Definition is_separator (c : ascii) : bool :=
  bool_decide (c = " "%char) || bool_decide (c = "-"%char) || bool_decide (c = "_"%char).

(** First-occurrence order of a list: what the keys of a dict look like
    after the elements were used as keys one after the other. *)
Definition first_seen (l : list Z) : list Z :=
  foldl (fun acc x => if decide (x ∈ acc) then acc else acc ++ [x]) [] l.

(** The wires of the document that end in, or leave, pin [pid] of the
    component [cid], in document order. *)
Definition wires_into (g : Json) (cid pid : Z) : list Wire :=
  filter (fun w => target_owner_id w = cid ∧ target_pin_id w = pid) (Wires g).

Definition wires_from (g : Json) (cid pid : Z) : list Wire :=
  filter (fun w => source_owner_id w = cid ∧ source_pin_id w = pid) (Wires g).

(** Number of pins among [pins] whose lower-cased name is [nm]. *)
Definition occurrences (nm : string) (pins : list (Z * Pin)) : nat :=
  length (filter (fun e => lower (pin_Name e.2) = nm) pins).

(** The entry of the [IN] signature for a pin seen after [c] earlier pins
    of the same lower-cased name. *)
Definition signature_entry (pin : Pin) (c : nat) : string :=
  let name := lower (pin_Name pin) in
  let name := if decide (c = 0%nat) then name else name +:+ pretty (Z.of_nat c) in
  if 1 <? pin_BitCount pin
  then name +:+ "[" +:+ pretty (pin_BitCount pin) +:+ "]"
  else name.

(** The generic name of [_infer_generic_pin_names] at position [idx]. *)
Definition generic_name (prefix : string) (idx : nat) : string :=
  if (0 <? idx)%nat then prefix +:+ pretty idx else prefix.

(** What one iteration of [_map_wires_to_components] does to the component
    registered under [cid]. *)
Definition wire_update (cid : Z) (comp : Component) (w : Wire) : Component :=
  let comp :=
    if decide (target_owner_id w = cid)
    then set_input_wires comp (od_append (target_pin_id w) w (input_wires comp))
    else comp in
  if decide (source_owner_id w = cid)
  then set_output_wires comp (od_append (source_pin_id w) w (output_wires comp))
  else comp.

(** ** Which pins are given an identifier *)

(** The component [comp] has an input pin whose first wire leaves pin [k.2]
    of the owner [k.1]. *)
Definition reads_pin (comp : Component) (k : Z * Z) : Prop :=
  ∃ idx pid w ws,
    input_wires comp !! idx = Some (pid, w :: ws) ∧
    (source_owner_id w, source_pin_id w) = k.

(** Some statement reads pin [k.2] of the owner [k.1]: a registered
    component that is not skipped has an input pin whose first wire leaves
    that pin. *)
Definition read_by_consumer (g : Json) (k : Z * Z) : Prop :=
  ∃ j cid comp,
    components (init g) !! j = Some (cid, comp) ∧
    is_Some (norm_result (comp_name comp)) ∧
    reads_pin comp k.

(** The branches of [convert] that send an output pin with the wires [ws]
    to [_get_or_create_wire_name]: no wire reaches a top-level output pin,
    or one does but the module is a catalog chip that declares no output at
    the registration index of the first such pin. *)
Definition allocates_for_output (self : FixedConverter) (ws : list Wire) : Prop :=
  match first_output_pin self ws with
  | None => True
  | Some op =>
      match chip_name self ≫= HackChipAPI.get_chip_spec with
      | Some spec =>
          outputs spec !! index_of op (od_values (output_pins self)) = None
      | None => False
      end
  end.

(** Pin [p] is connected, among the ordered output pins of [comp], and sent
    to the allocator. *)
Definition names_pin (self : FixedConverter) (comp : Component) (p : Z) : Prop :=
  ∃ i ws,
    output_pin_ids_ordered comp !! i = Some p ∧
    od_get p (output_wires comp) = Some ws ∧
    allocates_for_output self ws.

(** The statement of the component [k.1] itself names its pin [k.2] by an
    identifier: the component is not skipped, the pin is connected and among
    its ordered output pins, and [convert] takes an allocating branch. *)
Definition named_by_producer (g : Json) (k : Z * Z) : Prop :=
  ∃ j comp,
    components (init g) !! j = Some (k.1, comp) ∧
    is_Some (norm_result (comp_name comp)) ∧
    names_pin (init g) comp k.2.

(** The value [convert] gives a connected output pin with the wires [ws]:
    the identifier of [k] in the table [names] on the allocating branches,
    otherwise the name of the first top-level output pin reached (module
    not in the catalog) or the catalog output at that pin's registration
    index (module in the catalog). *)
Definition producer_value_is (self : FixedConverter) (names : gmap (Z * Z) string)
    (k : Z * Z) (ws : list Wire) (value : string) : Prop :=
  match first_output_pin self ws with
  | None => names !! k = Some value
  | Some op =>
      match chip_name self ≫= HackChipAPI.get_chip_spec with
      | None => value = remove_char " " (lower (pin_Name op))
      | Some spec =>
          match outputs spec !! index_of op (od_values (output_pins self)) with
          | Some wire_name => value = wire_name
          | None => names !! k = Some value
          end
      end
  end.

(** The parameter names of a statement, read off the component: the inferred
    name of every connected input pin in bucket order, then that of every
    connected pin among the ordered output pins. *)
Definition input_params (comp : Component) : list string :=
  (fun e => default ("in" +:+ pretty e.1) (od_get e.1 (input_pin_names comp)))
    <$> input_wires comp.

Definition output_params (comp : Component) : list string :=
  (fun q => default ("out" +:+ pretty q) (od_get q (output_pin_names comp)))
    <$> filter (fun q => od_mem q (output_wires comp)) (output_pin_ids_ordered comp).

(** ** Converters in use *)


(** ** Rank of an input pin among the pins of its name *)

(** Number of registered input pins that carry the same ["Name"] as [pin]
    and a smaller ["ID"]. *)
Definition id_rank (pins : list (Z * Pin)) (pin : Pin) : nat :=
  length (filter (fun e => pin_Name e.2 = pin_Name pin ∧ pin_ID e.2 < pin_ID pin) pins).

(** The lower-cased name, followed by the rank when it is not zero. *)
Definition ranked_name (pins : list (Z * Pin)) (pin : Pin) : string :=
  let rank := id_rank pins pin in
  if decide (rank = 0%nat) then lower (pin_Name pin)
  else lower (pin_Name pin) +:+ pretty rank.

(** ** Further example documents *)

(** Two 8-bit input pins named [A], the one with the larger id registered
    first, each feeding bit 3 to an [AND]. *)
Definition ex_bus_duplicate : Json :=
  {| Name := "And";
     InputPins := [mkPin 2 "A" 8; mkPin 1 "A" 8];
     OutputPins := [mkPin 5 "OUT" 1];
     SubChips := [mkSub "AND" 10 []];
     Wires := [mkWire 2 3 10 0; mkWire 1 3 10 1; mkWire 10 0 5 0] |}.

(** In a module named like the catalog chip [And] (one declared output), a
    [NOT] whose output pin is wired to the second and the third top-level
    output pin. *)
Definition ex_fanout_catalog_outputs : Json :=
  {| Name := "And";
     InputPins := [mkPin 1 "IN" 1];
     OutputPins := [mkPin 5 "X" 1; mkPin 6 "Y" 1; mkPin 7 "Z" 1];
     SubChips := [mkSub "NOT" 10 []];
     Wires := [mkWire 1 0 10 0; mkWire 10 0 6 0; mkWire 10 0 7 0] |}.

(** A [DMUX] declaring only output pin 0, whose pin 1 is wired back to its
    own input pin 1. *)
Definition ex_undeclared_feedback : Json :=
  {| Name := "And";
     InputPins := [mkPin 1 "IN" 1];
     OutputPins := [mkPin 5 "OUT" 1];
     SubChips := [mkSub "DMUX" 10 [0]];
     Wires := [mkWire 1 0 10 0; mkWire 10 1 10 1; mkWire 10 0 5 0] |}.

(* ================================================================== *)
(** * Properties *)

(** ** Ordered dictionaries *)

Section odict_facts.
Context {K V : Type} `{EqDecision K}.
Implicit Types (d : list (K * V)) (k : K) (v : V).

Lemma od_get_set_eq k v d : od_get k (od_set k v d) = Some v.
Proof.
  induction d as [|[k' v'] d IH]; simpl.
  - by rewrite decide_True.
  - destruct (decide (k' = k)); simpl.
    + by rewrite decide_True.
    + by rewrite decide_False.
Qed.

Lemma od_get_set_ne k k' v d : k ≠ k' → od_get k' (od_set k v d) = od_get k' d.
Proof.
  intros Hne. induction d as [|[k0 v0] d IH]; simpl.
  - by rewrite decide_False.
  - destruct (decide (k0 = k)) as [->|]; simpl.
    + by rewrite !decide_False.
    + destruct (decide (k0 = k')); done.
Qed.

Lemma od_get_None_keys k d : od_get k d = None ↔ k ∉ od_keys d.
Proof.
  unfold od_keys. induction d as [|[k0 v0] d IH]; simpl.
  - split; [intros _; apply not_elem_of_nil | done].
  - rewrite not_elem_of_cons. destruct (decide (k0 = k)) as [->|Hne].
    + split; [done | intros [? _]; done].
    + split.
      * intros Hg; split; [congruence | by apply IH].
      * intros [_ ?]; by apply IH.
Qed.

Lemma od_get_Some_elem k v d : od_get k d = Some v → (k, v) ∈ d.
Proof.
  induction d as [|[k0 v0] d IH]; simpl; [done|].
  destruct (decide (k0 = k)) as [->|].
  - intros [= ->]. apply elem_of_cons; by left.
  - intros ?. apply elem_of_cons; right; auto.
Qed.

Lemma od_keys_set k v d :
  od_keys (od_set k v d) =
    if od_mem k d then od_keys d else od_keys d ++ [k].
Proof.
  unfold od_keys, od_mem. induction d as [|[k0 v0] d IH]; csimpl; [done|].
  destruct (decide (k0 = k)) as [->|]; csimpl; [done|].
  rewrite IH. by destruct (od_get k d).
Qed.

Lemma od_set_NoDup k v d : NoDup (od_keys d) → NoDup (od_keys (od_set k v d)).
Proof.
  intros Hnd. rewrite od_keys_set. unfold od_mem.
  destruct (od_get k d) eqn:Hg; [done|].
  apply NoDup_app; split_and!; [done| |apply NoDup_singleton].
  intros x Hx ->%list_elem_of_singleton. by apply od_get_None_keys in Hg.
Qed.

Lemma od_get_lookup d j k v :
  NoDup (od_keys d) → d !! j = Some (k, v) → od_get k d = Some v.
Proof.
  unfold od_keys. revert j. induction d as [|[k0 v0] d IH]; intros j Hnd Hj; [done|].
  simpl in *. apply NoDup_cons in Hnd as [Hnot Hnd].
  destruct j as [|j]; simpl in Hj.
  - injection Hj as -> ->. by rewrite decide_True.
  - destruct (decide (k0 = k)) as [->|]; [|by eauto].
    exfalso. apply Hnot. apply list_elem_of_fmap. exists (k, v); split; [done|].
    by eapply list_elem_of_lookup_2.
Qed.

Lemma od_get_is_lookup d k v :
  od_get k d = Some v → ∃ j, d !! j = Some (k, v).
Proof. intros ?%od_get_Some_elem. by apply list_elem_of_lookup. Qed.
End odict_facts.

(** ** The normaliser *)

Lemma normalize_split ws name :
  _normalize_chip_name ws name = (norm_result name, ws ++ norm_warnings name).
Proof.
  unfold norm_result, norm_warnings, _normalize_chip_name.
  destruct (default _ _); simpl; [|done].
  destruct (HackChipAPI.is_valid_chip _); simpl; [|done].
  by rewrite app_nil_r.
Qed.

Lemma norm_warnings_removed name :
  length (filter is_ChipRemoved (norm_warnings name)) =
    match norm_result name with None => 1%nat | Some _ => 0%nat end.
Proof.
  unfold norm_result, norm_warnings, _normalize_chip_name.
  destruct (default _ _); simpl; [|done].
  by destruct (HackChipAPI.is_valid_chip _).
Qed.

Lemma norm_warnings_not_arity name cid :
  filter (is_InputArity_of cid) (norm_warnings name) = [].
Proof.
  unfold norm_warnings, _normalize_chip_name.
  destruct (default _ _); simpl; [|done].
  by destruct (HackChipAPI.is_valid_chip _).
Qed.

(** ** Frame and monotonicity of the resolvers *)

Lemma same_env_refl s : same_env s s.
Proof. by repeat split. Qed.

Lemma same_env_trans s1 s2 s3 : same_env s1 s2 → same_env s2 s3 → same_env s1 s3.
Proof.
  intros (?&?&?&?&?&?) (?&?&?&?&?&?). repeat split; congruence.
Qed.

Lemma extends_refl s : extends s s.
Proof. split; [apply same_env_refl | done]. Qed.

Lemma extends_trans s1 s2 s3 : extends s1 s2 → extends s2 s3 → extends s1 s3.
Proof.
  intros [? ?] [? ?]. split; [by eapply same_env_trans | by etrans].
Qed.

Lemma evolves_refl s : evolves s s.
Proof. split; [apply extends_refl | done]. Qed.

Lemma evolves_trans s1 s2 s3 : evolves s1 s2 → evolves s2 s3 → evolves s1 s3.
Proof.
  intros (?&?&?) (?&?&?). split_and!; [by eapply extends_trans | congruence | auto].
Qed.

Lemma extends_lookup s s' k nm :
  extends s s' → wire_name_map s !! k = Some nm → wire_name_map s' !! k = Some nm.
Proof. intros [_ Hsub] ?. by eapply lookup_weaken. Qed.

Lemma alloc_wf_fresh s k :
  alloc_wf s → wire_name_map s !! k = None →
  alloc_wf (set_wire_names s (wire_counter s + 1)
              (<[k := "w" +:+ pretty (wire_counter s + 1)]> (wire_name_map s))).
Proof.
  intros (Hpos & Hform & Hall & Hinj) Hnone.
  assert (Hnew : ∀ k', wire_name_map s !! k' ≠ Some ("w" +:+ pretty (wire_counter s + 1))).
  { intros k' Hk'. destruct (Hform _ _ Hk') as (n & Hn & Heq).
    apply (inj (String.app "w")) in Heq. apply (inj pretty) in Heq. lia. }
  unfold alloc_wf; simpl. split_and!.
  - lia.
  - intros k' nm. rewrite lookup_insert. case_decide as Hk.
    + intros [= <-]. exists (wire_counter s + 1). split; [lia | done].
    + intros Hk'. destruct (Hform _ _ Hk') as (n & Hn & ->).
      exists n. split; [lia | done].
  - intros n Hn. destruct (decide (n = wire_counter s + 1)) as [->|Hne].
    + exists k. by rewrite lookup_insert_eq.
    + destruct (Hall n) as [k' Hk']; [lia|]. exists k'.
      rewrite lookup_insert_ne; [done|]. intros ->. congruence.
  - intros k1 k2 nm. rewrite !lookup_insert.
    repeat case_decide; subst; try done.
    + intros [= <-] Hk2. by destruct (Hnew k2).
    + intros Hk1 [= <-]. by destruct (Hnew k1).
    + apply Hinj.
Qed.

Lemma get_or_create_evolves s cid pid nm s' :
  _get_or_create_wire_name s cid pid = (nm, s') →
  evolves s s' ∧ wire_name_map s' !! (cid, pid) = Some nm.
Proof.
  unfold _get_or_create_wire_name.
  destruct (wire_name_map s !! (cid, pid)) eqn:Hk; intros [= <- <-].
  - split; [apply evolves_refl | done].
  - split; [|simpl; by rewrite lookup_insert_eq].
    split_and!; [|done|intros; by apply alloc_wf_fresh].
    split; [by repeat split | simpl; by apply insert_subseteq].
Qed.

Lemma get_wire_source_name_evolves s w nm s' :
  _get_wire_source_name s w = (nm, s') → evolves s s'.
Proof.
  unfold _get_wire_source_name.
  destruct (od_get _ (input_pins s)).
  - destruct (_ && _); intros [= <- <-]; apply evolves_refl.
  - destruct (od_mem _ _).
    + by intros [? _]%get_or_create_evolves.
    + intros [= <- <-]; apply evolves_refl.
Qed.

Lemma output_wire_name_evolves s cid pid ws nm s' :
  output_wire_name s cid pid ws = (nm, s') →
  evolves s s'.
Proof.
  unfold output_wire_name.
  destruct (existsb _ _).
  - destruct (chip_name s ≫= HackChipAPI.get_chip_spec) as [spec|],
      (first_output_pin s ws) as [op|].
    + destruct (outputs spec !! _).
      * intros [= <- <-]; apply evolves_refl.
      * by intros [? _]%get_or_create_evolves.
    + by intros [? _]%get_or_create_evolves.
    + intros [= <- <-]; apply evolves_refl.
    + by intros [? _]%get_or_create_evolves.
  - by intros [? _]%get_or_create_evolves.
Qed.

Lemma input_connections_evolves comp pins s conns s' :
  input_connections s comp pins = (conns, s') → evolves s s'.
Proof.
  revert s conns s'. induction pins as [|[pid ws] pins IH]; intros s conns s'; simpl.
  - intros [= <- <-]; apply evolves_refl.
  - destruct ws as [|w ws]; [by apply IH|].
    destruct (_get_wire_source_name s w) as [nm s1] eqn:H1.
    destruct (input_connections s1 comp pins) as [cs s2] eqn:H2.
    intros [= <- <-]. eapply evolves_trans.
    + by eapply get_wire_source_name_evolves.
    + by eapply IH.
Qed.

Lemma output_connections_evolves cid comp pids s conns s' :
  output_connections s cid comp pids = (conns, s') → evolves s s'.
Proof.
  revert s conns s'. induction pids as [|pid pids IH]; intros s conns s'; simpl.
  - intros [= <- <-]; apply evolves_refl.
  - destruct (od_get pid (output_wires comp)) as [ws|]; [|by apply IH].
    destruct (output_wire_name s cid pid ws) as [nm s1] eqn:H1.
    destruct (output_connections s1 cid comp pids) as [cs s2] eqn:H2.
    intros [= <- <-]. eapply evolves_trans.
    + by eapply output_wire_name_evolves.
    + by eapply IH.
Qed.

(** [component_line] appends exactly the warnings of one normaliser call. *)
Lemma component_line_spec s cid comp line s' :
  component_line s cid comp = (line, s') →
  extends s s' ∧ (alloc_wf s → alloc_wf s') ∧
  warnings s' = warnings s ++ norm_warnings (comp_name comp).
Proof.
  unfold component_line. rewrite normalize_split.
  set (s0 := set_warnings s _).
  assert (H0 : extends s s0 ∧ (alloc_wf s → alloc_wf s0)).
  { split; [split; [by repeat split | done] | done]. }
  destruct (norm_result (comp_name comp)) as [nm|]; [|by intros [= <- <-]; split_and!; try apply H0].
  destruct (input_connections s0 comp _) as [ins s1] eqn:H1.
  destruct (output_connections s1 cid comp _) as [outs s2] eqn:H2.
  apply input_connections_evolves in H1 as (He1 & Hw1 & Hwf1).
  apply output_connections_evolves in H2 as (He2 & Hw2 & Hwf2).
  intros Hl. assert (s' = s2) as -> by (destruct (ins ++ outs); by inversion Hl).
  destruct H0 as [He0 Hwf0]. split_and!.
  - eapply extends_trans; [done|]. by eapply extends_trans.
  - auto.
  - by rewrite Hw2, Hw1.
Qed.

Lemma component_lines_spec comps s lines s' :
  component_lines s comps = (lines, s') →
  extends s s' ∧ (alloc_wf s → alloc_wf s') ∧
  warnings s' = warnings s ++ flat_map (fun c => norm_warnings (comp_name c.2)) comps ∧
  length lines = length comps.
Proof.
  revert s lines s'. induction comps as [|[cid comp] comps IH]; intros s lines s'; simpl.
  - intros [= <- <-]. split_and!; [apply extends_refl|done|by rewrite app_nil_r|done].
  - destruct (component_line s cid comp) as [l s1] eqn:H1.
    destruct (component_lines s1 comps) as [ls s2] eqn:H2.
    intros [= <- <-].
    apply component_line_spec in H1 as (He1 & Hwf1 & Hw1).
    apply IH in H2 as (He2 & Hwf2 & Hw2 & Hlen).
    split_and!.
    + by eapply extends_trans.
    + auto.
    + by rewrite Hw2, Hw1, <-app_assoc.
    + simpl; by rewrite Hlen.
Qed.

(** The entry at position [j] is the one [component_line] computes for the
    [j]-th component, from a state between the initial and the final one. *)
Lemma component_lines_lookup comps s lines s' j cid comp :
  component_lines s comps = (lines, s') →
  comps !! j = Some (cid, comp) →
  ∃ sj, extends s sj ∧ (alloc_wf s → alloc_wf sj) ∧
        lines !! j = Some (component_line sj cid comp).1 ∧
        extends (component_line sj cid comp).2 s'.
Proof.
  revert s lines s' j. induction comps as [|[cid0 comp0] comps IH];
    intros s lines s' j; simpl; [done|].
  destruct (component_line s cid0 comp0) as [l s1] eqn:H1.
  destruct (component_lines s1 comps) as [ls s2] eqn:H2.
  intros [= <- <-] Hj. destruct j as [|j]; simpl in Hj.
  - injection Hj as -> ->. exists s. rewrite H1; simpl.
    split_and!; [apply extends_refl|done|done|].
    by apply component_lines_spec in H2 as (? & _).
  - destruct (IH _ _ _ _ H2 Hj) as (sj & He & Hwf & Hl & Hfin).
    apply component_line_spec in H1 as (He1 & Hwf1 & _).
    exists sj. split_and!; [by eapply extends_trans|auto|done|done].
Qed.

(** ** The registry built by [__init__] *)

Lemma od_append_buckets_ok k (w : Wire) b : buckets_ok b → buckets_ok (od_append k w b).
Proof.
  intros [Hnd Hne]. unfold od_append. split; [by apply od_set_NoDup|].
  generalize (default [] (od_get k b) ++ [w]) (app_cons_not_nil (default [] (od_get k b)) [] w).
  intros v Hv. induction b as [|[k0 v0] b IH]; simpl.
  - constructor; [simpl; congruence | constructor].
  - apply Forall_cons in Hne as [? ?]. apply NoDup_cons in Hnd as [? ?].
    destruct (decide (k0 = k)); constructor; simpl; auto; congruence.
Qed.

Lemma od_set_Forall {V} (P : Z * V → Prop) k v (d : list (Z * V)) :
  P (k, v) → Forall P d → Forall P (od_set k v d).
Proof.
  intros Hv. induction 1 as [|[k0 v0] d ? ? IH]; simpl.
  - by repeat constructor.
  - destruct (decide (k0 = k)); constructor; auto.
Qed.

Lemma registry_ok_get comps k comp :
  registry_ok comps → od_get k comps = Some comp → component_ok (k, comp).
Proof.
  intros [_ Hall] Hg%od_get_Some_elem. by eapply Forall_forall in Hall.
Qed.

Lemma registry_ok_set comps k comp :
  registry_ok comps → component_ok (k, comp) → registry_ok (od_set k comp comps).
Proof.
  intros [Hnd Hall] Hc. split; [by apply od_set_NoDup | by apply od_set_Forall].
Qed.

Lemma index_components_ok subs : registry_ok (index_components subs).
Proof.
  unfold index_components.
  assert (Hnil : registry_ok []) by (split; [apply NoDup_nil_2 | constructor]).
  revert Hnil. generalize (@nil (Z * Component)).
  induction subs as [|sc subs IH]; intros d Hd; simpl; [done|].
  apply IH. apply registry_ok_set; [done|].
  split_and!; simpl; [done| |]; (split; [apply NoDup_nil_2 | constructor]).
Qed.

Lemma od_alter_Forall {V} (P : Z * V → Prop) k (f : V → V) (d : list (Z * V)) :
  (∀ c, P (k, c) → P (k, f c)) → Forall P d →
  Forall P (match od_get k d with Some c => od_set k (f c) d | None => d end).
Proof.
  intros Hf Hd. destruct (od_get k d) as [c|] eqn:Hg; [|done].
  apply od_set_Forall; [|done]. apply Hf.
  apply od_get_Some_elem in Hg. by eapply Forall_forall in Hd.
Qed.

Lemma od_alter_keys {V} k (f : V → V) (d : list (Z * V)) :
  od_keys (match od_get k d with Some c => od_set k (f c) d | None => d end)
  = od_keys d.
Proof.
  destruct (od_get k d) as [c|] eqn:Hg; [|done].
  rewrite od_keys_set. unfold od_mem. by rewrite Hg.
Qed.

Lemma map_wire_Forall (P : Z * Component → Prop) comps w :
  (∀ k c, P (k, c) →
     P (k, set_input_wires c (od_append (target_pin_id w) w (input_wires c)))) →
  (∀ k c, P (k, c) →
     P (k, set_output_wires c (od_append (source_pin_id w) w (output_wires c)))) →
  Forall P comps → Forall P (map_wire comps w).
Proof.
  intros Hin Hout Hd. unfold map_wire.
  apply (od_alter_Forall P (source_owner_id w)
    (fun c => set_output_wires c (od_append (source_pin_id w) w (output_wires c))));
    [by auto|].
  apply (od_alter_Forall P (target_owner_id w)
    (fun c => set_input_wires c (od_append (target_pin_id w) w (input_wires c))));
    by auto.
Qed.

Lemma map_wire_keys comps w : od_keys (map_wire comps w) = od_keys comps.
Proof.
  unfold map_wire.
  rewrite (od_alter_keys (source_owner_id w)
    (fun c => set_output_wires c (od_append (source_pin_id w) w (output_wires c)))).
  apply (od_alter_keys (target_owner_id w)
    (fun c => set_input_wires c (od_append (target_pin_id w) w (input_wires c)))).
Qed.

Lemma map_wire_ok comps w : registry_ok comps → registry_ok (map_wire comps w).
Proof.
  intros [Hnd Hall]. split; [by rewrite map_wire_keys|].
  apply map_wire_Forall; [| |done].
  - intros k c (? & ? & ?). split_and!; simpl; [done| |done].
    by apply od_append_buckets_ok.
  - intros k c (? & ? & ?). split_and!; simpl; [done|done|].
    by apply od_append_buckets_ok.
Qed.

Lemma wired_components_ok g : registry_ok (wired_components g).
Proof.
  unfold wired_components, _map_wires_to_components.
  generalize (index_components_ok (SubChips g)).
  generalize (index_components (SubChips g)).
  induction (Wires g) as [|w ws IH]; intros d Hd; simpl; [done|].
  apply IH. by apply map_wire_ok.
Qed.

(** Before inference no pin has a name. *)
Lemma wired_components_unnamed g :
  Forall (fun c => input_pin_names c.2 = [] ∧ output_pin_names c.2 = [])
    (wired_components g).
Proof.
  unfold wired_components, _map_wires_to_components.
  assert (H0 : Forall (fun c : Z * Component =>
            input_pin_names c.2 = [] ∧ output_pin_names c.2 = [])
            (index_components (SubChips g))).
  { unfold index_components. generalize (Forall_nil_2 (fun c : Z * Component =>
            input_pin_names c.2 = [] ∧ output_pin_names c.2 = [])).
    generalize (@nil (Z * Component)).
    induction (SubChips g) as [|sc subs IH]; intros d Hd; simpl; [done|].
    apply IH. by apply od_set_Forall. }
  revert H0. generalize (index_components (SubChips g)).
  induction (Wires g) as [|w ws IH]; intros d Hd; simpl; [done|].
  apply IH. by apply map_wire_Forall.
Qed.

(** ** Pin-name inference *)

Lemma infer_component_split ws comp :
  infer_component ws comp = ((infer_component [] comp).1, ws ++ infer_warnings comp).
Proof.
  unfold infer_warnings, infer_component.
  rewrite (normalize_split ws), (normalize_split []).
  destruct (norm_result _) as [nm|]; simpl; [|done].
  destruct (HackChipAPI.get_chip_spec nm) as [spec|]; simpl; [|done].
  destruct (output_pin_ids comp); simpl;
    repeat case_match; simpl; by rewrite <-?app_assoc, ?app_nil_r.
Qed.

Lemma infer_pin_names_split ws comps :
  _infer_pin_names ws comps =
    ((fun c => (c.1, (infer_component [] c.2).1)) <$> comps,
     ws ++ flat_map (fun c => infer_warnings c.2) comps).
Proof.
  revert ws. induction comps as [|[cid comp] comps IH]; intros ws; simpl.
  - by rewrite app_nil_r.
  - rewrite infer_component_split; simpl. rewrite IH. by rewrite <-app_assoc.
Qed.

Lemma init_components g :
  components (init g) =
    (fun c => (c.1, (infer_component [] c.2).1)) <$> wired_components g.
Proof.
  unfold init. rewrite normalize_split.
  fold (wired_components g). by rewrite infer_pin_names_split.
Qed.

Lemma init_warnings g :
  warnings (init g) =
    norm_warnings (Name g) ++ flat_map (fun c => infer_warnings c.2) (wired_components g).
Proof.
  unfold init. rewrite normalize_split.
  fold (wired_components g). by rewrite infer_pin_names_split.
Qed.

Lemma init_chip_name g : chip_name (init g) = norm_result (Name g).
Proof.
  unfold init. rewrite normalize_split.
  fold (wired_components g). by rewrite infer_pin_names_split.
Qed.

Lemma init_alloc_wf g : alloc_wf (init g).
Proof.
  unfold init. rewrite normalize_split.
  fold (wired_components g). rewrite infer_pin_names_split.
  unfold alloc_wf; simpl. split_and!; [done| | |]; intros *; try rewrite lookup_empty; try done; lia.
Qed.

(** Inference only fills the two name tables. *)
Lemma infer_component_fields comp :
  let comp' := (infer_component [] comp).1 in
  comp_name comp' = comp_name comp ∧ comp_id comp' = comp_id comp ∧
  output_pin_ids comp' = output_pin_ids comp ∧
  input_wires comp' = input_wires comp ∧ output_wires comp' = output_wires comp.
Proof.
  unfold infer_component. rewrite normalize_split.
  destruct (norm_result _) as [nm|]; simpl; [|done].
  destruct (HackChipAPI.get_chip_spec nm) as [spec|]; simpl; [|done].
  by destruct (output_pin_ids comp) eqn:E.
Qed.

Lemma init_components_lookup g j cid comp :
  components (init g) !! j = Some (cid, comp) →
  ∃ comp0, wired_components g !! j = Some (cid, comp0) ∧
           comp = (infer_component [] comp0).1 ∧
           component_ok (cid, comp0) ∧
           input_pin_names comp0 = [] ∧ output_pin_names comp0 = [].
Proof.
  rewrite init_components, list_lookup_fmap.
  destruct (wired_components g !! j) as [[cid0 comp0]|] eqn:Hj; [|done].
  simpl. intros [= <- <-]. exists comp0. split_and!; [done|done| |..].
  - destruct (wired_components_ok g) as [_ Hall].
    eapply Forall_forall in Hall; [done|]. by eapply list_elem_of_lookup_2.
  - pose proof (wired_components_unnamed g) as Hall.
    eapply Forall_forall in Hall; [|by eapply list_elem_of_lookup_2]. apply Hall.
  - pose proof (wired_components_unnamed g) as Hall.
    eapply Forall_forall in Hall; [|by eapply list_elem_of_lookup_2]. apply Hall.
Qed.

Lemma init_components_NoDup g : NoDup (od_keys (components (init g))).
Proof.
  rewrite init_components. unfold od_keys. rewrite <-list_fmap_compose.
  apply (wired_components_ok g).
Qed.

Lemma init_component_ok g j cid comp :
  components (init g) !! j = Some (cid, comp) → component_ok (cid, comp).
Proof.
  intros (comp0 & _ & -> & (Hid & Hin & Hout) & _)%init_components_lookup.
  destruct (infer_component_fields comp0) as (_ & Hi & _ & Hiw & How).
  unfold component_ok; simpl in *. by rewrite Hi, Hiw, How.
Qed.

(** ** Position of the emitted connections *)

Lemma input_connections_lookup comp pins s conns s' idx pid w ws :
  Forall (fun e => e.2 ≠ []) pins →
  input_connections s comp pins = (conns, s') →
  pins !! idx = Some (pid, w :: ws) →
  length conns = length pins ∧
  ∃ si, evolves s si ∧
        conns !! idx =
          Some (default ("in" +:+ pretty pid) (od_get pid (input_pin_names comp)),
                (_get_wire_source_name si w).1) ∧
        evolves (_get_wire_source_name si w).2 s'.
Proof.
  revert s conns s' idx.
  induction pins as [|[pid0 ws0] pins IH]; intros s conns s' idx Hne; [done|].
  apply Forall_cons in Hne as [Hne0 Hne]. simpl in Hne0 |- *.
  destruct ws0 as [|w0 ws0]; [done|].
  destruct (_get_wire_source_name s w0) as [nm s1] eqn:H1.
  destruct (input_connections s1 comp pins) as [cs s2] eqn:H2.
  intros [= <- <-] Hidx. destruct idx as [|idx]; simpl in Hidx.
  - injection Hidx as -> -> ->. split.
    + simpl. f_equal. clear -H2 Hne. revert s1 cs s2 H2.
      induction pins as [|[p [|x l]] pins IH]; intros s1 cs s2; simpl.
      * by intros [= <- _].
      * by apply Forall_cons in Hne as [? _].
      * apply Forall_cons in Hne as [_ Hne].
        destruct (_get_wire_source_name s1 x) as [? s3].
        destruct (input_connections s3 comp pins) as [cs' s4] eqn:H4.
        intros [= <- _]. simpl. f_equal. by eapply IH.
    + exists s. rewrite H1; simpl. split_and!; [apply evolves_refl | done |].
      by eapply input_connections_evolves.
  - destruct (IH _ _ _ _ Hne H2 Hidx) as (Hlen & si & Hev & Hc & Hfin).
    split; [simpl; by rewrite Hlen|].
    exists si. split_and!; [|done|done].
    eapply evolves_trans; [|done]. by eapply get_wire_source_name_evolves.
Qed.

(** The entry of a component that is not skipped and has a connected input. *)
Lemma pass_input_connection g j cid comp nm idx pid w ws :
  components (init g) !! j = Some (cid, comp) →
  norm_result (comp_name comp) = Some nm →
  input_wires comp !! idx = Some (pid, w :: ws) →
  ∃ si conns,
    extends (init g) si ∧ alloc_wf si ∧
    pass_body g !! j = Some (Part nm conns) ∧
    conns !! idx =
      Some (default ("in" +:+ pretty pid) (od_get pid (input_pin_names comp)),
            (_get_wire_source_name si w).1) ∧
    extends (_get_wire_source_name si w).2 (pass_final g).
Proof.
  intros Hj Hnm Hidx.
  destruct (init_component_ok _ _ _ _ Hj) as (_ & [_ Hne] & _); simpl in Hne.
  unfold pass_body, pass_final.
  destruct (component_lines (init g) (components (init g))) as [lines sf] eqn:Hl.
  destruct (component_lines_lookup _ _ _ _ _ _ _ Hl Hj) as (sj & He & Hwf & Hline & Hfin).
  simpl. rewrite Hline. clear Hline.
  revert Hfin. unfold component_line. rewrite normalize_split, Hnm.
  set (s0 := set_warnings sj _).
  assert (H0 : extends sj s0 ∧ (alloc_wf sj → alloc_wf s0)).
  { split; [split; [by repeat split | done] | done]. }
  destruct (input_connections s0 comp _) as [ins s1] eqn:H1.
  destruct (output_connections s1 cid comp _) as [outs s2] eqn:H2.
  destruct (input_connections_lookup _ _ _ _ _ _ _ _ _ Hne H1 Hidx)
    as (Hlen & si & (Hesi & _ & Hwfsi) & Hc & (Hef & _)).
  apply output_connections_evolves in H2 as (He2 & _).
  assert (Hlt : (idx < length ins)%nat).
  { rewrite Hlen. by eapply lookup_lt_Some. }
  destruct ins as [|c ins]; [simpl in Hlt; lia|].
  simpl. intros Hfin. exists si, ((c :: ins) ++ outs).
  split_and!.
  - eapply extends_trans; [done|]. eapply extends_trans; [apply H0|done].
  - apply Hwfsi, H0, Hwf, init_alloc_wf.
  - done.
  - by rewrite lookup_app_l.
  - eapply extends_trans; [done|]. by eapply extends_trans.
Qed.

(** ** The diagnostics and the shape of one pass *)

Lemma lower_pass_warnings g : (lower_pass g).2 = warnings (pass_final g).
Proof.
  unfold lower_pass, convert, pass_final.
  destruct (_generate_hdl_signature (init g)).
  by destruct (component_lines (init g) (components (init g))).
Qed.

Lemma pass_warnings g :
  (lower_pass g).2 =
    warnings (init g) ++
    flat_map (fun c => norm_warnings (comp_name c.2)) (components (init g)).
Proof.
  rewrite lower_pass_warnings. unfold pass_final.
  destruct (component_lines (init g) (components (init g))) as [ls sf] eqn:Hl.
  simpl. by apply component_lines_spec in Hl as (_ & _ & -> & _).
Qed.

Lemma pass_body_length g : length (pass_body g) = length (components (init g)).
Proof.
  unfold pass_body.
  destruct (component_lines (init g) (components (init g))) as [ls sf] eqn:Hl.
  simpl. by apply component_lines_spec in Hl as (_ & _ & _ & ->).
Qed.

(** ** Text lemmas *)

Lemma length_string_app (s t : string) :
  String.length (s +:+ t) = (String.length s + String.length t)%nat.
Proof. induction s; simpl; [done | by f_equal]. Qed.

Lemma string_app_cons_ne (s : string) c t : s ≠ s +:+ String c t.
Proof.
  intros Heq. apply (f_equal String.length) in Heq.
  rewrite length_string_app in Heq. simpl in Heq. lia.
Qed.

(** ** C4: the bit-index rule *)

(** C4 (the code at the failing input).  Two 8-bit input pins are named
    [A]; the one with id 2 is registered first, so the signature declares it
    as [a[8]] and the pin with id 1 as [a1[8]].  Bit 3 of the pin with id 2
    is nevertheless resolved to [a1[3]], and bit 3 of the pin with id 1 to
    [a[3]]: the bit index is the one the rule asks for, but it is put on the
    other pin's name, because the wire resolver ranks the pins of one name
    by sorted id and not in registration order. *)
Theorem bit_index_name_mismatch :
  od_keys (input_pins (init ex_bus_duplicate)) = [2; 1] ∧
  (_generate_hdl_signature (init ex_bus_duplicate)).1 = "a[8], a1[8]" ∧
  bit_indexed (mkPin 2 "A" 8) (mkWire 2 3 10 0) ∧
  (_get_wire_source_name (init ex_bus_duplicate) (mkWire 2 3 10 0)).1 = "a1[3]" ∧
  (_get_wire_source_name (init ex_bus_duplicate) (mkWire 1 3 10 1)).1 = "a[3]" ∧
  pass_body ex_bus_duplicate
    = [Part "And" [("a", "a1[3]"); ("b", "a[3]"); ("out", "out")]].
Proof. split_and!; try reflexivity. unfold bit_indexed. simpl. lia. Qed.

(** Where no other input pin carries the pin's name the rule holds as
    stated: width 8 with pin id 3, and width 1 with any pin id. *)
Example bit_index_bus :
  (_get_wire_source_name (init ex_bus) (mkWire 1 3 10 0)).1 = "a[3]".
Proof. reflexivity. Qed.

Lemma bit_index_single_bit self wire pin :
  od_get (source_owner_id wire) (input_pins self) = Some pin →
  pin_BitCount pin = 1 →
  (_get_wire_source_name self wire).1 = input_pin_reference self pin.
Proof.
  intros Hpin Hone. unfold _get_wire_source_name. by rewrite Hpin, Hone.
Qed.

(** The resolved reference is what the emitted statement shows. *)
Lemma input_reference_emitted g j cid comp nm idx pid w ws pin :
  components (init g) !! j = Some (cid, comp) →
  norm_result (comp_name comp) = Some nm →
  input_wires comp !! idx = Some (pid, w :: ws) →
  od_get (source_owner_id w) (input_pins (init g)) = Some pin →
  ∃ param, emitted (pass_body g) j idx =
    Some (param, (_get_wire_source_name (init g) w).1).
Proof.
  intros Hj Hnm Hidx Hpin.
  destruct (pass_input_connection _ _ _ _ _ _ _ _ _ Hj Hnm Hidx)
    as (si & conns & [(_ & _ & Hip & _) _] & _ & Hb & Hc & _).
  eexists. unfold emitted. rewrite Hb, Hc. do 2 f_equal.
  unfold _get_wire_source_name, input_pin_reference. rewrite Hip, Hpin.
  by destruct (_ && _).
Qed.

(** ** C8: unresolved wire owners *)

Lemma unknown_source self w :
  od_get (source_owner_id w) (input_pins self) = None →
  od_get (source_owner_id w) (components self) = None →
  _get_wire_source_name self w = ("unknown", self).
Proof.
  intros Hi Hc. unfold _get_wire_source_name, od_mem. by rewrite Hi, Hc.
Qed.

(** C8 (as the code has it).  A wire whose source owner is neither a
    top-level input pin nor a component (in particular: registered in none
    of the three registries) resolves to the marker [unknown]; the consuming
    statement is still emitted with that marker, the pass continues with one
    entry per component, and the diagnostics of the pass are exactly those
    of construction followed by those of the normaliser: nothing is
    recorded for the wire. *)
Theorem unresolved_owner_marker g j cid comp nm idx pid w ws :
  components (init g) !! j = Some (cid, comp) →
  norm_result (comp_name comp) = Some nm →
  input_wires comp !! idx = Some (pid, w :: ws) →
  od_get (source_owner_id w) (input_pins (init g)) = None →
  od_get (source_owner_id w) (components (init g)) = None →
  (∀ self, same_env (init g) self →
     _get_wire_source_name self w = ("unknown", self)) ∧
  (∃ param, emitted (pass_body g) j idx = Some (param, "unknown")) ∧
  length (pass_body g) = length (components (init g)) ∧
  (lower_pass g).2 =
    warnings (init g) ++
    flat_map (fun c => norm_warnings (comp_name c.2)) (components (init g)).
Proof.
  intros Hj Hnm Hidx Hi Hc.
  assert (Hres : ∀ self, same_env (init g) self →
     _get_wire_source_name self w = ("unknown", self)).
  { intros self (_ & _ & Hip & _ & Hcp & _). apply unknown_source; congruence. }
  split_and!; [done| |apply pass_body_length|apply pass_warnings].
  destruct (pass_input_connection _ _ _ _ _ _ _ _ _ Hj Hnm Hidx)
    as (si & conns & [Henv _] & _ & Hb & Hcn & _).
  eexists. unfold emitted. by rewrite Hb, Hcn, (Hres si Henv).
Qed.

Lemma unresolved_owner_marker_witness :
  emitted (pass_body ex_unknown_owner) 0 0 = Some ("in", "unknown") ∧
  (lower_pass ex_unknown_owner).2 = [].
Proof.
  destruct (unresolved_owner_marker ex_unknown_owner 0
    10 (Build_Component "NOT" 10 [] [(0, [mkWire 99 0 10 0])]
          [(0, [mkWire 10 0 5 0])] [(0, "in")] [(0, "out")])
    "Not" 0 0 (mkWire 99 0 10 0) [])
    as (_ & _ & _ & Hw); [reflexivity..|].
  split; [reflexivity | rewrite Hw; reflexivity].
Defined.

(** C8, as stated, fails: the marker is emitted but no diagnostic is
    recorded. *)
Lemma unresolved_owner_no_diagnostic :
  pass_body ex_unknown_owner = [Part "Not" [("in", "unknown"); ("out", "out")]] ∧
  (lower_pass ex_unknown_owner).2 = [].
Proof. split; reflexivity. Qed.

(** ** C7: instances without connections *)

Lemma output_connections_unconnected s cid comp pids :
  (∀ p, p ∈ pids → od_get p (output_wires comp) = None) →
  output_connections s cid comp pids = ([], s).
Proof.
  induction pids as [|p pids IH]; intros Hall; simpl; [done|].
  rewrite (Hall p) by (apply elem_of_cons; by left).
  apply IH. intros q Hq. apply Hall, elem_of_cons. by right.
Qed.

Lemma component_line_no_connections s cid comp nm :
  norm_result (comp_name comp) = Some nm →
  input_wires comp = [] →
  (∀ p, p ∈ output_pin_ids_ordered comp → od_get p (output_wires comp) = None) →
  component_line s cid comp =
    (NoConnections nm,
     set_warnings s (warnings s ++ norm_warnings (comp_name comp))).
Proof.
  intros Hnm Hin Hout. unfold component_line.
  rewrite normalize_split, Hnm, Hin. simpl.
  by rewrite output_connections_unconnected.
Qed.

(** C7 (as the code has it).  A component that is not skipped and has no
    connection to emit (no connected input pin, and no connected pin among
    its ordered output pins) produces the entry [NoConnections], printed as
    the comment line [// WARNING: <type> has no connections]: visible in the
    module text, one entry per component, but not an instantiation
    statement; the diagnostics of the pass are those of construction and of
    the normaliser only. *)
Theorem empty_connections_stub g j cid comp nm :
  components (init g) !! j = Some (cid, comp) →
  norm_result (comp_name comp) = Some nm →
  input_wires comp = [] →
  (∀ p, p ∈ output_pin_ids_ordered comp → od_get p (output_wires comp) = None) →
  pass_body g !! j = Some (NoConnections nm) ∧
  line_text (NoConnections nm) = "    // WARNING: " +:+ nm +:+ " has no connections" ∧
  length (pass_body g) = length (components (init g)) ∧
  (lower_pass g).2 =
    warnings (init g) ++
    flat_map (fun c => norm_warnings (comp_name c.2)) (components (init g)).
Proof.
  intros Hj Hnm Hin Hout.
  split_and!; [|done|apply pass_body_length|apply pass_warnings].
  unfold pass_body.
  destruct (component_lines (init g) (components (init g))) as [lines sf] eqn:Hl.
  destruct (component_lines_lookup _ _ _ _ _ _ _ Hl Hj) as (sj & _ & _ & Hline & _).
  simpl. rewrite Hline. by erewrite component_line_no_connections.
Qed.

Lemma empty_connections_stub_witness :
  pass_body ex_no_connections !! 0%nat = Some (NoConnections "Not") ∧
  (lower_pass ex_no_connections).2 = [].
Proof.
  destruct (empty_connections_stub ex_no_connections 0 10
    (Build_Component "NOT" 10 [] [] [] [] []) "Not")
    as (Hb & _ & _ & Hw).
  - reflexivity.
  - reflexivity.
  - reflexivity.
  - intros p Hp. simpl in Hp. by apply elem_of_nil in Hp.
  - split; [exact Hb | rewrite Hw; reflexivity].
Defined.

(** C7, as stated, fails: the entry is a comment, not a statement with zero
    parameters, and no diagnostic is recorded. *)
Lemma empty_connections_comment_only :
  line_text <$> pass_body ex_no_connections
    = ["    // WARNING: Not has no connections"] ∧
  line_text <$> pass_body ex_no_connections ≠ ["    Not();"] ∧
  (lower_pass ex_no_connections).2 = [].
Proof. split_and!; [reflexivity | discriminate | reflexivity]. Qed.

(** ** The warnings of construction *)

Lemma infer_warnings_eq comp :
  infer_warnings comp = norm_warnings (comp_name comp) ++ arity_warnings comp.
Proof.
  unfold infer_warnings, arity_warnings, infer_component.
  rewrite normalize_split.
  destruct (norm_result _) as [nm|]; simpl; [|by rewrite app_nil_r].
  destruct (HackChipAPI.get_chip_spec nm) as [spec|]; simpl; [|by rewrite app_nil_r].
  unfold od_keys. rewrite !length_fmap.
  destruct (output_pin_ids comp); simpl;
    repeat case_match; simpl; by rewrite <-?app_assoc, ?app_nil_r.
Qed.

Lemma arity_warnings_infer comp :
  arity_warnings (infer_component [] comp).1 = arity_warnings comp.
Proof.
  destruct (infer_component_fields comp) as (Hn & Hi & Ho & Hiw & How).
  unfold arity_warnings. simpl in *. by rewrite Hn, Hi, Ho, Hiw, How.
Qed.

Lemma init_warnings_eq g :
  warnings (init g) =
    norm_warnings (Name g) ++
    flat_map (fun c => norm_warnings (comp_name c.2) ++ arity_warnings c.2)
      (components (init g)).
Proof.
  rewrite init_warnings, init_components. f_equal.
  induction (wired_components g) as [|[cid c] l IH]; simpl; [done|].
  rewrite IH, infer_warnings_eq, arity_warnings_infer.
  by destruct (infer_component_fields c) as (-> & _).
Qed.

Lemma arity_warnings_not_removed comp :
  filter is_ChipRemoved (arity_warnings comp) = [].
Proof.
  unfold arity_warnings. repeat case_match; done.
Qed.

(** ** C5: removed chip types *)

Lemma count_removed_norm (l : list (Z * Component)) :
  length (filter is_ChipRemoved
            (flat_map (fun c => norm_warnings (comp_name c.2)) l))
  = length (filter is_removed l).
Proof.
  induction l as [|c l IH]; simpl; [done|].
  rewrite filter_app, length_app, IH, norm_warnings_removed, filter_cons.
  destruct (decide (is_removed c)) as [H|H]; unfold is_removed in H;
    destruct (norm_result _); simpl in *; try done.
Qed.

Lemma count_removed_infer (l : list (Z * Component)) :
  length (filter is_ChipRemoved
            (flat_map (fun c => norm_warnings (comp_name c.2) ++ arity_warnings c.2) l))
  = length (filter is_removed l).
Proof.
  induction l as [|c l IH]; simpl; [done|].
  rewrite !filter_app, !length_app, IH, norm_warnings_removed,
    arity_warnings_not_removed, filter_cons.
  destruct (decide (is_removed c)) as [H|H]; unfold is_removed in H;
    destruct (norm_result _); simpl in *; try done.
Qed.

(** C5 (as the code has it).  A component whose type normalises to the
    removed marker gets the entry [Skipped] (a comment, no instantiation
    statement), and every call of the normaliser on it appends one
    [ChipRemoved] warning: one while pin names are inferred during
    construction and one more while the statements are emitted.  Over the
    whole pass the number of [ChipRemoved] warnings is twice the number of
    such components, plus one when the module's own name is removed. *)
Theorem unsupported_type_skip g j cid comp :
  components (init g) !! j = Some (cid, comp) →
  norm_result (comp_name comp) = None →
  pass_body g !! j = Some (Skipped (comp_name comp)) ∧
  norm_warnings (comp_name comp) = [ChipRemoved (clean_chip_name (comp_name comp))] ∧
  arity_warnings comp = [] ∧
  (lower_pass g).2 =
    (norm_warnings (Name g) ++
     flat_map (fun c => norm_warnings (comp_name c.2) ++ arity_warnings c.2)
       (components (init g))) ++
    flat_map (fun c => norm_warnings (comp_name c.2)) (components (init g)) ∧
  length (filter is_ChipRemoved (lower_pass g).2) =
    ((match chip_name (init g) with None => 1 | Some _ => 0 end) +
     2 * length (filter is_removed (components (init g))))%nat.
Proof.
  intros Hj Hnm. split_and!.
  - unfold pass_body.
    destruct (component_lines (init g) (components (init g))) as [lines sf] eqn:Hl.
    destruct (component_lines_lookup _ _ _ _ _ _ _ Hl Hj) as (sj & _ & _ & Hline & _).
    simpl. rewrite Hline. unfold component_line. by rewrite normalize_split, Hnm.
  - revert Hnm. unfold norm_result, norm_warnings, _normalize_chip_name.
    destruct (default _ _); simpl; [|done].
    by destruct (HackChipAPI.is_valid_chip _).
  - unfold arity_warnings. by rewrite Hnm.
  - by rewrite pass_warnings, init_warnings_eq.
  - rewrite pass_warnings, init_warnings_eq, !filter_app, !length_app.
    rewrite count_removed_norm, count_removed_infer, norm_warnings_removed.
    rewrite init_chip_name. destruct (norm_result (Name g)); lia.
Qed.

Lemma unsupported_type_skip_witness :
  pass_body ex_removed !! 0%nat = Some (Skipped "Splitter8") ∧
  length (filter is_ChipRemoved (lower_pass ex_removed).2) = 2%nat.
Proof.
  destruct (unsupported_type_skip ex_removed 0 10
    (Build_Component "Splitter8" 10 [] [(0, [mkWire 1 0 10 0])] [] [] []))
    as (Hb & _ & _ & _ & Hc); [reflexivity..|].
  split; [exact Hb | rewrite Hc; reflexivity].
Defined.

(** C5, as stated, fails: a single removed instance leaves two
    [ChipRemoved] warnings after one pass. *)
Lemma unsupported_type_two_diagnostics :
  pass_body ex_removed = [Skipped "Splitter8"; Part "Not" [("in", "in"); ("out", "out")]] ∧
  (lower_pass ex_removed).2 = [ChipRemoved "Splitter8"; ChipRemoved "Splitter8"] ∧
  length (filter is_ChipRemoved (lower_pass ex_removed).2) ≠ 1%nat.
Proof. split_and!; [reflexivity | reflexivity | discriminate]. Qed.

(** ** Names given by [assign_names] *)

Lemma assign_names_notin prefix expected idx pins names (pid : Z) :
  pid ∉ pins →
  od_get pid (assign_names prefix expected idx pins names) = od_get pid names.
Proof.
  revert idx names. induction pins as [|p pins IH]; intros idx names Hnot; simpl; [done|].
  apply not_elem_of_cons in Hnot as [Hne Hnot].
  rewrite IH by done. by apply od_get_set_ne.
Qed.

Lemma assign_names_get prefix expected idx pins names k (pid : Z) :
  NoDup pins → pins !! k = Some pid →
  od_get pid (assign_names prefix expected idx pins names)
  = Some (assigned_name prefix expected (idx + k)).
Proof.
  revert idx names k. induction pins as [|p pins IH]; intros idx names k Hnd Hk; [done|].
  apply NoDup_cons in Hnd as [Hnot Hnd]. simpl. destruct k as [|k]; simpl in Hk.
  - injection Hk as ->. rewrite assign_names_notin by done.
    rewrite od_get_set_eq. unfold assigned_name. by rewrite Nat.add_0_r.
  - rewrite (IH _ _ k) by done. do 2 f_equal. lia.
Qed.

Lemma infer_input_names comp nm spec :
  norm_result (comp_name comp) = Some nm →
  HackChipAPI.get_chip_spec nm = Some spec →
  input_pin_names (infer_component [] comp).1
  = assign_names "in" (inputs spec) 0 (od_keys (input_wires comp))
      (input_pin_names comp).
Proof.
  intros Hnm Hspec. unfold infer_component.
  rewrite normalize_split, Hnm. simpl. rewrite Hspec.
  by destruct (output_pin_ids comp).
Qed.

Lemma infer_output_names comp nm spec :
  norm_result (comp_name comp) = Some nm →
  HackChipAPI.get_chip_spec nm = Some spec →
  output_pin_names (infer_component [] comp).1
  = assign_names "out" (outputs spec) 0 (output_pin_ids_ordered comp)
      (output_pin_names comp).
Proof.
  intros Hnm Hspec. unfold infer_component, output_pin_ids_ordered.
  rewrite normalize_split, Hnm. simpl. rewrite Hspec.
  by destruct (output_pin_ids comp) eqn:E.
Qed.

(** ** C6: arity overflow *)

Lemma filter_flat_map_unique {A B} (P : B → Prop) `{∀ x, Decision (P x)}
    (f : A → list B) (l : list A) j a (xs : list B) :
  l !! j = Some a → filter P (f a) = xs →
  (∀ i b, l !! i = Some b → i ≠ j → filter P (f b) = []) →
  filter P (flat_map f l) = xs.
Proof.
  revert j. induction l as [|b l IH]; intros j Hj Ha Hothers; [done|].
  simpl. rewrite filter_app. destruct j as [|j]; simpl in Hj.
  - injection Hj as ->. rewrite Ha.
    assert (Hrest : filter P (flat_map f l) = []); [|by rewrite Hrest, app_nil_r].
    clear -Hothers. induction l as [|c l IH]; simpl; [done|].
    rewrite filter_app, (Hothers 1%nat c) by done. simpl.
    apply IH. intros [|i] b' Hi Hne; [done|].
    destruct i as [|i]; simpl in Hi.
    + by apply (Hothers 2%nat b').
    + by apply (Hothers (S (S (S i))) b').
  - rewrite (Hothers 0%nat b) by done. simpl.
    apply (IH j); [done|done|].
    intros i b' Hi Hne. apply (Hothers (S i) b'); [done | lia].
Qed.

Lemma NoDup_keys_lookup_ne {V} (l : list (Z * V)) i j ki vi kj vj :
  NoDup (od_keys l) → l !! i = Some (ki, vi) → l !! j = Some (kj, vj) →
  i ≠ j → ki ≠ kj.
Proof.
  unfold od_keys. intros Hnd Hi Hj Hne ->. apply Hne.
  eapply (NoDup_lookup _ i j kj Hnd); rewrite list_lookup_fmap.
  - by rewrite Hi.
  - by rewrite Hj.
Qed.

Lemma norm_warnings_no_arity name cid :
  filter (is_Arity_of cid) (norm_warnings name) = [].
Proof.
  unfold norm_warnings, _normalize_chip_name.
  destruct (default _ _); simpl; [|done].
  by destruct (HackChipAPI.is_valid_chip _).
Qed.

Lemma arity_warnings_foreign cid comp :
  comp_id comp ≠ cid →
  filter (is_Arity_of cid) (arity_warnings comp) = [] ∧
  filter (is_InputArity_of cid) (arity_warnings comp) = [].
Proof.
  intros Hne. unfold arity_warnings.
  repeat case_match; simpl; try done;
    rewrite ?filter_cons; simpl; rewrite ?bool_decide_false by done; simpl;
    rewrite ?filter_cons; simpl; rewrite ?bool_decide_false by done; done.
Qed.

Lemma arity_warnings_overflow comp nm spec :
  norm_result (comp_name comp) = Some nm →
  HackChipAPI.get_chip_spec nm = Some spec →
  (length (inputs spec) < length (input_wires comp))%nat →
  arity_warnings comp =
    InputArity (comp_name comp) (comp_id comp) (length (input_wires comp))
      (length (inputs spec)) :: output_arity_warnings spec comp.
Proof.
  intros Hnm Hspec Hlt%Nat.ltb_lt. unfold arity_warnings.
  by rewrite Hnm, Hspec, Hlt.
Qed.

(** The arity warnings that carry the id of a registered component are
    those of that component. *)
Lemma arity_warnings_of_component g j cid comp (P : Z → Warning → bool) :
  (∀ c, comp_id c ≠ cid → filter (P cid) (arity_warnings c) = []) →
  (∀ name, filter (P cid) (norm_warnings name) = []) →
  components (init g) !! j = Some (cid, comp) →
  filter (P cid) (warnings (init g)) = filter (P cid) (arity_warnings comp) ∧
  filter (P cid) (lower_pass g).2 = filter (P cid) (arity_warnings comp).
Proof.
  intros Hforeign Hnorm Hj.
  assert (Hflat : ∀ l : list (Z * Component),
    filter (P cid) (flat_map (fun c => norm_warnings (comp_name c.2)) l) = []).
  { induction l as [|c l IH]; simpl; [done|]. by rewrite filter_app, Hnorm, IH. }
  assert (Hinit : filter (P cid) (warnings (init g))
                  = filter (P cid) (arity_warnings comp)).
  { rewrite init_warnings_eq, filter_app, Hnorm. simpl.
    apply (filter_flat_map_unique _ _ _ j (cid, comp)); [done| |].
    - simpl. by rewrite filter_app, Hnorm.
    - intros i [cid' comp'] Hi Hne. simpl. rewrite filter_app, Hnorm. simpl.
      apply Hforeign.
      destruct (init_component_ok _ _ _ _ Hi) as (Hid' & _); simpl in Hid'.
      rewrite Hid'.
      eapply NoDup_keys_lookup_ne; [apply (init_components_NoDup g)|done|done|done]. }
  split; [done|]. by rewrite pass_warnings, filter_app, Hinit, Hflat, app_nil_r.
Qed.

(** C6 (as the code has it).  For a component of a catalog type with more
    connected input pins than the catalog declares: every pin at first-seen
    position [idx] beyond the declared inputs is named [in<idx>] and emitted
    under that name in the component's statement; exactly one input-arity
    warning carries the component's id, after construction and after the
    whole pass; the only other arity warning with that id is the
    output-side one, present when the component declares no output order
    and has more connected output pins than the catalog declares; and the
    pass still yields one entry per component. *)
Theorem arity_overflow_fallback g j cid comp nm spec :
  components (init g) !! j = Some (cid, comp) →
  norm_result (comp_name comp) = Some nm →
  HackChipAPI.get_chip_spec nm = Some spec →
  (length (inputs spec) < length (input_wires comp))%nat →
  (∀ idx pid ws,
     input_wires comp !! idx = Some (pid, ws) →
     (length (inputs spec) ≤ idx)%nat →
     od_get pid (input_pin_names comp) = Some ("in" +:+ pretty idx) ∧
     ∃ expr, emitted (pass_body g) j idx = Some ("in" +:+ pretty idx, expr)) ∧
  filter (is_InputArity_of cid) (warnings (init g))
    = [InputArity (comp_name comp) cid (length (input_wires comp))
         (length (inputs spec))] ∧
  filter (is_InputArity_of cid) (lower_pass g).2
    = [InputArity (comp_name comp) cid (length (input_wires comp))
         (length (inputs spec))] ∧
  filter (is_Arity_of cid) (lower_pass g).2
    = InputArity (comp_name comp) cid (length (input_wires comp))
        (length (inputs spec)) :: output_arity_warnings spec comp ∧
  length (pass_body g) = length (components (init g)).
Proof.
  intros Hj Hnm Hspec Hlt.
  destruct (init_component_ok _ _ _ _ Hj) as (Hid & [_ Hne] & _);
    simpl in Hid, Hne.
  pose proof (arity_warnings_overflow _ _ _ Hnm Hspec Hlt) as Har.
  rewrite Hid in Har.
  destruct (arity_warnings_of_component g j cid comp is_InputArity_of)
    as [Hi1 Hi2]; [intros; by apply arity_warnings_foreign
                  |intros; apply norm_warnings_not_arity|done|].
  destruct (arity_warnings_of_component g j cid comp is_Arity_of)
    as [_ Ha2]; [intros; by apply arity_warnings_foreign
                |intros; apply norm_warnings_no_arity|done|].
  assert (Hin : filter (is_InputArity_of cid) (arity_warnings comp)
    = [InputArity (comp_name comp) cid (length (input_wires comp))
         (length (inputs spec))]).
  { rewrite Har, filter_cons. simpl. rewrite bool_decide_true by done. simpl.
    f_equal. unfold output_arity_warnings. repeat case_match; done. }
  assert (Hall : filter (is_Arity_of cid) (arity_warnings comp)
    = InputArity (comp_name comp) cid (length (input_wires comp))
        (length (inputs spec)) :: output_arity_warnings spec comp).
  { rewrite Har, filter_cons. simpl. rewrite bool_decide_true by done. simpl.
    f_equal. unfold output_arity_warnings. rewrite Hid.
    repeat case_match; try done.
    rewrite filter_cons. simpl. by rewrite bool_decide_true. }
  split_and!; [|congruence|congruence|congruence|apply pass_body_length].
  intros idx pid ws Hidx Hge.
  assert (Hname : od_get pid (input_pin_names comp) = Some ("in" +:+ pretty idx)).
  { destruct (init_components_lookup _ _ _ _ Hj)
      as (comp0 & _ & -> & (_ & [Hnd _] & _) & Hnone & _).
    destruct (infer_component_fields comp0) as (Hn & _ & _ & Hiw & _).
    simpl in *. rewrite Hn in Hnm. rewrite Hiw in Hidx.
    rewrite (infer_input_names _ _ _ Hnm Hspec).
    rewrite (assign_names_get _ _ _ _ _ idx) ; [|done|].
    - unfold assigned_name. simpl.
      by rewrite (lookup_ge_None_2 (inputs spec) idx).
    - unfold od_keys. by rewrite list_lookup_fmap, Hidx. }
  split; [done|].
  destruct ws as [|w ws].
  { eapply Forall_forall in Hne; [|by eapply list_elem_of_lookup_2]. done. }
  destruct (pass_input_connection _ _ _ _ _ _ _ _ _ Hj Hnm Hidx)
    as (si & conns & _ & _ & Hb & Hc & _).
  eexists. unfold emitted. by rewrite Hb, Hc, Hname.
Qed.

Lemma arity_overflow_fallback_witness :
  emitted (pass_body ex_overflow) 0 2 = Some ("in2", "c") ∧
  filter (is_InputArity_of 10) (lower_pass ex_overflow).2
    = [InputArity "AND" 10 3 2].
Proof.
  destruct (arity_overflow_fallback ex_overflow 0 10
    (Build_Component "AND" 10 []
       [(0, [mkWire 1 0 10 0]); (1, [mkWire 2 0 10 1]); (2, [mkWire 3 0 10 2])]
       [(0, [mkWire 10 0 5 0])]
       [(0, "a"); (1, "b"); (2, "in2")] [(0, "out")])
    "And" {| inputs := ["a"; "b"]; outputs := ["out"] |})
    as (_ & _ & Hw & _); [reflexivity|reflexivity|reflexivity|simpl; lia|].
  split; [reflexivity | exact Hw].
Defined.

(** The instance named by the specification: a 2-input type fed on three
    input pins. *)
Example arity_overflow_and :
  pass_body ex_overflow
    = [Part "And" [("a", "a"); ("b", "b"); ("in2", "c"); ("out", "out")]] ∧
  (lower_pass ex_overflow).2 = [InputArity "AND" 10 3 2] ∧
  warning_text (InputArity "AND" 10 3 2)
    = "WARNING: AND (ID 10): Tem 3 inputs, mas API espera 2".
Proof. split_and!; reflexivity. Qed.

(** C6, as stated, fails: an instance whose outputs overflow as well
    carries two arity warnings. *)
Lemma arity_overflow_both_sides :
  pass_body ex_overflow_both
    = [Part "Not" [("in", "a"); ("in1", "b"); ("out", "out"); ("out1", "w1")]] ∧
  (lower_pass ex_overflow_both).2
    = [InputArity "NOT" 10 2 1; OutputArity "NOT" 10 2 1] ∧
  length (filter (is_Arity_of 10) (lower_pass ex_overflow_both).2) ≠ 1%nat.
Proof. split_and!; [reflexivity | reflexivity | discriminate]. Qed.

(** ** The searches of [convert] always succeed *)

Lemma index_of_lt `{EqDecision A} (x : A) (l : list A) :
  x ∈ l → (index_of x l < length l)%nat ∧ l !! index_of x l = Some x.
Proof.
  induction l as [|y l IH]; [by intros ?%elem_of_nil|].
  intros [->|Hin]%elem_of_cons; simpl.
  - rewrite decide_True by done. split; [lia | done].
  - destruct (decide (y = x)) as [->|]; [split; [lia | done]|].
    destruct (IH Hin). split; [lia | done].
Qed.

Lemma insert_sorted_elem x y l : y ∈ insert_sorted x l ↔ y = x ∨ y ∈ l.
Proof.
  induction l as [|z l IH]; simpl.
  - rewrite list_elem_of_singleton. split; [by left | intros [?|?%elem_of_nil]; done].
  - destruct (x <=? z); rewrite !elem_of_cons; [done|]. rewrite IH. tauto.
Qed.

Lemma sorted_elem y l : y ∈ sorted l ↔ y ∈ l.
Proof.
  unfold sorted. induction l as [|x l IH]; simpl; [done|].
  rewrite insert_sorted_elem, elem_of_cons, IH. tauto.
Qed.

(** The [pin_ids.index(pin["ID"])] of [_get_wire_source_name] finds the pin. *)
Lemma input_pin_index_found self k pin :
  od_get k (input_pins self) = Some pin →
  let same := filter (fun p => pin_Name p = pin_Name pin) (od_values (input_pins self)) in
  (index_of (pin_ID pin) (sorted (pin_ID <$> same)) < length (sorted (pin_ID <$> same)))%nat.
Proof.
  intros Hg same. apply index_of_lt, sorted_elem, list_elem_of_fmap.
  exists pin. split; [done|]. apply list_elem_of_filter. split; [done|].
  apply od_get_Some_elem in Hg. unfold od_values.
  apply list_elem_of_fmap. by exists (k, pin).
Qed.

Lemma first_output_pin_registered self ws op :
  first_output_pin self ws = Some op → op ∈ od_values (output_pins self).
Proof.
  induction ws as [|w ws IH]; simpl; [done|].
  destruct (od_get _ (output_pins self)) as [pin|] eqn:Hg; [|done].
  intros [= ->]. apply od_get_Some_elem in Hg. unfold od_values.
  apply list_elem_of_fmap. by exists (target_owner_id w, op).
Qed.

(** The [output_pins_list.index(output_pin)] of [convert] finds the pin. *)
Lemma output_pin_index_found self ws op :
  first_output_pin self ws = Some op →
  (index_of op (od_values (output_pins self)) < length (od_values (output_pins self)))%nat.
Proof. intros ?%first_output_pin_registered. by apply index_of_lt. Qed.

Lemma connects_to_output_first self ws :
  existsb (fun w => od_mem (target_owner_id w) (output_pins self)) ws
  = match first_output_pin self ws with Some _ => true | None => false end.
Proof.
  induction ws as [|w ws IH]; simpl; [done|]. unfold od_mem at 1.
  by destruct (od_get _ (output_pins self)).
Qed.

(** ** Position of the emitted output connections *)

Lemma input_connections_length comp pins s conns s' :
  Forall (fun e => e.2 ≠ []) pins →
  input_connections s comp pins = (conns, s') →
  length conns = length pins.
Proof.
  revert s conns s'. induction pins as [|[p [|x l]] pins IH]; intros s cs s' Hne; simpl.
  - by intros [= <- _].
  - by apply Forall_cons in Hne as [? _].
  - apply Forall_cons in Hne as [_ Hne].
    destruct (_get_wire_source_name s x) as [? s3].
    destruct (input_connections s3 comp pins) as [cs' s4] eqn:H4.
    intros [= <- _]. simpl. f_equal. by eapply IH.
Qed.

(** The parameter names of the two halves of a statement. *)
Lemma input_connections_params comp pins s :
  Forall (fun e => e.2 ≠ []) pins →
  (input_connections s comp pins).1.*1 =
    (fun e => default ("in" +:+ pretty e.1) (od_get e.1 (input_pin_names comp)))
      <$> pins.
Proof.
  revert s. induction pins as [|[p [|x l]] pins IH]; intros s Hne; [done| |].
  - by apply Forall_cons in Hne as [? _].
  - apply Forall_cons in Hne as [_ Hne]. simpl.
    destruct (_get_wire_source_name s x) as [nm s1].
    specialize (IH s1 Hne).
    destruct (input_connections s1 comp pins) as [cs s2]. csimpl in *.
    by rewrite IH.
Qed.

Lemma output_connections_params cid comp pids s :
  (output_connections s cid comp pids).1.*1 =
    (fun q => default ("out" +:+ pretty q) (od_get q (output_pin_names comp)))
      <$> filter (fun q => od_mem q (output_wires comp)) pids.
Proof.
  revert s. induction pids as [|q pids IH]; intros s; [done|]. simpl.
  destruct (od_get q (output_wires comp)) as [ws|] eqn:Hq.
  - rewrite filter_cons_True by (unfold od_mem; by rewrite Hq).
    destruct (output_wire_name s cid q ws) as [nm s1].
    specialize (IH s1).
    destruct (output_connections s1 cid comp pids) as [cs s2]. csimpl in *.
    by rewrite IH.
  - rewrite filter_cons_False by (unfold od_mem; rewrite Hq; simpl; tauto).
    apply IH.
Qed.

(** The statement of a component that is not skipped: its input parameters
    followed by its output parameters. *)
Lemma component_line_params s cid comp nm :
  Forall (fun e => e.2 ≠ []) (input_wires comp) →
  norm_result (comp_name comp) = Some nm →
  ∃ ins outs,
    ins.*1 = input_params comp ∧ outs.*1 = output_params comp ∧
    (component_line s cid comp).1 =
      match ins ++ outs with
      | [] => NoConnections nm
      | _ :: _ => Part nm (ins ++ outs)
      end.
Proof.
  intros Hne Hnm. unfold component_line. rewrite normalize_split, Hnm.
  set (s0 := set_warnings s _).
  pose proof (input_connections_params comp (input_wires comp) s0 Hne) as Hi.
  destruct (input_connections s0 comp _) as [ins s1].
  pose proof (output_connections_params cid comp (output_pin_ids_ordered comp) s1) as Ho.
  destruct (output_connections s1 cid comp _) as [outs s2].
  exists ins, outs. split_and!; [done|done|]. by destruct (ins ++ outs).
Qed.

Lemma pass_statement_params g j cid comp nm :
  components (init g) !! j = Some (cid, comp) →
  norm_result (comp_name comp) = Some nm →
  ∃ ins outs,
    ins.*1 = input_params comp ∧ outs.*1 = output_params comp ∧
    pass_body g !! j =
      Some (match ins ++ outs with
            | [] => NoConnections nm
            | _ :: _ => Part nm (ins ++ outs)
            end).
Proof.
  intros Hj Hnm.
  destruct (init_component_ok _ _ _ _ Hj) as (_ & [_ Hne] & _); simpl in Hne.
  unfold pass_body.
  destruct (component_lines (init g) (components (init g))) as [lines sf] eqn:Hl.
  destruct (component_lines_lookup _ _ _ _ _ _ _ Hl Hj) as (sj & _ & _ & Hline & _).
  destruct (component_line_params sj cid comp nm Hne Hnm) as (ins & outs & Hi & Ho & Hc).
  exists ins, outs. simpl. by rewrite Hline, Hc.
Qed.

Lemma output_connections_lookup cid comp pids s conns s' k p ws :
  output_connections s cid comp pids = (conns, s') →
  pids !! k = Some p →
  od_get p (output_wires comp) = Some ws →
  ∃ si, evolves s si ∧
        conns !! connected_before comp pids k =
          Some (default ("out" +:+ pretty p) (od_get p (output_pin_names comp)),
                (output_wire_name si cid p ws).1) ∧
        evolves (output_wire_name si cid p ws).2 s'.
Proof.
  revert s conns s' k.
  induction pids as [|q pids IH]; intros s conns s' k; [done|].
  unfold connected_before. simpl.
  destruct k as [|k]; simpl.
  - intros Hc [= ->] Hws. rewrite Hws in Hc.
    destruct (output_wire_name s cid p ws) as [nm s1] eqn:H1.
    destruct (output_connections s1 cid comp pids) as [cs s2] eqn:H2.
    injection Hc as <- <-. exists s. rewrite H1. simpl.
    split_and!; [apply evolves_refl | done |].
    by eapply output_connections_evolves.
  - intros Hc Hk Hws.
    destruct (od_get q (output_wires comp)) as [wsq|] eqn:Hq.
    + rewrite filter_cons_True by (unfold od_mem; by rewrite Hq).
      destruct (output_wire_name s cid q wsq) as [nm s1] eqn:H1.
      destruct (output_connections s1 cid comp pids) as [cs s2] eqn:H2.
      injection Hc as <- <-.
      destruct (IH _ _ _ _ H2 Hk Hws) as (si & Hev & Hl & Hfin).
      exists si. simpl. split_and!; [|done|done].
      eapply evolves_trans; [|done]. by eapply output_wire_name_evolves.
    + rewrite filter_cons_False by (unfold od_mem; rewrite Hq; simpl; tauto).
      by apply (IH _ _ _ _ Hc Hk Hws).
Qed.

(** The entry of a component that is not skipped and has a connected pin
    among its ordered output pins. *)
Lemma pass_output_connection g j cid comp nm k p ws :
  components (init g) !! j = Some (cid, comp) →
  norm_result (comp_name comp) = Some nm →
  output_pin_ids_ordered comp !! k = Some p →
  od_get p (output_wires comp) = Some ws →
  ∃ si conns,
    extends (init g) si ∧ alloc_wf si ∧
    pass_body g !! j = Some (Part nm conns) ∧
    conns !! (length (input_wires comp)
              + connected_before comp (output_pin_ids_ordered comp) k)%nat =
      Some (default ("out" +:+ pretty p) (od_get p (output_pin_names comp)),
            (output_wire_name si cid p ws).1) ∧
    extends (output_wire_name si cid p ws).2 (pass_final g).
Proof.
  intros Hj Hnm Hk Hws.
  destruct (init_component_ok _ _ _ _ Hj) as (_ & [_ Hne] & _); simpl in Hne.
  unfold pass_body, pass_final.
  destruct (component_lines (init g) (components (init g))) as [lines sf] eqn:Hl.
  destruct (component_lines_lookup _ _ _ _ _ _ _ Hl Hj) as (sj & He & Hwf & Hline & Hfin).
  simpl. rewrite Hline. clear Hline.
  revert Hfin. unfold component_line. rewrite normalize_split, Hnm.
  set (s0 := set_warnings sj _).
  assert (H0 : extends sj s0 ∧ (alloc_wf sj → alloc_wf s0)).
  { split; [split; [by repeat split | done] | done]. }
  destruct (input_connections s0 comp _) as [ins s1] eqn:H1.
  destruct (output_connections s1 cid comp _) as [outs s2] eqn:H2.
  pose proof (input_connections_length _ _ _ _ _ Hne H1) as Hlen.
  apply input_connections_evolves in H1 as (He1 & _ & Hwf1).
  destruct (output_connections_lookup _ _ _ _ _ _ _ _ _ H2 Hk Hws)
    as (si & (Hesi & _ & Hwfsi) & Hc & (Hef & _)).
  assert (Hc' : (ins ++ outs) !! (length (input_wires comp)
              + connected_before comp (output_pin_ids_ordered comp) k)%nat =
      Some (default ("out" +:+ pretty p) (od_get p (output_pin_names comp)),
            (output_wire_name si cid p ws).1)).
  { rewrite <-Hlen. by rewrite lookup_app_r, Nat.add_comm, Nat.add_sub by lia. }
  destruct (ins ++ outs) as [|c cs] eqn:Hio; [by rewrite lookup_nil in Hc'|].
  simpl. intros Hfin. exists si, (c :: cs).
  split_and!.
  - eapply extends_trans; [done|]. eapply extends_trans; [apply H0|].
    by eapply extends_trans.
  - apply Hwfsi, Hwf1, H0, Hwf, init_alloc_wf.
  - done.
  - done.
  - by eapply extends_trans.
Qed.

(** ** C2: outputs wired to top-level output pins *)

Lemma first_output_pin_env s s' ws :
  output_pins s' = output_pins s → first_output_pin s' ws = first_output_pin s ws.
Proof. intros Heq. induction ws as [|w ws IH]; simpl; [done|]. by rewrite Heq, IH. Qed.

Lemma output_wire_name_passthrough self cid p ws op :
  first_output_pin self ws = Some op →
  output_wire_name self cid p ws =
    match chip_name self ≫= HackChipAPI.get_chip_spec with
    | None => (remove_char " " (lower (pin_Name op)), self)
    | Some spec =>
        match outputs spec !! index_of op (od_values (output_pins self)) with
        | Some wire_name => (wire_name, self)
        | None => _get_or_create_wire_name self cid p
        end
    end.
Proof.
  intros Hop. unfold output_wire_name.
  by rewrite connects_to_output_first, Hop.
Qed.

(** C2 (as the code has it).  Let a component that is not skipped have, at
    position [k] of its ordered output pins, a connected pin [p] with a wire
    to a top-level output pin, [op] being the first such pin reached.  The
    value emitted for [p] depends on the name of the enclosing module:
    - the module name is not a catalog chip: the value is [op]'s name,
      lower-cased and with spaces removed, and nothing is allocated;
    - the module name is a catalog chip declaring an output at [op]'s
      registration index: the value is that catalog output name, and
      nothing is allocated;
    - the module name is a catalog chip with fewer outputs: the value is
      the identifier of [(cid, p)] in the identifier table.
    In every case the diagnostics of the pass are those of construction
    and of the normaliser: none is recorded for the pin. *)
Theorem pass_through_elision g j cid comp nm k p ws op :
  components (init g) !! j = Some (cid, comp) →
  norm_result (comp_name comp) = Some nm →
  output_pin_ids_ordered comp !! k = Some p →
  od_get p (output_wires comp) = Some ws →
  first_output_pin (init g) ws = Some op →
  let pos := (length (input_wires comp)
              + connected_before comp (output_pin_ids_ordered comp) k)%nat in
  let param := default ("out" +:+ pretty p) (od_get p (output_pin_names comp)) in
  match chip_name (init g) ≫= HackChipAPI.get_chip_spec with
  | None =>
      emitted (pass_body g) j pos
        = Some (param, remove_char " " (lower (pin_Name op))) ∧
      (∀ self, same_env (init g) self → (output_wire_name self cid p ws).2 = self)
  | Some spec =>
      match outputs spec !! index_of op (od_values (output_pins (init g))) with
      | Some wire_name =>
          emitted (pass_body g) j pos = Some (param, wire_name) ∧
          (∀ self, same_env (init g) self → (output_wire_name self cid p ws).2 = self)
      | None =>
          ∃ ident, emitted (pass_body g) j pos = Some (param, ident) ∧
                   wire_name_map (pass_final g) !! (cid, p) = Some ident
      end
  end ∧
  (lower_pass g).2 =
    warnings (init g) ++
    flat_map (fun c => norm_warnings (comp_name c.2)) (components (init g)).
Proof.
  intros Hj Hnm Hk Hws Hop pos param. split; [|apply pass_warnings].
  assert (Hown : ∀ self, same_env (init g) self →
    output_wire_name self cid p ws =
      match chip_name (init g) ≫= HackChipAPI.get_chip_spec with
      | None => (remove_char " " (lower (pin_Name op)), self)
      | Some spec =>
          match outputs spec !! index_of op (od_values (output_pins (init g))) with
          | Some wire_name => (wire_name, self)
          | None => _get_or_create_wire_name self cid p
          end
      end).
  { intros self (_ & Hcn & _ & Hop' & _).
    rewrite (output_wire_name_passthrough self cid p ws op), Hcn, Hop'; [done|].
    by rewrite (first_output_pin_env (init g)). }
  destruct (pass_output_connection _ _ _ _ _ _ _ _ Hj Hnm Hk Hws)
    as (si & conns & [Henv _] & _ & Hb & Hc & Hfin).
  fold pos in Hc. fold param in Hc. rewrite (Hown si Henv) in Hc, Hfin.
  unfold emitted. rewrite Hb.
  destruct (chip_name (init g) ≫= HackChipAPI.get_chip_spec) as [spec|].
  - destruct (outputs spec !! _) as [wire_name|].
    + split; [done|]. intros self Hself. by rewrite (Hown self Hself).
    + destruct (_get_or_create_wire_name si cid p) as [ident s1] eqn:Hg.
      apply get_or_create_evolves in Hg as [_ Hm].
      exists ident. split; [done|]. by eapply extends_lookup.
  - split; [done|]. intros self Hself. by rewrite (Hown self Hself).
Qed.

Lemma pass_through_elision_witness :
  emitted (pass_body ex_passthrough_custom) 0 1 = Some ("out", "yout") ∧
  (lower_pass ex_passthrough_custom).2 = [ChipNotInAPI "Demo"].
Proof.
  pose proof (pass_through_elision ex_passthrough_custom 0 10
    (Build_Component "NOT" 10 [] [(0, [mkWire 1 0 10 0])]
       [(0, [mkWire 10 0 6 0])] [(0, "in")] [(0, "out")])
    "Not" 0 0 [mkWire 10 0 6 0] (mkPin 6 "Y OUT" 1)
    eq_refl eq_refl eq_refl eq_refl eq_refl) as [[He _] Hw].
  split; [exact He | rewrite Hw; reflexivity].
Defined.

(** C2, as stated, fails: in a module named like a catalog chip, an output
    wired to a top-level output pin gets a synthesized identifier although
    the producing instance is a catalog type, and no diagnostic is
    recorded. *)
Lemma pass_through_catalog_module :
  pass_body ex_passthrough_catalog = [Part "Not" [("in", "in"); ("out", "w1")]] ∧
  wire_name_map (pass_final ex_passthrough_catalog) !! (10, 0) = Some "w1" ∧
  HackChipAPI.get_chip_spec "Not" = Some {| inputs := ["in"]; outputs := ["out"] |} ∧
  (lower_pass ex_passthrough_catalog).2 = [].
Proof. split_and!; reflexivity. Qed.

(** ** C10: connected output pins outside the declared order *)





(** ** C3: input pins sharing a name *)

(** C3 (the code at the failing input).  With two input pins named [IN],
    id 2 registered before id 1, the signature gives the bare name to the
    first registered pin (id 2) and [in1] to the second (id 1), while the
    wire resolver, which ranks the pins by sorted id, resolves a wire from
    pin 2 to [in1] and a wire from pin 1 to [in]. *)
Theorem duplicate_name_mismatch :
  (_generate_hdl_signature (init ex_duplicate_names)).1 = "in, in1" ∧
  od_keys (input_pins (init ex_duplicate_names)) = [2; 1] ∧
  (_get_wire_source_name (init ex_duplicate_names) (mkWire 2 0 10 0)).1 = "in1" ∧
  (_get_wire_source_name (init ex_duplicate_names) (mkWire 1 0 10 1)).1 = "in" ∧
  pass_body ex_duplicate_names
    = [Part "And" [("a", "in1"); ("b", "in"); ("out", "out")]].
Proof. split_and!; reflexivity. Qed.

(** The instance named by the specification: ids 1 and 2 registered in that
    order resolve to [in] and [in1], in the signature and in the wires. *)
Example duplicate_name_in_order :
  (_generate_hdl_signature (init ex_duplicate_names_in_order)).1 = "in, in1" ∧
  (_get_wire_source_name (init ex_duplicate_names_in_order) (mkWire 1 0 10 0)).1 = "in" ∧
  (_get_wire_source_name (init ex_duplicate_names_in_order) (mkWire 2 0 10 1)).1 = "in1".
Proof. split_and!; reflexivity. Qed.

(** ** C1: identifiers of component outputs *)

Lemma get_or_create_stable s cid pid nm :
  wire_name_map s !! (cid, pid) = Some nm →
  _get_or_create_wire_name s cid pid = (nm, s).
Proof. intros H. unfold _get_or_create_wire_name. by rewrite H. Qed.

Lemma get_or_create_fresh s cid pid :
  wire_name_map s !! (cid, pid) = None →
  let counter := wire_counter s + 1 in
  _get_or_create_wire_name s cid pid =
    ("w" +:+ pretty counter,
     set_wire_names s counter
       (<[(cid, pid) := "w" +:+ pretty counter]> (wire_name_map s))).
Proof. intros H. unfold _get_or_create_wire_name. by rewrite H. Qed.

Lemma pass_final_alloc_wf g : alloc_wf (pass_final g).
Proof.
  unfold pass_final.
  destruct (component_lines (init g) (components (init g))) as [ls sf] eqn:Hl.
  apply component_lines_spec in Hl as (_ & Hwf & _). apply Hwf, init_alloc_wf.
Qed.

(** What a consuming statement shows for a wire from a component output is
    the entry of the final identifier table. *)
Lemma consumer_identifier g j cid comp nm idx pid w ws :
  components (init g) !! j = Some (cid, comp) →
  norm_result (comp_name comp) = Some nm →
  input_wires comp !! idx = Some (pid, w :: ws) →
  od_get (source_owner_id w) (input_pins (init g)) = None →
  is_Some (od_get (source_owner_id w) (components (init g))) →
  ∃ param ident,
    emitted (pass_body g) j idx = Some (param, ident) ∧
    wire_name_map (pass_final g) !! (source_owner_id w, source_pin_id w) = Some ident.
Proof.
  intros Hj Hnm Hidx Hin [c Hc].
  destruct (pass_input_connection _ _ _ _ _ _ _ _ _ Hj Hnm Hidx)
    as (si & conns & [(_ & _ & Hip & _ & Hcp & _) _] & _ & Hb & Hcn & Hfin).
  assert (Hres : _get_wire_source_name si w
    = _get_or_create_wire_name si (source_owner_id w) (source_pin_id w)).
  { unfold _get_wire_source_name, od_mem. by rewrite Hip, Hin, Hcp, Hc. }
  rewrite Hres in Hcn, Hfin.
  destruct (_get_or_create_wire_name si _ _) as [ident s1] eqn:Hg.
  apply get_or_create_evolves in Hg as [_ Hm].
  exists (default ("in" +:+ pretty pid) (od_get pid (input_pin_names comp))), ident.
  split; [unfold emitted; by rewrite Hb | by eapply extends_lookup].
Qed.

(** The producing statement shows the same entry when none of the pin's
    wires reaches a top-level output pin. *)
Lemma producer_identifier g j cid comp nm k p ws :
  components (init g) !! j = Some (cid, comp) →
  norm_result (comp_name comp) = Some nm →
  output_pin_ids_ordered comp !! k = Some p →
  od_get p (output_wires comp) = Some ws →
  first_output_pin (init g) ws = None →
  ∃ param ident,
    emitted (pass_body g) j
      (length (input_wires comp)
       + connected_before comp (output_pin_ids_ordered comp) k)
      = Some (param, ident) ∧
    wire_name_map (pass_final g) !! (cid, p) = Some ident.
Proof.
  intros Hj Hnm Hk Hws Hnone.
  destruct (pass_output_connection _ _ _ _ _ _ _ _ Hj Hnm Hk Hws)
    as (si & conns & [(_ & _ & _ & Hop & _) _] & _ & Hb & Hc & Hfin).
  assert (Hres : output_wire_name si cid p ws = _get_or_create_wire_name si cid p).
  { unfold output_wire_name.
    by rewrite connects_to_output_first, (first_output_pin_env (init g)), Hnone. }
  rewrite Hres in Hc, Hfin.
  destruct (_get_or_create_wire_name si cid p) as [ident s1] eqn:Hg.
  apply get_or_create_evolves in Hg as [_ Hm].
  eexists _, ident. split; [unfold emitted; by rewrite Hb | by eapply extends_lookup].
Qed.

(** *** Which keys the identifier table holds *)

Lemma get_or_create_new s c p k :
  is_Some (wire_name_map (_get_or_create_wire_name s c p).2 !! k) →
  is_Some (wire_name_map s !! k) ∨ k = (c, p).
Proof.
  unfold _get_or_create_wire_name.
  destruct (wire_name_map s !! (c, p)) eqn:Hk; simpl; [by left|].
  rewrite lookup_insert. case_decide; [by right | by left].
Qed.

Lemma wire_source_name_new e s w k :
  same_env e s →
  is_Some (wire_name_map (_get_wire_source_name s w).2 !! k) →
  is_Some (wire_name_map s !! k) ∨
  ((source_owner_id w, source_pin_id w) = k ∧
   od_get k.1 (input_pins e) = None ∧ od_mem k.1 (components e) = true).
Proof.
  intros (_ & _ & Hip & _ & Hcp & _). unfold _get_wire_source_name.
  rewrite Hip, Hcp.
  destruct (od_get _ (input_pins e)) eqn:Hi; [destruct (_ && _); by left|].
  destruct (od_mem _ (components e)) eqn:Hm; [|by left].
  intros [?| ->]%get_or_create_new; [by left | by right].
Qed.

Lemma output_wire_name_allocates e s cid p ws :
  same_env e s → allocates_for_output e ws →
  output_wire_name s cid p ws = _get_or_create_wire_name s cid p.
Proof.
  intros (_ & Hcn & _ & Hop & _). unfold output_wire_name, allocates_for_output.
  rewrite connects_to_output_first, (first_output_pin_env e s ws Hop), Hcn, Hop.
  destruct (first_output_pin e ws) as [op|]; [|done].
  destruct (chip_name e ≫= HackChipAPI.get_chip_spec) as [spec|]; [|done].
  by intros ->.
Qed.

Lemma output_wire_name_new e s cid p ws k :
  same_env e s →
  is_Some (wire_name_map (output_wire_name s cid p ws).2 !! k) →
  is_Some (wire_name_map s !! k) ∨ (k = (cid, p) ∧ allocates_for_output e ws).
Proof.
  intros (_ & Hcn & _ & Hop & _). unfold output_wire_name, allocates_for_output.
  rewrite connects_to_output_first, (first_output_pin_env e s ws Hop), Hcn, Hop.
  destruct (first_output_pin e ws) as [op|].
  - destruct (chip_name e ≫= HackChipAPI.get_chip_spec) as [spec|]; [|by left].
    destruct (outputs spec !! _) eqn:Ho; [by left|].
    intros [?| ->]%get_or_create_new; [by left | by right].
  - intros [?| ->]%get_or_create_new; [by left | by right].
Qed.

Lemma input_connections_new e comp pins s k :
  same_env e s →
  is_Some (wire_name_map (input_connections s comp pins).2 !! k) →
  is_Some (wire_name_map s !! k) ∨
  ((∃ idx pid w ws, pins !! idx = Some (pid, w :: ws) ∧
                    (source_owner_id w, source_pin_id w) = k) ∧
   od_get k.1 (input_pins e) = None ∧ od_mem k.1 (components e) = true).
Proof.
  revert s. induction pins as [|[pid [|w ws]] pins IH]; intros s Henv; simpl.
  - by left.
  - intros [?|[(idx & ? & ? & ? & ? & ?) ?]]%IH; [by left| |done].
    right. split; [|done]. by exists (S idx); eauto.
  - destruct (_get_wire_source_name s w) as [nm s1] eqn:H1.
    pose proof (get_wire_source_name_evolves _ _ _ _ H1) as [[He1 _] _].
    specialize (IH s1 (same_env_trans _ _ _ Henv He1)).
    destruct (input_connections s1 comp pins) as [cs s2]. simpl in *.
    intros [Hs1|[(idx & ? & ? & ? & ? & ?) ?]]%IH.
    + replace s1 with (_get_wire_source_name s w).2 in Hs1 by by rewrite H1.
      apply (wire_source_name_new e) in Hs1 as [?|(? & ? & ?)]; [by left| |done].
      right. split; [|done]. by exists 0%nat; eauto.
    + right. split; [|done]. by exists (S idx); eauto.
Qed.

Lemma output_connections_new e cid comp pids s k :
  same_env e s →
  is_Some (wire_name_map (output_connections s cid comp pids).2 !! k) →
  is_Some (wire_name_map s !! k) ∨
  (k.1 = cid ∧
   ∃ i ws, pids !! i = Some k.2 ∧ od_get k.2 (output_wires comp) = Some ws ∧
           allocates_for_output e ws).
Proof.
  revert s. induction pids as [|p pids IH]; intros s Henv; simpl.
  - by left.
  - destruct (od_get p (output_wires comp)) as [ws|] eqn:Hp.
    + destruct (output_wire_name s cid p ws) as [nm s1] eqn:H1.
      pose proof (output_wire_name_evolves _ _ _ _ _ _ H1) as [[He1 _] _].
      specialize (IH s1 (same_env_trans _ _ _ Henv He1)).
      destruct (output_connections s1 cid comp pids) as [cs s2]. simpl in *.
      intros [Hs1|[? (i & ws' & ? & ? & ?)]]%IH.
      * replace s1 with (output_wire_name s cid p ws).2 in Hs1 by by rewrite H1.
        apply (output_wire_name_new e) in Hs1 as [?|[-> ?]]; [by left| |done].
        right. split; [done|]. by exists 0%nat, ws.
      * right. split; [done|]. by exists (S i), ws'.
    + intros [?|[? (i & ws' & ? & ? & ?)]]%IH; [by left| |done].
      right. split; [done|]. by exists (S i), ws'.
Qed.

Lemma component_line_new e s cid comp k :
  same_env e s →
  is_Some (wire_name_map (component_line s cid comp).2 !! k) →
  is_Some (wire_name_map s !! k) ∨
  (is_Some (norm_result (comp_name comp)) ∧
   ((reads_pin comp k ∧
     od_get k.1 (input_pins e) = None ∧ od_mem k.1 (components e) = true) ∨
    (k.1 = cid ∧ names_pin e comp k.2))).
Proof.
  intros Henv. unfold component_line. rewrite normalize_split.
  set (s0 := set_warnings s _).
  assert (Henv0 : same_env e s0).
  { destruct Henv as (?&?&?&?&?&?). by repeat split. }
  destruct (norm_result (comp_name comp)) as [nm|]; [|by left].
  pose proof (input_connections_new e comp (input_wires comp) s0 k Henv0) as Hin.
  destruct (input_connections s0 comp _) as [ins s1] eqn:H1.
  pose proof (input_connections_evolves _ _ _ _ _ H1) as [[He1 _] _].
  pose proof (output_connections_new e cid comp (output_pin_ids_ordered comp) s1 k
                (same_env_trans _ _ _ Henv0 He1)) as Hout.
  destruct (output_connections s1 cid comp _) as [outs s2]. simpl in *.
  intros Hk. assert (Hk2 : is_Some (wire_name_map s2 !! k)).
  { by destruct (ins ++ outs). }
  destruct (Hout Hk2) as [Hk1|Hnames].
  - destruct (Hin Hk1) as [?|Hreads]; [by left|].
    right. split; [done|]. by left.
  - right. split; [done|]. by right.
Qed.

Lemma component_lines_new e comps s k :
  same_env e s →
  is_Some (wire_name_map (component_lines s comps).2 !! k) →
  is_Some (wire_name_map s !! k) ∨
  ∃ j cid comp,
    comps !! j = Some (cid, comp) ∧
    is_Some (norm_result (comp_name comp)) ∧
    ((reads_pin comp k ∧
      od_get k.1 (input_pins e) = None ∧ od_mem k.1 (components e) = true) ∨
     (k.1 = cid ∧ names_pin e comp k.2)).
Proof.
  revert s. induction comps as [|[cid comp] comps IH]; intros s Henv; simpl.
  - by left.
  - pose proof (component_line_new e s cid comp k Henv) as Hline.
    destruct (component_line s cid comp) as [l s1] eqn:H1.
    pose proof (component_line_spec _ _ _ _ _ H1) as ([He1 _] & _).
    specialize (IH s1 (same_env_trans _ _ _ Henv He1)).
    destruct (component_lines s1 comps) as [ls s2]. simpl in *.
    intros [Hk1|(j & cid' & comp' & ? & ? & ?)]%IH.
    + destruct (Hline Hk1) as [?|[? ?]]; [by left|].
      right. by exists 0%nat, cid, comp.
    + right. by exists (S j), cid', comp'.
Qed.

(** The statement of a producer shows, for a connected pin among its
    ordered output pins, the value of the branch [convert] takes. *)
Lemma producer_value g j cid comp nm i p ws :
  components (init g) !! j = Some (cid, comp) →
  norm_result (comp_name comp) = Some nm →
  output_pin_ids_ordered comp !! i = Some p →
  od_get p (output_wires comp) = Some ws →
  ∃ param value,
    emitted (pass_body g) j
      (length (input_wires comp)
       + connected_before comp (output_pin_ids_ordered comp) i)
      = Some (param, value) ∧
    producer_value_is (init g) (wire_name_map (pass_final g)) (cid, p) ws value.
Proof.
  intros Hj Hnm Hi Hws.
  destruct (pass_output_connection _ _ _ _ _ _ _ _ Hj Hnm Hi Hws)
    as (si & conns & [Henv _] & _ & Hb & Hc & Hfin).
  eexists _, _. split; [unfold emitted; by rewrite Hb, Hc|].
  pose proof Henv as (_ & Hcn & _ & Hop & _).
  unfold producer_value_is. revert Hfin. unfold output_wire_name.
  rewrite connects_to_output_first, (first_output_pin_env (init g) si ws Hop), Hcn, Hop.
  destruct (first_output_pin (init g) ws) as [op|].
  - destruct (chip_name (init g) ≫= HackChipAPI.get_chip_spec) as [spec|]; [|done].
    destruct (outputs spec !! _); [done|].
    destruct (_get_or_create_wire_name si cid p) as [ident s1] eqn:Hg.
    apply get_or_create_evolves in Hg as [_ Hm]. simpl.
    intros Hfin. by eapply extends_lookup.
  - destruct (_get_or_create_wire_name si cid p) as [ident s1] eqn:Hg.
    apply get_or_create_evolves in Hg as [_ Hm]. simpl.
    intros Hfin. by eapply extends_lookup.
Qed.

(** The identifier table after a pass holds a key exactly when a statement
    asked the allocator for it. *)
Lemma table_entries g k :
  is_Some (wire_name_map (pass_final g) !! k) ↔
  (od_get k.1 (input_pins (init g)) = None ∧
   od_mem k.1 (components (init g)) = true ∧ read_by_consumer g k) ∨
  named_by_producer g k.
Proof.
  split.
  - intros Hk. unfold pass_final in Hk.
    apply (component_lines_new (init g)) in Hk as [Hk|Hk]; [| |apply same_env_refl].
    + exfalso. destruct Hk as [nm Hk]. revert Hk.
      unfold init. rewrite normalize_split. rewrite infer_pin_names_split.
      simpl. by rewrite lookup_empty.
    + destruct Hk as (j & cid & comp & Hj & Hnm & [(Hr & Hin & Hm)|[Hc Hn]]).
      * left. split_and!; [done|done|]. by exists j, cid, comp.
      * right. subst cid. by exists j, comp.
  - intros [(Hin & Hm & j & cid & comp & Hj & [nm Hnm] & idx & pid & w & ws & Hidx & Hk)
           |(j & comp & Hj & [nm Hnm] & i & ws & Hi & Hws & Ha)].
    + subst k. simpl in Hin, Hm.
      assert (Hc : is_Some (od_get (source_owner_id w) (components (init g)))).
      { unfold od_mem in Hm. by destruct (od_get _ (components (init g))). }
      destruct (consumer_identifier _ _ _ _ _ _ _ _ _ Hj Hnm Hidx Hin Hc)
        as (param & ident & _ & Hid).
      by exists ident.
    + destruct (producer_value _ _ _ _ _ _ _ _ Hj Hnm Hi Hws)
        as (param & value & _ & Hv).
      unfold producer_value_is in Hv. unfold allocates_for_output in Ha.
      destruct k as [c p]. simpl in *.
      destruct (first_output_pin (init g) ws); [|by exists value].
      destruct (chip_name (init g) ≫= HackChipAPI.get_chip_spec) as [spec|]; [|done].
      rewrite Ha in Hv. by exists value.
Qed.

(** C1 (as the code has it).  Let [k] be an output pin of a registered
    component whose id is not also the id of a top-level input pin.
    - Every connection emitted for an input pin whose first wire leaves [k]
      carries the entry of the final identifier table for [k].
    - The producing statement, for [k] connected and among the producer's
      ordered output pins, carries that same entry when none of the wires
      of [k] reaches a top-level output pin; when one does, it carries the
      pass-through value instead (the name of the first such pin, or the
      catalog output at its registration index), and the table entry only
      if the module is a catalog chip with no output declared at that
      index.
    - The table holds an entry for [k] exactly when some statement reads
      [k] or the producing statement names [k] through the allocator; no
      identifier exists otherwise.
    - The entry, when there is one, is [w<n>] with [1 ≤ n ≤ wire_counter]
      and belongs to no other key.  The table starts empty with the counter
      at 0 and ends holding exactly [w1 .. w<wire_counter>], each for one
      key: every allocation takes the next number and no key is ever given
      a second identifier. *)
Theorem fanout_identity g k :
  od_get k.1 (input_pins (init g)) = None →
  is_Some (od_get k.1 (components (init g))) →
  (∀ j cid comp nm idx pid w ws,
     components (init g) !! j = Some (cid, comp) →
     norm_result (comp_name comp) = Some nm →
     input_wires comp !! idx = Some (pid, w :: ws) →
     (source_owner_id w, source_pin_id w) = k →
     ∃ param ident,
       emitted (pass_body g) j idx = Some (param, ident) ∧
       wire_name_map (pass_final g) !! k = Some ident) ∧
  (∀ j comp nm i ws,
     components (init g) !! j = Some (k.1, comp) →
     norm_result (comp_name comp) = Some nm →
     output_pin_ids_ordered comp !! i = Some k.2 →
     od_get k.2 (output_wires comp) = Some ws →
     ∃ param value,
       emitted (pass_body g) j
         (length (input_wires comp)
          + connected_before comp (output_pin_ids_ordered comp) i)
         = Some (param, value) ∧
       match first_output_pin (init g) ws with
       | None => wire_name_map (pass_final g) !! k = Some value
       | Some op =>
           match chip_name (init g) ≫= HackChipAPI.get_chip_spec with
           | None => value = remove_char " " (lower (pin_Name op))
           | Some spec =>
               match outputs spec !! index_of op (od_values (output_pins (init g))) with
               | Some wire_name => value = wire_name
               | None => wire_name_map (pass_final g) !! k = Some value
               end
           end
       end) ∧
  (is_Some (wire_name_map (pass_final g) !! k) ↔
     read_by_consumer g k ∨ named_by_producer g k) ∧
  (∀ ident, wire_name_map (pass_final g) !! k = Some ident →
     ∃ n, 1 ≤ n ≤ wire_counter (pass_final g) ∧ ident = "w" +:+ pretty n ∧
          ∀ k', wire_name_map (pass_final g) !! k' = Some ident → k' = k) ∧
  wire_counter (init g) = 0 ∧ wire_name_map (init g) = ∅ ∧
  alloc_wf (pass_final g).
Proof.
  intros Hin Hc. split_and!.
  - intros j cid comp nm idx pid w ws Hj Hnm Hidx Hk. subst k. simpl in *.
    by apply (consumer_identifier _ _ _ _ _ _ _ _ _ Hj Hnm Hidx Hin Hc).
  - intros j comp nm i ws Hj Hnm Hi Hws. destruct k as [c p]. simpl in *.
    exact (producer_value _ _ _ _ _ _ _ _ Hj Hnm Hi Hws).
  - rewrite table_entries. split; [intros [(_ & _ & ?)|?]; [by left | by right]|].
    intros [Hr|Hn]; [left|by right]. split_and!; [done| |done].
    unfold od_mem. by destruct Hc as [c ->].
  - intros ident Hid.
    destruct (pass_final_alloc_wf g) as (Hpos & Hform & Hall & Hinj).
    destruct (Hform _ _ Hid) as (n & Hn & ->).
    exists n. split_and!; [lia|lia|done|]. intros k' Hk'. by eapply Hinj.
  - unfold init. rewrite normalize_split. by rewrite infer_pin_names_split.
  - unfold init. rewrite normalize_split. by rewrite infer_pin_names_split.
  - apply pass_final_alloc_wf.
Qed.

Lemma fanout_identity_witness :
  (∃ param, emitted (pass_body ex_fanout) 0 0 = Some (param, "w1")) ∧
  (∃ param, emitted (pass_body ex_fanout) 2 0 = Some (param, "w1")) ∧
  (∃ param, emitted (pass_body ex_fanout) 1 1 = Some (param, "w1")) ∧
  wire_name_map (pass_final ex_fanout) !! (10, 0) = Some "w1".
Proof.
  destruct (fanout_identity ex_fanout (10, 0) eq_refl (mk_is_Some _ _ eq_refl))
    as (Hcons & Hprod & _).
  destruct (Hcons 0%nat 20
    (Build_Component "NOT" 20 [] [(0, [mkWire 10 0 20 0])] [] [(0, "in")] [])
    "Not" 0%nat 0 (mkWire 10 0 20 0) [] eq_refl eq_refl eq_refl eq_refl)
    as (p1 & i1 & He1 & Hi1).
  destruct (Hcons 2%nat 30
    (Build_Component "NOT" 30 [] [(0, [mkWire 10 0 30 0])] [] [(0, "in")] [])
    "Not" 0%nat 0 (mkWire 10 0 30 0) [] eq_refl eq_refl eq_refl eq_refl)
    as (p2 & i2 & He2 & Hi2).
  destruct (Hprod 1%nat
    (Build_Component "NOT" 10 [] [(0, [mkWire 1 0 10 0])]
       [(0, [mkWire 10 0 20 0; mkWire 10 0 30 0])] [(0, "in")] [(0, "out")])
    "Not" 0%nat [mkWire 10 0 20 0; mkWire 10 0 30 0]
    eq_refl eq_refl eq_refl eq_refl)
    as (p3 & v3 & He3 & Hv3).
  split_and!; [by exists "in" | by exists "in" | by exists "out" | reflexivity].
Defined.

(** The documents side by side: a pin read by two statements; a pin wired
    to a top-level output pin and read by a statement; a pin wired to two
    top-level output pins, in a module whose catalog entry declares an
    output for neither. *)
Example fanout_examples :
  pass_body ex_fanout
    = [Part "Not" [("in", "w1")]; Part "Not" [("in", "in"); ("out", "w1")];
       Part "Not" [("in", "w1")]] ∧
  pass_body ex_fanout_mixed
    = [Part "Not" [("in", "in"); ("out", "out")]; Part "Not" [("in", "w1")]] ∧
  pass_body ex_fanout_catalog_outputs
    = [Part "Not" [("in", "in"); ("out", "w1")]].
Proof. split_and!; reflexivity. Qed.

(** C1, as stated, fails on both counts.  An output pin driving two wires,
    both to top-level output pins, gets no identifier at all; and an output
    pin driving one wire to a top-level output pin and one to another
    component is written [out] in the producing statement and [w1] in the
    consuming one. *)
Lemma fanout_without_identity :
  (od_get 0 (output_wires
     (default (new_Component (mkSub "" 0 []))
        (od_get 10 (components (init ex_fanout_outputs)))))
     = Some [mkWire 10 0 5 0; mkWire 10 0 6 0] ∧
   pass_body ex_fanout_outputs = [Part "Not" [("in", "in"); ("out", "out")]] ∧
   wire_name_map (pass_final ex_fanout_outputs) !! (10, 0) = None ∧
   wire_counter (pass_final ex_fanout_outputs) = 0) ∧
  (od_get 0 (output_wires
     (default (new_Component (mkSub "" 0 []))
        (od_get 10 (components (init ex_fanout_mixed)))))
     = Some [mkWire 10 0 5 0; mkWire 10 0 20 0] ∧
   emitted (pass_body ex_fanout_mixed) 0 1 = Some ("out", "out") ∧
   emitted (pass_body ex_fanout_mixed) 1 0 = Some ("in", "w1") ∧
   wire_name_map (pass_final ex_fanout_mixed) !! (10, 0) = Some "w1").
Proof. split; split_and!; reflexivity. Qed.

(** ** C10: the statement and the identifier of an undeclared output *)



(** The pin read by another component, and the pin read by its own
    component through a feedback wire: in both documents the [DMUX]
    statement has no output parameter for pin 1, and pin 1 holds the
    identifier [w1]. *)
Example undeclared_output_examples :
  pass_body ex_undeclared_output
    = [Part "DMux" [("in", "in"); ("a", "out")]; Part "Not" [("in", "w1")]] ∧
  pass_body ex_undeclared_feedback
    = [Part "DMux" [("in", "in"); ("sel", "w1"); ("a", "out")]] ∧
  wire_name_map (pass_final ex_undeclared_feedback) !! (10, 1) = Some "w1" ∧
  (lower_pass ex_undeclared_feedback).2 = [].
Proof. split_and!; reflexivity. Qed.


(** ** Re-running [convert] on the same converter *)

(** Once the identifier table contains what a run allocated, replaying the
    run reads the same names and allocates nothing. *)
Lemma same_env_shift s1 s1' s2 : same_env s1 s1' → same_env s1 s2 → same_env s1' s2.
Proof. intros (?&?&?&?&?&?) (?&?&?&?&?&?). repeat split; congruence. Qed.

Lemma replay_get_or_create s1 s2 cid pid nm s1' :
  _get_or_create_wire_name s1 cid pid = (nm, s1') →
  wire_name_map s1' ⊆ wire_name_map s2 →
  _get_or_create_wire_name s2 cid pid = (nm, s2).
Proof.
  intros [_ Hm]%get_or_create_evolves Hsub.
  apply get_or_create_stable. by eapply lookup_weaken.
Qed.

Lemma replay_wire_source_name s1 s2 w nm s1' :
  _get_wire_source_name s1 w = (nm, s1') →
  same_env s1 s2 → wire_name_map s1' ⊆ wire_name_map s2 →
  _get_wire_source_name s2 w = (nm, s2).
Proof.
  intros Hrun (_ & _ & Hip & _ & Hcp & _) Hsub. revert Hrun.
  unfold _get_wire_source_name, input_pin_reference. rewrite Hip, Hcp.
  destruct (od_get _ (input_pins s1)).
  - destruct (_ && _); by intros [= <- _].
  - destruct (od_mem _ _).
    + intros Hg. by eapply replay_get_or_create.
    + by intros [= <- _].
Qed.

Lemma replay_output_wire_name s1 s2 cid pid ws nm s1' :
  output_wire_name s1 cid pid ws = (nm, s1') →
  same_env s1 s2 → wire_name_map s1' ⊆ wire_name_map s2 →
  output_wire_name s2 cid pid ws = (nm, s2).
Proof.
  intros Hrun (_ & Hcn & _ & Hop & _) Hsub. revert Hrun.
  unfold output_wire_name.
  rewrite (first_output_pin_env s1 s2 ws Hop), Hcn, Hop.
  destruct (existsb _ _); [|intros Hg; by eapply replay_get_or_create].
  destruct (chip_name s1 ≫= HackChipAPI.get_chip_spec) as [spec|],
    (first_output_pin s1 ws) as [op|];
    try (intros Hg; by eapply replay_get_or_create); [|by intros [= <- _]].
  destruct (outputs spec !! _); [by intros [= <- _]|].
  intros Hg; by eapply replay_get_or_create.
Qed.

Lemma replay_input_connections comp pins s1 s2 conns s1' :
  input_connections s1 comp pins = (conns, s1') →
  same_env s1 s2 → wire_name_map s1' ⊆ wire_name_map s2 →
  input_connections s2 comp pins = (conns, s2).
Proof.
  revert s1 conns. induction pins as [|[pid [|w ws]] pins IH];
    intros s1 conns; simpl.
  - by intros [= <- _].
  - apply IH.
  - destruct (_get_wire_source_name s1 w) as [nm sa] eqn:H1.
    destruct (input_connections sa comp pins) as [cs sb] eqn:H2.
    intros [= <- <-] Henv Hsub.
    pose proof (get_wire_source_name_evolves _ _ _ _ H1) as [[Hea _] _].
    pose proof (input_connections_evolves _ _ _ _ _ H2) as [[_ Hsb] _].
    rewrite (replay_wire_source_name _ _ _ _ _ H1 Henv) by (by etrans).
    by rewrite (IH _ _ H2 (same_env_shift _ _ _ Hea Henv) Hsub).
Qed.

Lemma replay_output_connections cid comp pids s1 s2 conns s1' :
  output_connections s1 cid comp pids = (conns, s1') →
  same_env s1 s2 → wire_name_map s1' ⊆ wire_name_map s2 →
  output_connections s2 cid comp pids = (conns, s2).
Proof.
  revert s1 conns. induction pids as [|pid pids IH]; intros s1 conns; simpl.
  - by intros [= <- _].
  - destruct (od_get pid (output_wires comp)) as [ws|]; [|apply IH].
    destruct (output_wire_name s1 cid pid ws) as [nm sa] eqn:H1.
    destruct (output_connections sa cid comp pids) as [cs sb] eqn:H2.
    intros [= <- <-] Henv Hsub.
    pose proof (output_wire_name_evolves _ _ _ _ _ _ H1) as [[Hea _] _].
    pose proof (output_connections_evolves _ _ _ _ _ _ H2) as [[_ Hsb] _].
    rewrite (replay_output_wire_name _ _ _ _ _ _ _ H1 Henv) by (by etrans).
    by rewrite (IH _ _ H2 (same_env_shift _ _ _ Hea Henv) Hsub).
Qed.

Lemma replay_component_line cid comp s1 s2 line s1' :
  component_line s1 cid comp = (line, s1') →
  same_env s1 s2 → wire_name_map s1' ⊆ wire_name_map s2 →
  ∃ s2', component_line s2 cid comp = (line, s2') ∧
         same_env s2 s2' ∧ wire_name_map s2' = wire_name_map s2.
Proof.
  unfold component_line. rewrite !normalize_split.
  destruct (norm_result (comp_name comp)) as [nm|].
  - set (sa := set_warnings s1 _). set (sb := set_warnings s2 _).
    destruct (input_connections sa comp _) as [ins sc] eqn:H1.
    destruct (output_connections sc cid comp _) as [outs sd] eqn:H2.
    intros Hl Henv Hsub.
    assert (s1' = sd) as -> by (destruct (ins ++ outs); by inversion Hl).
    pose proof (input_connections_evolves _ _ _ _ _ H1) as [[Hec _] _].
    pose proof (output_connections_evolves _ _ _ _ _ _ H2) as [[_ Hsd] _].
    assert (Hab : same_env sa sb).
    { destruct Henv as (?&?&?&?&?&?). by repeat split. }
    rewrite (replay_input_connections _ _ _ sb _ _ H1 Hab) by (by etrans).
    rewrite (replay_output_connections _ _ _ _ sb _ _ H2
               (same_env_shift _ _ _ Hec Hab) Hsub).
    exists sb. split_and!; [|by repeat split|done].
    destruct (ins ++ outs); by inversion Hl.
  - intros [= <- <-] Henv Hsub. eexists. split_and!; [done|by repeat split|done].
Qed.

Lemma replay_component_lines comps s1 s2 lines s1' :
  component_lines s1 comps = (lines, s1') →
  same_env s1 s2 → wire_name_map s1' ⊆ wire_name_map s2 →
  ∃ s2', component_lines s2 comps = (lines, s2') ∧
         same_env s2 s2' ∧ wire_name_map s2' = wire_name_map s2.
Proof.
  revert s1 s2 lines. induction comps as [|[cid comp] comps IH];
    intros s1 s2 lines; simpl.
  - intros [= <- _] _ _. exists s2. split_and!; [done|apply same_env_refl|done].
  - destruct (component_line s1 cid comp) as [l sa] eqn:H1.
    destruct (component_lines sa comps) as [ls sb] eqn:H2.
    intros [= <- <-] Henv Hsub.
    pose proof (component_line_spec _ _ _ _ _ H1) as ([Hea _] & _).
    pose proof (component_lines_spec _ _ _ _ H2) as ([_ Hsb] & _).
    destruct (replay_component_line _ _ _ s2 _ _ H1 Henv) as (sa' & -> & Hea' & Hma');
      [by etrans|].
    destruct (IH sa sa' ls H2) as (sb' & -> & Heb' & Hmb').
    + exact (same_env_shift _ _ _ Hea (same_env_trans _ _ _ Henv Hea')).
    + by rewrite Hma'.
    + exists sb'. split_and!;
        [done | exact (same_env_trans _ _ _ Hea' Heb') | congruence].
Qed.

(** A second [convert] on the same converter prints the same module: the
    text of a pass does not depend on the identifier table being fresh
    (the warnings do: the second call appends to those of the first). *)
Lemma convert_rerun_text self :
  (convert (convert self).2).1 = (convert self).1.
Proof.
  unfold convert, _generate_hdl_signature.
  destruct (component_lines self (components self)) as [ls sf] eqn:H1. simpl.
  pose proof (component_lines_spec _ _ _ _ H1) as ([Henv _] & _).
  pose proof Henv as (Hd & Hcn & Hip & Hop & Hcp & _).
  rewrite Hcp.
  destruct (replay_component_lines _ _ sf _ _ H1) as (s2' & -> & _);
    [done|done|].
  simpl. by rewrite Hd, Hcn, Hip, Hop.
Qed.

(** ** C9: determinism *)

Lemma init_document g :
  data (init g) = g ∧
  input_pins (init g) = index_pins (InputPins g) ∧
  output_pins (init g) = index_pins (OutputPins g).
Proof.
  unfold init. rewrite normalize_split. by rewrite infer_pin_names_split.
Qed.






(* ================================================================== *)
(** * Further properties of the converter *)

(** ** Text helpers *)

Lemma string_forall_app P s t :
  string_forall P (s +:+ t) = string_forall P s && string_forall P t.
Proof. induction s as [|c s IH]; simpl; [done|]. by rewrite IH, andb_assoc. Qed.

Lemma string_forall_impl (P Q : ascii → bool) s :
  (∀ c, P c = true → Q c = true) →
  string_forall P s = true → string_forall Q s = true.
Proof.
  intros HPQ. induction s as [|c s IH]; simpl; [done|].
  intros [? ?]%andb_true_iff. apply andb_true_iff. auto.
Qed.

Lemma remove_char_forall P c s :
  string_forall P s = true → string_forall P (remove_char c s) = true.
Proof.
  induction s as [|a s IH]; simpl; [done|].
  intros [Ha Hs]%andb_true_iff. destruct (decide (a = c)); simpl; [auto|].
  apply andb_true_iff. auto.
Qed.

Lemma remove_char_gone c s :
  string_forall (fun a => negb (bool_decide (a = c))) (remove_char c s) = true.
Proof.
  induction s as [|a s IH]; [done|]. cbn [remove_char].
  destruct (decide (a = c)); [done|]. cbn [string_forall].
  by rewrite bool_decide_false by done.
Qed.

Lemma remove_char_id c s :
  string_forall (fun a => negb (bool_decide (a = c))) s = true →
  remove_char c s = s.
Proof.
  induction s as [|a s IH]; [done|]. cbn [remove_char string_forall].
  intros [Ha Hs]%andb_true_iff. destruct (decide (a = c)) as [->|].
  - by rewrite bool_decide_true in Ha.
  - by rewrite IH.
Qed.

Lemma contains_space_forall s :
  contains_space s = false ↔
  string_forall (fun a => negb (bool_decide (a = " "%char))) s = true.
Proof.
  induction s as [|a s IH]; [done|]. cbn [contains_space string_forall].
  destruct (decide (a = " "%char)) as [->|Hne].
  - by rewrite bool_decide_true.
  - by rewrite bool_decide_false.
Qed.

Lemma lower_char_space c : py_isspace c = false → py_isspace (lower_char c) = false.
Proof. destruct c as [[] [] [] [] [] [] [] []]; by vm_compute. Qed.

Lemma upper_char_space c : py_isspace c = false → py_isspace (upper_char c) = false.
Proof. destruct c as [[] [] [] [] [] [] [] []]; by vm_compute. Qed.

Lemma lower_no_space s :
  string_forall (fun a => negb (py_isspace a)) s = true →
  string_forall (fun a => negb (py_isspace a)) (lower s) = true.
Proof.
  induction s as [|a s IH]; simpl; [done|].
  intros [Ha Hs]%andb_true_iff. apply andb_true_iff. split; [|auto].
  apply negb_true_iff, lower_char_space. by apply negb_true_iff.
Qed.

Lemma capitalize_no_space s :
  string_forall (fun a => negb (py_isspace a)) s = true →
  string_forall (fun a => negb (py_isspace a)) (capitalize s) = true.
Proof.
  destruct s as [|a s]; simpl; [done|].
  intros [Ha Hs]%andb_true_iff. apply andb_true_iff. split.
  - apply negb_true_iff, upper_char_space. by apply negb_true_iff.
  - by apply lower_no_space.
Qed.

Lemma split_go_no_space cur s :
  string_forall (fun a => negb (py_isspace a)) cur = true →
  Forall (fun w => string_forall (fun a => negb (py_isspace a)) w = true)
    (split_go cur s).
Proof.
  revert cur. induction s as [|c s IH]; intros cur Hcur; simpl.
  - destruct (decide (cur = "")); [constructor|]. by repeat constructor.
  - destruct (py_isspace c) eqn:Hc.
    + destruct (decide (cur = "")); [by apply IH|].
      constructor; [done | by apply IH].
    + apply IH. rewrite string_forall_app, Hcur. simpl. by rewrite Hc.
Qed.

Lemma join_empty_forall P ws :
  Forall (fun w => string_forall P w = true) ws →
  string_forall P (join "" ws) = true.
Proof.
  induction 1 as [|w ws Hw Hws IH]; [done|].
  destruct ws as [|w' ws']; [done|].
  change (join "" (w :: w' :: ws')) with (w +:+ "" +:+ join "" (w' :: ws')).
  by rewrite !string_forall_app, Hw, IH.
Qed.

(** ** The normaliser *)

Lemma clean_chip_name_separators name :
  string_forall (fun c => negb (is_separator c)) (clean_chip_name name) = true.
Proof.
  unfold clean_chip_name.
  set (x := if contains_space name then _ else name).
  assert (Hx : string_forall (fun a => negb (bool_decide (a = " "%char))) x = true).
  { subst x. destruct (contains_space name) eqn:Hsp; [|by apply contains_space_forall].
    apply (string_forall_impl (fun a => negb (py_isspace a))).
    { intros c Hc. apply negb_true_iff, bool_decide_eq_false. intros ->. done. }
    apply join_empty_forall, Forall_fmap.
    eapply Forall_impl; [apply (split_go_no_space "" name); done|].
    intros w Hw. by apply capitalize_no_space. }
  pose proof (remove_char_gone "_" (remove_char "-" x)) as H1.
  pose proof (remove_char_forall _ "_" _ (remove_char_gone "-" x)) as H2.
  pose proof (remove_char_forall _ "_" _ (remove_char_forall _ "-" _ Hx)) as H3.
  revert H1 H2 H3. generalize (remove_char "_" (remove_char "-" x)).
  induction s as [|c s IH]; simpl; [done|].
  intros [? ?]%andb_true_iff [? ?]%andb_true_iff [? ?]%andb_true_iff.
  apply andb_true_iff. split; [|auto].
  unfold is_separator. repeat (destruct (bool_decide _); simpl in *; try done).
Qed.

Lemma clean_chip_name_idempotent name :
  clean_chip_name (clean_chip_name name) = clean_chip_name name.
Proof.
  pose proof (clean_chip_name_separators name) as Hsep.
  set (c := clean_chip_name name) in *.
  assert (Hsp : contains_space c = false).
  { apply contains_space_forall. revert Hsep. apply string_forall_impl.
    intros a. unfold is_separator. by destruct (bool_decide (a = " "%char)). }
  unfold clean_chip_name at 1. rewrite Hsp.
  rewrite (remove_char_id "-" c).
  - apply remove_char_id. revert Hsep. apply string_forall_impl.
    intros a. unfold is_separator.
    destruct (bool_decide (a = "_"%char)); [|done]. by rewrite !orb_true_r.
  - revert Hsep. apply string_forall_impl.
    intros a. unfold is_separator.
    destruct (bool_decide (a = "-"%char)); [|done]. by rewrite orb_true_r.
Qed.

Lemma name_map_cases c :
  od_get c name_map = None ∨
  (∃ v, od_get c name_map = Some (Some v) ∧
        v ∈ ["Nand"; "Not"; "And"; "Or"; "Xor"; "Mux"; "DMux"]) ∨
  (od_get c name_map = Some None ∧
   c ∈ ["8-1BIT"; "1-8BIT"; "Splitter8"; "Bus8"]).
Proof.
  destruct (od_get c name_map) as [[v|]|] eqn:Hg; [right; left|right; right|by left].
  - exists v. split; [done|]. apply od_get_Some_elem in Hg.
    unfold name_map in Hg. repeat (apply elem_of_cons in Hg as [Hg|Hg];
      [by (discriminate Hg || (injection Hg as -> ->; set_solver))|]).
    by apply elem_of_nil in Hg.
  - split; [done|]. apply od_get_Some_elem in Hg.
    unfold name_map in Hg. repeat (apply elem_of_cons in Hg as [Hg|Hg];
      [by (discriminate Hg || (injection Hg as ->; set_solver))|]).
    by apply elem_of_nil in Hg.
Qed.

Lemma clean_chip_name_no_dash name s :
  string_forall (fun c => negb (is_separator c)) s = false →
  clean_chip_name name ≠ s.
Proof. intros Hs <-. by rewrite clean_chip_name_separators in Hs. Qed.

(** X1.  The normaliser answers [None] exactly for the names that clean to
    [Splitter8] or [Bus8]; the two entries of [name_map] keyed ["8-1BIT"] and
    ["1-8BIT"] can never match, because dashes are removed before the
    lookup. *)
Theorem normalize_removed_iff name :
  (norm_result name = None ↔
     clean_chip_name name = "Splitter8" ∨ clean_chip_name name = "Bus8") ∧
  clean_chip_name name ≠ "8-1BIT" ∧ clean_chip_name name ≠ "1-8BIT".
Proof.
  assert (H81 : clean_chip_name name ≠ "8-1BIT") by by apply clean_chip_name_no_dash.
  assert (H18 : clean_chip_name name ≠ "1-8BIT") by by apply clean_chip_name_no_dash.
  split; [|done]. unfold norm_result, _normalize_chip_name.
  set (c := clean_chip_name name) in *. split.
  - destruct (name_map_cases c) as [Hn|[(v & Hv & _)|[Hn Hc]]].
    + rewrite Hn. simpl. by destruct (HackChipAPI.is_valid_chip c).
    + rewrite Hv. simpl. by destruct (HackChipAPI.is_valid_chip v).
    + intros _. repeat (apply elem_of_cons in Hc as [Hc|Hc]; [by auto|]).
      by apply elem_of_nil in Hc.
  - by intros [-> | ->].
Qed.

(** X2.  A name of the catalog is a fixed point of the normaliser and
    raises no warning. *)
Theorem normalize_catalog_name ws name :
  HackChipAPI.is_valid_chip name = true →
  _normalize_chip_name ws name = (Some name, ws).
Proof.
  intros Hv. rewrite normalize_split.
  assert (Hin : name ∈ od_keys HackChipAPI.CHIPS).
  { unfold HackChipAPI.is_valid_chip, od_mem in Hv.
    destruct (od_get name HackChipAPI.CHIPS) as [spec|] eqn:Hg; [|done].
    apply od_get_Some_elem in Hg. apply list_elem_of_fmap. by exists (name, spec). }
  assert (Hok : norm_result name = Some name ∧ norm_warnings name = []).
  { unfold od_keys, HackChipAPI.CHIPS in Hin. simpl in Hin.
    repeat (apply elem_of_cons in Hin as [->|Hin]; [by vm_compute|]).
    by apply elem_of_nil in Hin. }
  destruct Hok as [-> ->]. by rewrite app_nil_r.
Qed.

Lemma normalize_catalog_name_witness :
  _normalize_chip_name [ChipNotInAPI "Demo"] "Mux4Way16"
  = (Some "Mux4Way16", [ChipNotInAPI "Demo"]).
Proof. apply (normalize_catalog_name [ChipNotInAPI "Demo"] "Mux4Way16"). reflexivity. Defined.

(** X3.  The normaliser is idempotent: a normalised name normalises to
    itself, with the same warning as the name it came from, and it contains
    no space, dash or underscore. *)
Theorem normalize_idempotent name nm :
  norm_result name = Some nm →
  norm_result nm = Some nm ∧
  norm_warnings nm = norm_warnings name ∧
  string_forall (fun c => negb (is_separator c)) nm = true.
Proof.
  unfold norm_result, norm_warnings, _normalize_chip_name.
  pose proof (clean_chip_name_separators name) as Hsep.
  pose proof (clean_chip_name_idempotent name) as Hidem.
  set (c := clean_chip_name name) in *.
  destruct (name_map_cases c) as [Hn|[(v & Hv & Hin)|[Hn Hc]]].
  - rewrite Hn. change (default (Some c) None) with (Some c).
    intros H. cbn beta iota in H.
    destruct (HackChipAPI.is_valid_chip c) eqn:Hvalid; simpl in H;
      injection H as <-; rewrite Hidem, Hn;
      change (default (Some c) None) with (Some c); cbn beta iota;
      by rewrite Hvalid.
  - rewrite Hv. simpl.
    repeat (apply elem_of_cons in Hin as [->|Hin]; [by intros [= <-]|]).
    by apply elem_of_nil in Hin.
  - by rewrite Hn.
Qed.

Lemma normalize_idempotent_witness :
  norm_result "HalfAdder" = Some "HalfAdder" ∧
  norm_warnings "HalfAdder" = norm_warnings "half adder".
Proof.
  split; [reflexivity|].
  pose proof (normalize_idempotent "half adder" "HalfAdder" eq_refl) as (_ & Hw & _).
  rewrite Hw. reflexivity.
Defined.

(** ** The registries built by [__init__] *)

Lemma first_seen_snoc l x :
  first_seen (l ++ [x]) =
    if decide (x ∈ first_seen l) then first_seen l else first_seen l ++ [x].
Proof. unfold first_seen. by rewrite foldl_app. Qed.

Lemma od_mem_keys {V} (k : Z) (d : list (Z * V)) : od_mem k d = true ↔ k ∈ od_keys d.
Proof.
  unfold od_mem. destruct (od_get k d) eqn:Hg.
  - split; [intros _|done]. destruct (decide (k ∈ od_keys d)) as [|Hn]; [done|].
    apply od_get_None_keys in Hn. congruence.
  - split; [done|]. intros Hin. by apply od_get_None_keys in Hg.
Qed.

Lemma od_keys_set_first_seen {V} (k : Z) (v : V) d l :
  od_keys d = first_seen l → od_keys (od_set k v d) = first_seen (l ++ [k]).
Proof.
  intros Hk. rewrite od_keys_set, first_seen_snoc, <-Hk.
  destruct (od_mem k d) eqn:Hm.
  - apply od_mem_keys in Hm. by rewrite decide_True.
  - rewrite decide_False; [done|]. intros Hin%od_mem_keys. congruence.
Qed.

Lemma foldl_od_set {A V} (key : A → Z) (val : A → V) (l : list A) :
  let d := foldl (fun d a => od_set (key a) (val a) d) [] l in
  (∀ k, od_get k d = val <$> last (filter (fun a => key a = k) l)) ∧
  od_keys d = first_seen (key <$> l).
Proof.
  induction l as [|a l IH] using rev_ind; [done|].
  simpl in *. rewrite foldl_app. simpl. destruct IH as [IHg IHk]. split.
  - intros k. rewrite filter_app. destruct (decide (key a = k)) as [<-|Hne].
    + rewrite od_get_set_eq, filter_cons_True by done.
      by rewrite filter_nil, last_snoc.
    + rewrite od_get_set_ne, filter_cons_False by done.
      by rewrite filter_nil, app_nil_r.
  - rewrite fmap_app. by apply od_keys_set_first_seen.
Qed.

Lemma od_get_alter {V} (k k' : Z) (f : V → V) (d : list (Z * V)) :
  od_get k' (match od_get k d with Some c => od_set k (f c) d | None => d end)
  = (if decide (k = k') then f else fun c => c) <$> od_get k' d.
Proof.
  destruct (decide (k = k')) as [<-|Hne].
  - destruct (od_get k d) as [c|] eqn:Hg.
    + by rewrite od_get_set_eq.
    + by rewrite Hg.
  - destruct (od_get k d) as [c|] eqn:Hg.
    + rewrite od_get_set_ne by done. by destruct (od_get k' d).
    + by destruct (od_get k' d).
Qed.

Lemma od_get_fmap_values {V W} (f : V → W) (k : Z) (d : list (Z * V)) :
  od_get k ((fun c => (c.1, f c.2)) <$> d) = f <$> od_get k d.
Proof.
  induction d as [|[k0 v0] d IH]; [done|]. csimpl.
  destruct (decide (k0 = k)); [done | apply IH].
Qed.

Lemma map_wire_get k comps w :
  od_get k (map_wire comps w) = (fun c => wire_update k c w) <$> od_get k comps.
Proof.
  unfold map_wire.
  rewrite (od_get_alter (source_owner_id w) k
    (fun c => set_output_wires c (od_append (source_pin_id w) w (output_wires c)))).
  rewrite (od_get_alter (target_owner_id w) k
    (fun c => set_input_wires c (od_append (target_pin_id w) w (input_wires c)))).
  unfold wire_update.
  destruct (od_get k comps) as [c|]; [|done]. simpl.
  by destruct (decide (target_owner_id w = k)), (decide (source_owner_id w = k)).
Qed.

Lemma wired_components_get g k :
  od_get k (wired_components g)
  = (fun c => foldl (wire_update k) c (Wires g))
    <$> od_get k (index_components (SubChips g)).
Proof.
  unfold wired_components, _map_wires_to_components.
  generalize (index_components (SubChips g)).
  induction (Wires g) as [|w ws IH]; intros d; simpl.
  - by destruct (od_get k d).
  - rewrite IH, map_wire_get. by destruct (od_get k d).
Qed.

Lemma od_append_get {V} (k p : Z) (x : V) (b : list (Z * list V)) :
  default [] (od_get p (od_append k x b))
  = if decide (k = p) then default [] (od_get p b) ++ [x]
    else default [] (od_get p b).
Proof.
  unfold od_append. destruct (decide (k = p)) as [<-|Hne].
  - by rewrite od_get_set_eq.
  - by rewrite od_get_set_ne.
Qed.

Lemma filter_singleton_dec {A} (P : A → Prop) `{∀ x, Decision (P x)} (x : A) :
  filter P [x] = if decide (P x) then [x] else [].
Proof.
  destruct (decide (P x)).
  - by rewrite filter_cons_True.
  - by rewrite filter_cons_False.
Qed.

Lemma wire_update_input cid c w pid :
  default [] (od_get pid (input_wires (wire_update cid c w)))
  = default [] (od_get pid (input_wires c))
    ++ filter (fun w => target_owner_id w = cid ∧ target_pin_id w = pid) [w].
Proof.
  rewrite filter_singleton_dec. unfold wire_update.
  destruct (decide (target_owner_id w = cid)) as [Ht|Ht],
           (decide (source_owner_id w = cid)) as [Hs|Hs]; simpl;
    rewrite ?od_append_get; repeat (destruct (decide _)); rewrite ?app_nil_r;
    first [done | exfalso; tauto | exfalso; intuition congruence].
Qed.

Lemma wire_update_output cid c w pid :
  default [] (od_get pid (output_wires (wire_update cid c w)))
  = default [] (od_get pid (output_wires c))
    ++ filter (fun w => source_owner_id w = cid ∧ source_pin_id w = pid) [w].
Proof.
  rewrite filter_singleton_dec. unfold wire_update.
  destruct (decide (target_owner_id w = cid)) as [Ht|Ht],
           (decide (source_owner_id w = cid)) as [Hs|Hs]; simpl;
    rewrite ?od_append_get; repeat (destruct (decide _)); rewrite ?app_nil_r;
    first [done | exfalso; tauto | exfalso; intuition congruence].
Qed.

Lemma wire_update_input_keys cid c w l :
  od_keys (input_wires c) = first_seen l →
  od_keys (input_wires (wire_update cid c w))
  = first_seen (l ++ (target_pin_id <$> filter (fun w => target_owner_id w = cid) [w])).
Proof.
  intros Hl. rewrite filter_singleton_dec. unfold wire_update.
  destruct (decide (target_owner_id w = cid)) as [Ht|Ht],
           (decide (source_owner_id w = cid)) as [Hs|Hs]; simpl;
    rewrite ?app_nil_r; try done; by apply od_keys_set_first_seen.
Qed.

Lemma wire_update_output_keys cid c w l :
  od_keys (output_wires c) = first_seen l →
  od_keys (output_wires (wire_update cid c w))
  = first_seen (l ++ (source_pin_id <$> filter (fun w => source_owner_id w = cid) [w])).
Proof.
  intros Hl. rewrite filter_singleton_dec. unfold wire_update.
  destruct (decide (target_owner_id w = cid)) as [Ht|Ht],
           (decide (source_owner_id w = cid)) as [Hs|Hs]; simpl;
    rewrite ?app_nil_r; try done; by apply od_keys_set_first_seen.
Qed.

Lemma wire_update_fields cid c w :
  comp_name (wire_update cid c w) = comp_name c ∧
  output_pin_ids (wire_update cid c w) = output_pin_ids c ∧
  comp_id (wire_update cid c w) = comp_id c.
Proof.
  unfold wire_update.
  by destruct (decide (target_owner_id w = cid)), (decide (source_owner_id w = cid)).
Qed.

(** The buckets of one component after all wires were mapped. *)
Lemma wire_updates_buckets cid c0 ws :
  input_wires c0 = [] → output_wires c0 = [] →
  let c := foldl (wire_update cid) c0 ws in
  (∀ pid, default [] (od_get pid (input_wires c))
          = filter (fun w => target_owner_id w = cid ∧ target_pin_id w = pid) ws) ∧
  (∀ pid, default [] (od_get pid (output_wires c))
          = filter (fun w => source_owner_id w = cid ∧ source_pin_id w = pid) ws) ∧
  od_keys (input_wires c)
    = first_seen (target_pin_id <$> filter (fun w => target_owner_id w = cid) ws) ∧
  od_keys (output_wires c)
    = first_seen (source_pin_id <$> filter (fun w => source_owner_id w = cid) ws) ∧
  comp_name c = comp_name c0 ∧ output_pin_ids c = output_pin_ids c0 ∧
  comp_id c = comp_id c0.
Proof.
  intros Hi Ho. induction ws as [|w ws IH] using rev_ind.
  - simpl. rewrite Hi, Ho. by split_and!.
  - simpl in *. rewrite foldl_app. simpl.
    destruct IH as (IHi & IHo & IHik & IHok & IHn & IHd & IHc).
    set (c := foldl (wire_update cid) c0 ws) in *.
    destruct (wire_update_fields cid c w) as (Hn & Hd & Hc).
    rewrite !filter_app, !fmap_app. split_and!; try congruence.
    + intros pid. by rewrite wire_update_input, IHi, filter_app.
    + intros pid. by rewrite wire_update_output, IHo, filter_app.
    + by apply wire_update_input_keys.
    + by apply wire_update_output_keys.
Qed.

(** X4.  The three registries are keyed in first-occurrence order of the
    ids of the document, and a lookup returns the last entry of the
    document with that id: a repeated id keeps its first position and takes
    its last value. *)
Theorem registries_first_position_last_value g k :
  od_get k (input_pins (init g))
    = last (filter (fun p => pin_ID p = k) (InputPins g)) ∧
  od_keys (input_pins (init g)) = first_seen (pin_ID <$> InputPins g) ∧
  od_get k (output_pins (init g))
    = last (filter (fun p => pin_ID p = k) (OutputPins g)) ∧
  od_keys (output_pins (init g)) = first_seen (pin_ID <$> OutputPins g) ∧
  od_keys (components (init g)) = first_seen (sub_ID <$> SubChips g) ∧
  ((fun c => (comp_name c, comp_id c, output_pin_ids c))
     <$> od_get k (components (init g)))
    = ((fun sc => (sub_Name sc, sub_ID sc, sub_OutputPinColourInfo sc))
       <$> last (filter (fun sc => sub_ID sc = k) (SubChips g))).
Proof.
  assert (Hin : input_pins (init g) = index_pins (InputPins g) ∧
                output_pins (init g) = index_pins (OutputPins g)).
  { unfold init. rewrite normalize_split. by rewrite infer_pin_names_split. }
  destruct Hin as [-> ->].
  destruct (foldl_od_set pin_ID (fun p => p) (InputPins g)) as [Hig Hik].
  destruct (foldl_od_set pin_ID (fun p => p) (OutputPins g)) as [Hog Hok].
  destruct (foldl_od_set sub_ID new_Component (SubChips g)) as [Hcg Hck].
  split_and!.
  - unfold index_pins. rewrite Hig. by destruct (last _).
  - done.
  - unfold index_pins. rewrite Hog. by destruct (last _).
  - done.
  - assert (Hkeys : ∀ ws d, od_keys (foldl map_wire d ws) = od_keys d).
    { induction ws as [|w ws IH]; intros d; simpl; [done|].
      by rewrite IH, map_wire_keys. }
    transitivity (od_keys (wired_components g)).
    + rewrite init_components. unfold od_keys. by rewrite <-list_fmap_compose.
    + unfold wired_components, _map_wires_to_components. by rewrite Hkeys.
  - rewrite init_components,
      (od_get_fmap_values (fun c => (infer_component [] c).1)),
      wired_components_get.
    unfold index_components. rewrite Hcg.
    destruct (last _) as [sc|]; [|done]. simpl.
    destruct (infer_component_fields (foldl (wire_update k) (new_Component sc) (Wires g)))
      as (Hn & Hi & Ho & _).
    destruct (wire_updates_buckets k (new_Component sc) (Wires g) eq_refl eq_refl)
      as (_ & _ & _ & _ & Hn' & Ho' & Hi').
    simpl in *. by rewrite Hn, Hi, Ho, Hn', Ho', Hi'.
Qed.

(** X5.  Every bucket of a registered component holds exactly the wires
    of the document that end in (for inputs) or leave (for outputs) that
    pin of that component, in document order; a pin without such a wire
    has no bucket. *)
Theorem wire_buckets_complete g j cid comp :
  components (init g) !! j = Some (cid, comp) →
  (∀ pid, default [] (od_get pid (input_wires comp)) = wires_into g cid pid) ∧
  (∀ pid, default [] (od_get pid (output_wires comp)) = wires_from g cid pid) ∧
  (∀ pid, od_get pid (input_wires comp) = None ↔ wires_into g cid pid = []) ∧
  (∀ pid, od_get pid (output_wires comp) = None ↔ wires_from g cid pid = []).
Proof.
  intros Hj.
  destruct (init_component_ok _ _ _ _ Hj) as (_ & [_ Hine] & [_ Houte]);
    simpl in Hine, Houte.
  destruct (init_components_lookup _ _ _ _ Hj) as (c0 & Hj0 & -> & _).
  pose proof (od_get_lookup _ _ _ _ (proj1 (wired_components_ok g)) Hj0) as Hg.
  rewrite wired_components_get in Hg.
  destruct (od_get cid (index_components (SubChips g))) as [cn|] eqn:Hcn; [|done].
  injection Hg as <-.
  destruct (foldl_od_set sub_ID new_Component (SubChips g)) as [Hcg _].
  unfold index_components in Hcn. rewrite Hcg in Hcn.
  destruct (last _) as [sc|]; [|done]. injection Hcn as <-.
  destruct (infer_component_fields (foldl (wire_update cid) (new_Component sc) (Wires g)))
    as (_ & _ & _ & Hiw & How).
  simpl in Hiw, How, Hine, Houte. rewrite Hiw in Hine |- *. rewrite How in Houte |- *.
  destruct (wire_updates_buckets cid (new_Component sc) (Wires g) eq_refl eq_refl)
    as (Hi & Ho & _).
  simpl in Hi, Ho. unfold wires_into, wires_from.
  assert (Hnone : ∀ (b : list (Z * list Wire)) pid,
    Forall (fun e => e.2 ≠ []) b →
    (od_get pid b = None ↔ default [] (od_get pid b) = [])).
  { intros b pid Hne. destruct (od_get pid b) as [ws|] eqn:Hb; [|done]. simpl.
    split; [done|]. intros ->. apply od_get_Some_elem in Hb.
    by eapply Forall_forall in Hne; [|done]. }
  split_and!; [done|done| |].
  - intros pid. by rewrite Hnone, Hi.
  - intros pid. by rewrite Hnone, Ho.
Qed.

Lemma wire_buckets_complete_witness :
  default [] (od_get 0 [(0, [mkWire 10 0 20 0])]) = wires_into ex_fanout 20 0.
Proof.
  pose proof (wire_buckets_complete ex_fanout 0 20
    (Build_Component "NOT" 20 [] [(0, [mkWire 10 0 20 0])] [] [(0, "in")] [])
    eq_refl) as (H & _).
  exact (H 0).
Defined.

(** X6.  The pins of a component are keyed in the order in which the wire
    list first mentions them, not by pin id. *)
Theorem wire_bucket_order g j cid comp :
  components (init g) !! j = Some (cid, comp) →
  od_keys (input_wires comp)
    = first_seen (target_pin_id <$> filter (fun w => target_owner_id w = cid) (Wires g)) ∧
  od_keys (output_wires comp)
    = first_seen (source_pin_id <$> filter (fun w => source_owner_id w = cid) (Wires g)).
Proof.
  intros Hj.
  destruct (init_components_lookup _ _ _ _ Hj) as (c0 & Hj0 & -> & _).
  pose proof (od_get_lookup _ _ _ _ (proj1 (wired_components_ok g)) Hj0) as Hg.
  rewrite wired_components_get in Hg.
  destruct (od_get cid (index_components (SubChips g))) as [cn|] eqn:Hcn; [|done].
  injection Hg as <-.
  destruct (foldl_od_set sub_ID new_Component (SubChips g)) as [Hcg _].
  unfold index_components in Hcn. rewrite Hcg in Hcn.
  destruct (last _) as [sc|]; [|done]. injection Hcn as <-.
  destruct (infer_component_fields (foldl (wire_update cid) (new_Component sc) (Wires g)))
    as (_ & _ & _ & Hiw & How).
  simpl in Hiw, How. rewrite Hiw, How.
  by destruct (wire_updates_buckets cid (new_Component sc) (Wires g) eq_refl eq_refl)
    as (_ & _ & Hi & Ho & _).
Qed.

Lemma wire_bucket_order_witness :
  od_keys [(7, [mkWire 1 0 10 7]); (2, [mkWire 1 1 10 2])]
  = first_seen (target_pin_id <$>
      filter (fun w => target_owner_id w = 10)
        [mkWire 1 0 10 7; mkWire 1 1 10 2]).
Proof.
  pose proof (wire_bucket_order
    {| Name := "And"; InputPins := [mkPin 1 "A" 2]; OutputPins := [];
       SubChips := [mkSub "AND" 10 []];
       Wires := [mkWire 1 0 10 7; mkWire 1 1 10 2] |} 0 10
    (Build_Component "AND" 10 [] [(7, [mkWire 1 0 10 7]); (2, [mkWire 1 1 10 2])]
       [] [(7, "a"); (2, "b")] [])
    eq_refl) as (H & _).
  exact H.
Defined.

(** ** The [IN] signature *)

Lemma occurrences_snoc nm pre (e : Z * Pin) :
  occurrences nm (pre ++ [e])
  = (occurrences nm pre + (if decide (lower (pin_Name e.2) = nm) then 1 else 0))%nat.
Proof.
  unfold occurrences. rewrite filter_app, length_app. f_equal.
  destruct (decide (lower (pin_Name e.2) = nm)).
  - by rewrite filter_cons_True.
  - by rewrite filter_cons_False.
Qed.

Lemma in_parts_lookup seen pre pins i pid pin :
  (∀ nm, seen !! nm =
         if decide (occurrences nm pre = 0%nat) then None
         else Some (Z.of_nat (occurrences nm pre))) →
  pins !! i = Some (pid, pin) →
  in_parts seen pins !! i
  = Some (signature_entry pin
            (occurrences (lower (pin_Name pin)) (pre ++ take i pins))).
Proof.
  revert seen pre i. induction pins as [|[pid0 pin0] pins IH];
    intros seen pre i Hseen Hi; [done|].
  destruct i as [|i]; simpl in Hi.
  - injection Hi as -> ->. rewrite take_0, app_nil_r.
    cbn [in_parts]. rewrite (Hseen (lower (pin_Name pin))).
    unfold signature_entry.
    destruct (decide (occurrences (lower (pin_Name pin)) pre = 0%nat)) as [Hz|Hc];
      simpl; [done|]. by rewrite Z.add_simpl_r.
  - cbn [in_parts take].
    replace (pre ++ (pid0, pin0) :: take i pins)
      with ((pre ++ [(pid0, pin0)]) ++ take i pins) by by rewrite <-app_assoc.
    set (name0 := lower (pin_Name pin0)).
    assert (Hnext : ∀ seen', seen' = <[name0 := Z.of_nat (occurrences name0 pre) + 1]> seen →
      ∀ nm, seen' !! nm =
        if decide (occurrences nm (pre ++ [(pid0, pin0)]) = 0%nat) then None
        else Some (Z.of_nat (occurrences nm (pre ++ [(pid0, pin0)])))).
    { intros seen' -> nm. rewrite occurrences_snoc. simpl. fold name0.
      destruct (decide (name0 = nm)) as [<-|Hne].
      - rewrite lookup_insert_eq, decide_False by lia. f_equal. lia.
      - rewrite lookup_insert_ne, Hseen, Nat.add_0_r by done. done. }
    pose proof (Hseen name0) as H0.
    destruct (seen !! name0) as [n|] eqn:Hn.
    + destruct (decide (occurrences name0 pre = 0%nat)); [done|].
      injection H0 as ->. simpl. apply IH; [by apply Hnext | done].
    + destruct (decide (occurrences name0 pre = 0%nat)) as [Hz|]; [|done].
      simpl. apply IH; [apply Hnext; by rewrite Hz | done].
Qed.

Lemma in_parts_length seen pins : length (in_parts seen pins) = length pins.
Proof.
  revert seen. induction pins as [|[pid pin] pins IH]; intros seen; [done|].
  cbn [in_parts]. destruct (seen !! _); simpl; by rewrite IH.
Qed.

(** X7.  In the [IN] signature the entry of an input pin is its lower-cased
    name, followed by the number of earlier registered pins with the same
    lower-cased name when there is one, followed by [[<BitCount>]] when the
    pin is wider than one bit; the signature lists every input pin once, in
    registry order. *)
Theorem in_signature_entries self i pid pin :
  input_pins self !! i = Some (pid, pin) →
  (_generate_hdl_signature self).1 = join ", " (in_parts ∅ (input_pins self)) ∧
  length (in_parts ∅ (input_pins self)) = length (input_pins self) ∧
  in_parts ∅ (input_pins self) !! i
  = Some (signature_entry pin
            (occurrences (lower (pin_Name pin)) (take i (input_pins self)))).
Proof.
  intros Hi. split_and!; [done|apply in_parts_length|].
  apply (in_parts_lookup ∅ [] _ _ pid); [|done].
  intros nm. by rewrite lookup_empty.
Qed.

Lemma in_signature_entries_witness :
  in_parts ∅ (input_pins (init ex_duplicate_names)) !! 1%nat = Some "in1".
Proof.
  pose proof (in_signature_entries (init ex_duplicate_names) 1 1 (mkPin 1 "IN" 1)
    eq_refl) as (_ & _ & H).
  exact H.
Defined.

(** ** Pin names by position *)

Lemma assign_names_get_last prefix expected idx pins names k (pid : Z) :
  pins !! k = Some pid → pid ∉ drop (S k) pins →
  od_get pid (assign_names prefix expected idx pins names)
  = Some (assigned_name prefix expected (idx + k)).
Proof.
  revert idx names k. induction pins as [|p pins IH]; intros idx names k Hk Hlast; [done|].
  simpl. destruct k as [|k]; simpl in Hk, Hlast.
  - injection Hk as ->. rewrite drop_0 in Hlast.
    rewrite assign_names_notin by done.
    rewrite od_get_set_eq. unfold assigned_name. by rewrite Nat.add_0_r.
  - rewrite (IH _ _ k) by done. do 2 f_equal. lia.
Qed.

Lemma assign_generic_notin prefix idx pins names (pid : Z) :
  pid ∉ pins →
  od_get pid (assign_generic prefix idx pins names) = od_get pid names.
Proof.
  revert idx names. induction pins as [|p pins IH]; intros idx names Hnot; simpl; [done|].
  apply not_elem_of_cons in Hnot as [Hne Hnot].
  rewrite IH by done. by apply od_get_set_ne.
Qed.

Lemma assign_generic_get prefix idx pins names k (pid : Z) :
  NoDup pins → pins !! k = Some pid →
  od_get pid (assign_generic prefix idx pins names)
  = Some (generic_name prefix (idx + k)).
Proof.
  revert idx names k. induction pins as [|p pins IH]; intros idx names k Hnd Hk; [done|].
  apply NoDup_cons in Hnd as [Hnot Hnd]. simpl. destruct k as [|k]; simpl in Hk.
  - injection Hk as ->. rewrite assign_generic_notin by done.
    rewrite od_get_set_eq. unfold generic_name. by rewrite Nat.add_0_r.
  - rewrite (IH _ _ k) by done. do 2 f_equal. lia.
Qed.

Lemma NoDup_lookup_not_later {A} (l : list A) k x :
  NoDup l → l !! k = Some x → x ∉ drop (S k) l.
Proof.
  intros Hnd Hk Hin. apply list_elem_of_lookup in Hin as [i Hi].
  rewrite lookup_drop in Hi.
  pose proof (NoDup_lookup _ _ _ _ Hnd Hk Hi). lia.
Qed.

(** The parameter emitted for a connected input pin is its inferred name. *)
Lemma emitted_input_param g j cid comp nm idx pid ws name :
  components (init g) !! j = Some (cid, comp) →
  norm_result (comp_name comp) = Some nm →
  input_wires comp !! idx = Some (pid, ws) →
  od_get pid (input_pin_names comp) = Some name →
  ∃ expr, emitted (pass_body g) j idx = Some (name, expr).
Proof.
  intros Hj Hnm Hidx Hname.
  destruct (init_component_ok _ _ _ _ Hj) as (_ & [_ Hne] & _); simpl in Hne.
  destruct ws as [|w ws].
  { eapply Forall_forall in Hne; [|by eapply list_elem_of_lookup_2]. done. }
  destruct (pass_input_connection _ _ _ _ _ _ _ _ _ Hj Hnm Hidx)
    as (si & conns & _ & _ & Hb & Hc & _).
  eexists. unfold emitted. by rewrite Hb, Hc, Hname.
Qed.

(** X8.  For a component of a catalog type, pin names follow position, not
    pin id: the connected input pin at first-seen position [idx] is named
    by the catalog's [idx]-th input (or [in<idx>] beyond the catalog) and
    emitted under that name; the output pin at position [idx] of the
    ordered output pins (the declared order, or first-seen order without
    one) is named by the catalog's [idx]-th output (or [out<idx>]), a pin
    listed twice taking the name of its last position. *)
Theorem catalog_pin_names g j cid comp nm spec :
  components (init g) !! j = Some (cid, comp) →
  norm_result (comp_name comp) = Some nm →
  HackChipAPI.get_chip_spec nm = Some spec →
  (∀ idx pid ws,
     input_wires comp !! idx = Some (pid, ws) →
     od_get pid (input_pin_names comp)
       = Some (assigned_name "in" (inputs spec) idx) ∧
     ∃ expr, emitted (pass_body g) j idx
             = Some (assigned_name "in" (inputs spec) idx, expr)) ∧
  (∀ idx pid,
     output_pin_ids_ordered comp !! idx = Some pid →
     pid ∉ drop (S idx) (output_pin_ids_ordered comp) →
     od_get pid (output_pin_names comp)
       = Some (assigned_name "out" (outputs spec) idx)).
Proof.
  intros Hj Hnm Hspec.
  destruct (init_components_lookup _ _ _ _ Hj)
    as (comp0 & _ & Hcomp & (_ & [Hnd _] & _) & Hnone & Hnone').
  destruct (infer_component_fields comp0) as (Hn & _ & Ho & Hiw & How).
  simpl in *. split.
  - intros idx pid ws Hidx.
    assert (Hname : od_get pid (input_pin_names comp)
                    = Some (assigned_name "in" (inputs spec) idx)).
    { subst comp. rewrite Hn in Hnm. rewrite Hiw in Hidx.
      rewrite (infer_input_names _ _ _ Hnm Hspec).
      rewrite (assign_names_get _ _ _ _ _ idx); [done|done|].
      unfold od_keys. by rewrite list_lookup_fmap, Hidx. }
    split; [done|]. by eapply emitted_input_param.
  - intros idx pid Hidx Hlast. subst comp. rewrite Hn in Hnm.
    assert (Hord : output_pin_ids_ordered (infer_component [] comp0).1
                   = output_pin_ids_ordered comp0).
    { unfold output_pin_ids_ordered. by rewrite Ho, How. }
    rewrite Hord in Hidx, Hlast.
    rewrite (infer_output_names _ _ _ Hnm Hspec).
    by rewrite (assign_names_get_last _ _ _ _ _ idx).
Qed.

Lemma catalog_pin_names_witness :
  od_get 7 [(7, "a"); (2, "b")] = Some (assigned_name "in" ["a"; "b"] 0).
Proof.
  pose proof (catalog_pin_names
    {| Name := "And"; InputPins := [mkPin 1 "A" 2]; OutputPins := [];
       SubChips := [mkSub "AND" 10 []];
       Wires := [mkWire 1 0 10 7; mkWire 1 1 10 2] |} 0 10
    (Build_Component "AND" 10 [] [(7, [mkWire 1 0 10 7]); (2, [mkWire 1 1 10 2])]
       [] [(7, "a"); (2, "b")] [])
    "And" {| inputs := ["a"; "b"]; outputs := ["out"] |}
    eq_refl eq_refl eq_refl) as (H & _).
  exact (proj1 (H 0%nat 7 [mkWire 1 0 10 7] eq_refl)).
Defined.

(** X9.  For a component whose type is not in the catalog, the connected
    pins are named from first-seen order alone: [in], [in1], [in2], ... for
    the input pins and [out], [out1], ... for the connected output pins,
    whatever output order the component declares. *)
Theorem generic_pin_names g j cid comp nm :
  components (init g) !! j = Some (cid, comp) →
  norm_result (comp_name comp) = Some nm →
  HackChipAPI.get_chip_spec nm = None →
  (∀ idx pid ws,
     input_wires comp !! idx = Some (pid, ws) →
     od_get pid (input_pin_names comp) = Some (generic_name "in" idx) ∧
     ∃ expr, emitted (pass_body g) j idx = Some (generic_name "in" idx, expr)) ∧
  (∀ idx pid ws,
     output_wires comp !! idx = Some (pid, ws) →
     od_get pid (output_pin_names comp) = Some (generic_name "out" idx)).
Proof.
  intros Hj Hnm Hspec.
  destruct (init_components_lookup _ _ _ _ Hj)
    as (comp0 & _ & Hcomp & (_ & [Hndi _] & [Hndo _]) & Hnone & Hnone').
  destruct (infer_component_fields comp0) as (Hn & _ & Ho & Hiw & How).
  simpl in *.
  assert (Hnames :
    input_pin_names comp
      = assign_generic "in" 0 (od_keys (input_wires comp0)) [] ∧
    output_pin_names comp
      = assign_generic "out" 0 (od_keys (output_wires comp0)) []).
  { subst comp. rewrite Hn in Hnm. unfold infer_component.
    rewrite normalize_split, Hnm. simpl. rewrite Hspec. simpl.
    by rewrite Hnone, Hnone'. }
  destruct Hnames as [Hin Hout]. split.
  - intros idx pid ws Hidx.
    assert (Hname : od_get pid (input_pin_names comp) = Some (generic_name "in" idx)).
    { rewrite Hin. subst comp. rewrite Hiw in Hidx.
      rewrite (assign_generic_get _ _ _ _ idx); [done|done|].
      unfold od_keys. by rewrite list_lookup_fmap, Hidx. }
    split; [done|]. by eapply emitted_input_param.
  - intros idx pid ws Hidx. rewrite Hout. subst comp. rewrite How in Hidx.
    rewrite (assign_generic_get _ _ _ _ idx); [done|done|].
    unfold od_keys. by rewrite list_lookup_fmap, Hidx.
Qed.

Lemma generic_pin_names_witness :
  od_get 2 [(7, "in"); (2, "in1")] = Some (generic_name "in" 1).
Proof.
  pose proof (generic_pin_names
    {| Name := "And"; InputPins := [mkPin 1 "A" 2]; OutputPins := [];
       SubChips := [mkSub "MyChip" 10 []];
       Wires := [mkWire 1 0 10 7; mkWire 1 1 10 2] |} 0 10
    (Build_Component "MyChip" 10 [] [(7, [mkWire 1 0 10 7]); (2, [mkWire 1 1 10 2])]
       [] [(7, "in"); (2, "in1")] [])
    "MyChip" eq_refl eq_refl eq_refl) as (H & _).
  exact (proj1 (H 1%nat 2 [mkWire 1 1 10 2] eq_refl)).
Defined.

(** ** The shape of the [PARTS:] section *)

Lemma output_connections_length cid comp pids s conns s' :
  output_connections s cid comp pids = (conns, s') →
  length conns = length (filter (fun q => od_mem q (output_wires comp)) pids).
Proof.
  revert s conns. induction pids as [|q pids IH]; intros s conns; simpl.
  - by intros [= <- _].
  - destruct (od_get q (output_wires comp)) as [ws|] eqn:Hq.
    + rewrite filter_cons_True by (unfold od_mem; by rewrite Hq).
      destruct (output_wire_name s cid q ws) as [nm s1].
      destruct (output_connections s1 cid comp pids) as [cs s2] eqn:H2.
      intros [= <- <-]. simpl. f_equal. by eapply IH.
    + rewrite filter_cons_False by (unfold od_mem; rewrite Hq; simpl; tauto).
      apply IH.
Qed.

(** X10.  The [PARTS:] section has one entry per registered component, at
    the component's registry position.  A component of a removed type gets
    the [SKIPPED] comment and no pin names.  Any other component gets its
    normalised type with a parameter list made of two parts in this order:
    first one parameter per connected input pin, in the order of the
    component's input buckets and under the pin's inferred name, then one
    parameter per connected pin of its ordered output pins, in that order
    and under the pin's inferred name; when both parts are empty the entry
    is the no-connections comment. *)
Theorem statement_shape g j cid comp :
  components (init g) !! j = Some (cid, comp) →
  length (pass_body g) = length (components (init g)) ∧
  match norm_result (comp_name comp) with
  | None =>
      pass_body g !! j = Some (Skipped (comp_name comp)) ∧
      input_pin_names comp = [] ∧ output_pin_names comp = []
  | Some nm =>
      ∃ ins outs,
        ins.*1 = input_params comp ∧
        outs.*1 = output_params comp ∧
        length (ins ++ outs) =
          (length (input_wires comp)
           + length (filter (fun q => od_mem q (output_wires comp))
                       (output_pin_ids_ordered comp)))%nat ∧
        pass_body g !! j =
          Some (match ins ++ outs with
                | [] => NoConnections nm
                | _ :: _ => Part nm (ins ++ outs)
                end)
  end.
Proof.
  intros Hj. split; [apply pass_body_length|].
  destruct (norm_result (comp_name comp)) as [nm|] eqn:Hnm.
  - destruct (pass_statement_params _ _ _ _ _ Hj Hnm) as (ins & outs & Hi & Ho & Hb).
    exists ins, outs. split_and!; [done|done| |done].
    rewrite length_app.
    rewrite <-(length_fmap fst ins), <-(length_fmap fst outs), Hi, Ho.
    unfold input_params, output_params. by rewrite !length_fmap.
  - assert (Hline : ∃ sj, pass_body g !! j = Some (component_line sj cid comp).1).
    { unfold pass_body.
      destruct (component_lines (init g) (components (init g))) as [lines sf] eqn:Hl.
      destruct (component_lines_lookup _ _ _ _ _ _ _ Hl Hj) as (sj & _ & _ & Hline & _).
      by exists sj. }
    destruct Hline as [sj ->]. unfold component_line. rewrite normalize_split, Hnm.
    split; [done|].
    destruct (init_components_lookup _ _ _ _ Hj)
      as (comp0 & _ & -> & _ & Hnone & Hnone').
    destruct (infer_component_fields comp0) as (Hn & _).
    simpl in Hn. rewrite Hn in Hnm.
    unfold infer_component. rewrite normalize_split, Hnm. by simpl.
Qed.

Lemma statement_shape_witness :
  ∃ ins outs,
    ins.*1 = ["in"] ∧ outs.*1 = ["a"] ∧
    pass_body ex_undeclared_output !! 0%nat = Some (Part "DMux" (ins ++ outs)).
Proof.
  pose proof (statement_shape ex_undeclared_output 0 10
    (Build_Component "DMUX" 10 [0] [(0, [mkWire 1 0 10 0])]
       [(0, [mkWire 10 0 5 0]); (1, [mkWire 10 1 20 0])]
       [(0, "in")] [(0, "a")]) eq_refl) as (_ & ins & outs & Hi & Ho & _ & Hb).
  exists ins, outs. split_and!; [exact Hi | exact Ho |].
  rewrite Hb. destruct ins; [discriminate Hi | reflexivity].
Defined.

(** ** The identifier table *)

Section table_invariant.
Variable I : FixedConverter → Prop.
Hypothesis I_create : ∀ s c p,
  I s → od_mem c (components s) = true → I (_get_or_create_wire_name s c p).2.
Hypothesis I_warnings : ∀ s ws, I s → I (set_warnings s ws).

Lemma wire_source_name_invariant s w : I s → I (_get_wire_source_name s w).2.
Proof using I_create.
  intros Hs. unfold _get_wire_source_name.
  destruct (od_get _ (input_pins s)); [by destruct (_ && _)|].
  destruct (od_mem _ _) eqn:Hm; [by apply I_create | done].
Qed.

Lemma output_wire_name_invariant s cid pid ws :
  I s → od_mem cid (components s) = true → I (output_wire_name s cid pid ws).2.
Proof using I_create.
  intros Hs Hm. unfold output_wire_name.
  destruct (existsb _ _); [|by apply I_create].
  destruct (chip_name s ≫= HackChipAPI.get_chip_spec) as [spec|],
    (first_output_pin s ws) as [op|]; try by apply I_create.
  - destruct (outputs spec !! _); [done | by apply I_create].
  - done.
Qed.

Lemma input_connections_invariant comp pins s :
  I s → I (input_connections s comp pins).2.
Proof using I_create.
  revert s. induction pins as [|[pid [|w ws]] pins IH]; intros s Hs; simpl; [done|auto|].
  pose proof (wire_source_name_invariant s w Hs) as H1.
  destruct (_get_wire_source_name s w) as [nm s1]. simpl in H1.
  specialize (IH s1 H1). by destruct (input_connections s1 comp pins).
Qed.

Lemma output_connections_invariant cid comp pids s :
  I s → od_mem cid (components s) = true →
  I (output_connections s cid comp pids).2.
Proof using I_create.
  revert s. induction pids as [|pid pids IH]; intros s Hs Hm; simpl; [done|].
  destruct (od_get pid (output_wires comp)) as [ws|]; [|auto].
  pose proof (output_wire_name_invariant s cid pid ws Hs Hm) as H1.
  destruct (output_wire_name s cid pid ws) as [nm s1] eqn:Hrun. simpl in H1.
  apply output_wire_name_evolves in Hrun as [[(_ & _ & _ & _ & Hc & _) _] _].
  rewrite <-Hc in Hm. specialize (IH s1 H1 Hm).
  by destruct (output_connections s1 cid comp pids).
Qed.

Lemma component_line_invariant s cid comp :
  I s → od_mem cid (components s) = true → I (component_line s cid comp).2.
Proof using I_create I_warnings.
  intros Hs Hm. unfold component_line. rewrite normalize_split.
  set (s0 := set_warnings s _).
  assert (H0 : I s0) by by apply I_warnings.
  destruct (norm_result _) as [nm|]; [|done].
  pose proof (input_connections_invariant comp (input_wires comp) s0 H0) as H1.
  destruct (input_connections s0 comp _) as [ins s1] eqn:Hrun. simpl in H1.
  apply input_connections_evolves in Hrun as [[(_ & _ & _ & _ & Hc & _) _] _].
  assert (Hm1 : od_mem cid (components s1) = true) by by rewrite Hc.
  pose proof (output_connections_invariant cid comp
                (output_pin_ids_ordered comp) s1 H1 Hm1) as H2.
  destruct (output_connections s1 cid comp _) as [outs s2]. simpl in H2.
  by destruct (ins ++ outs).
Qed.

Lemma component_lines_invariant comps s :
  I s → Forall (fun c => od_mem c.1 (components s) = true) comps →
  I (component_lines s comps).2.
Proof using I_create I_warnings.
  revert s. induction comps as [|[cid comp] comps IH]; intros s Hs Hall; simpl; [done|].
  apply Forall_cons in Hall as [Hm Hall]. simpl in Hm.
  pose proof (component_line_invariant s cid comp Hs Hm) as H1.
  destruct (component_line s cid comp) as [l s1] eqn:Hrun. simpl in H1.
  apply component_line_spec in Hrun as ([(_ & _ & _ & _ & Hc & _) _] & _).
  assert (Hall1 : Forall (fun c => od_mem c.1 (components s1) = true) comps)
    by by rewrite Hc.
  specialize (IH s1 H1 Hall1). by destruct (component_lines s1 comps).
Qed.

End table_invariant.

Lemma registry_keys_registered (comps : list (Z * Component)) :
  Forall (fun c => od_mem c.1 comps = true) comps.
Proof.
  apply Forall_forall. intros [k c] Hin. apply od_mem_keys.
  apply list_elem_of_fmap. by exists (k, c).
Qed.

Lemma pass_final_table g :
  components (pass_final g) = components (init g) ∧
  (∀ owner pin nm,
     wire_name_map (pass_final g) !! (owner, pin) = Some nm →
     od_mem owner (components (pass_final g)) = true) ∧
  wire_counter (pass_final g) = Z.of_nat (size (wire_name_map (pass_final g))).
Proof.
  set (I := fun s : FixedConverter =>
    components s = components (init g) ∧
    (∀ owner pin nm, wire_name_map s !! (owner, pin) = Some nm →
                     od_mem owner (components s) = true) ∧
    wire_counter s = Z.of_nat (size (wire_name_map s))).
  change (I (pass_final g)).
  unfold pass_final. apply component_lines_invariant.
  - intros s c p (Hc & Hown & Hsize) Hm. unfold I, _get_or_create_wire_name.
    destruct (wire_name_map s !! (c, p)) eqn:Hk; [done|]. simpl.
    split_and!; [done| |].
    + intros owner pin nm. rewrite lookup_insert. case_decide as Heq.
      * injection Heq as <- <-. done.
      * eauto.
    + rewrite map_size_insert_None by done. lia.
  - intros s ws H. exact H.
  - unfold I. split_and!; [done| |].
    + intros owner pin nm Hk. exfalso. revert Hk.
      unfold init. rewrite normalize_split. rewrite infer_pin_names_split.
      simpl. by rewrite lookup_empty.
    + unfold init. rewrite normalize_split. by rewrite infer_pin_names_split.
  - apply registry_keys_registered.
Qed.

(** X11.  Identifiers are only ever allocated to pins of registered
    components, never to a top-level pin or an unknown owner, and the
    counter is the number of identifiers in the table. *)
Theorem identifier_table_sound g :
  (∀ owner pin nm,
     wire_name_map (pass_final g) !! (owner, pin) = Some nm →
     od_mem owner (components (init g)) = true) ∧
  wire_counter (pass_final g) = Z.of_nat (size (wire_name_map (pass_final g))).
Proof.
  destruct (pass_final_table g) as (Hc & Hown & Hsize). split; [|done].
  intros owner pin nm Hk. rewrite <-Hc. eauto.
Qed.

(** ** Calling [convert] again, and after [generate_report] *)

Lemma convert_state s : (convert s).2 = (component_lines s (components s)).2.
Proof.
  unfold convert. destruct (_generate_hdl_signature s).
  by destruct (component_lines s (components s)).
Qed.

(** X12.  A second [convert] on the same converter prints the same module
    and leaves the identifier table and its counter as they were; only the
    warnings grow, by one more round of the normaliser's warnings. *)
Theorem convert_rerun g :
  let first := convert (init g) in
  let second := convert first.2 in
  second.1 = first.1 ∧
  wire_name_map second.2 = wire_name_map first.2 ∧
  wire_counter second.2 = wire_counter first.2 ∧
  warnings second.2 =
    warnings first.2 ++
    flat_map (fun c => norm_warnings (comp_name c.2)) (components (init g)).
Proof.
  simpl. split; [apply convert_rerun_text|].
  rewrite !convert_state.
  destruct (component_lines (init g) (components (init g))) as [ls sf] eqn:H1.
  pose proof (component_lines_spec _ _ _ _ H1) as ([Henv _] & _).
  pose proof (pass_final_table g) as (_ & _ & Hsize).
  unfold pass_final in Hsize. rewrite H1 in Hsize. simpl in *.
  destruct (replay_component_lines _ _ sf _ _ H1 Henv) as (s2 & H2 & _ & Hmap); [done|].
  assert (Hcomps : components sf = components (init g)) by apply Henv.
  rewrite Hcomps, H2. simpl.
  pose proof (component_lines_spec _ _ _ _ H2) as (_ & _ & Hw & _).
  split_and!; [done| |done].
  set (I := fun s : FixedConverter =>
    wire_counter s = Z.of_nat (size (wire_name_map s))).
  assert (Hs2 : I s2).
  { replace s2 with (component_lines sf (components (init g))).2 by by rewrite H2.
    apply component_lines_invariant.
    - intros s c p Hs _. unfold I, _get_or_create_wire_name.
      destruct (wire_name_map s !! (c, p)) eqn:Hk; [done|]. simpl.
      rewrite map_size_insert_None by done. unfold I in Hs. lia.
    - intros s ws H. exact H.
    - exact Hsize.
    - rewrite <-Hcomps. apply registry_keys_registered. }
  unfold I in Hs2. by rewrite Hs2, Hsize, Hmap.
Qed.

Lemma get_or_create_set_warnings s ws c p :
  _get_or_create_wire_name (set_warnings s ws) c p
  = ((_get_or_create_wire_name s c p).1,
     set_warnings (_get_or_create_wire_name s c p).2 ws).
Proof.
  unfold _get_or_create_wire_name. simpl.
  by destruct (wire_name_map s !! (c, p)).
Qed.

Lemma wire_source_name_set_warnings s ws w :
  _get_wire_source_name (set_warnings s ws) w
  = ((_get_wire_source_name s w).1, set_warnings (_get_wire_source_name s w).2 ws).
Proof.
  unfold _get_wire_source_name, input_pin_reference. simpl.
  destruct (od_get _ (input_pins s)); [by destruct (_ && _)|].
  destruct (od_mem _ _); [apply get_or_create_set_warnings | done].
Qed.

Lemma output_wire_name_set_warnings s ws cid pid wires :
  output_wire_name (set_warnings s ws) cid pid wires
  = ((output_wire_name s cid pid wires).1,
     set_warnings (output_wire_name s cid pid wires).2 ws).
Proof.
  unfold output_wire_name.
  rewrite (first_output_pin_env s (set_warnings s ws) wires eq_refl). simpl.
  destruct (existsb _ _); [|apply get_or_create_set_warnings].
  destruct (chip_name s ≫= HackChipAPI.get_chip_spec) as [spec|],
    (first_output_pin s wires) as [op|];
    try apply get_or_create_set_warnings; [|done].
  destruct (outputs spec !! _); [done | apply get_or_create_set_warnings].
Qed.

Lemma input_connections_set_warnings comp pins s ws :
  input_connections (set_warnings s ws) comp pins
  = ((input_connections s comp pins).1,
     set_warnings (input_connections s comp pins).2 ws).
Proof.
  revert s. induction pins as [|[pid [|w wires]] pins IH]; intros s; simpl; [done|apply IH|].
  rewrite wire_source_name_set_warnings.
  destruct (_get_wire_source_name s w) as [nm s1]. simpl. rewrite IH.
  by destruct (input_connections s1 comp pins).
Qed.

Lemma output_connections_set_warnings cid comp pids s ws :
  output_connections (set_warnings s ws) cid comp pids
  = ((output_connections s cid comp pids).1,
     set_warnings (output_connections s cid comp pids).2 ws).
Proof.
  revert s. induction pids as [|pid pids IH]; intros s; simpl; [done|].
  destruct (od_get pid (output_wires comp)) as [wires|]; [|apply IH].
  rewrite output_wire_name_set_warnings.
  destruct (output_wire_name s cid pid wires) as [nm s1]. simpl. rewrite IH.
  by destruct (output_connections s1 cid comp pids).
Qed.

Lemma component_line_set_warnings s ws cid comp :
  component_line (set_warnings s ws) cid comp
  = ((component_line s cid comp).1,
     set_warnings (component_line s cid comp).2
       (ws ++ norm_warnings (comp_name comp))).
Proof.
  unfold component_line. rewrite !normalize_split. simpl.
  destruct (norm_result (comp_name comp)) as [nm|]; [|done].
  change (set_warnings (set_warnings s ws) (ws ++ norm_warnings (comp_name comp)))
    with (set_warnings s (ws ++ norm_warnings (comp_name comp))).
  rewrite (input_connections_set_warnings comp _ s (ws ++ _)).
  rewrite (input_connections_set_warnings comp _ s (warnings s ++ _)).
  destruct (input_connections s comp (input_wires comp)) as [ins s1]. simpl.
  rewrite (output_connections_set_warnings cid comp _ s1 (ws ++ _)).
  rewrite (output_connections_set_warnings cid comp _ s1 (warnings s ++ _)).
  destruct (output_connections s1 cid comp _) as [outs s2]. simpl.
  by destruct (ins ++ outs).
Qed.

Lemma component_lines_set_warnings comps s ws :
  component_lines (set_warnings s ws) comps
  = ((component_lines s comps).1,
     set_warnings (component_lines s comps).2
       (ws ++ flat_map (fun c => norm_warnings (comp_name c.2)) comps)).
Proof.
  revert s ws. induction comps as [|[cid comp] comps IH]; intros s ws; simpl.
  - rewrite app_nil_r. done.
  - rewrite component_line_set_warnings.
    pose proof (component_line_spec s cid comp) as Hspec.
    destruct (component_line s cid comp) as [l s1]. simpl.
    destruct (Hspec _ _ eq_refl) as (_ & _ & Hw).
    replace s1 with (set_warnings s1 (warnings s1)) at 2 3 by by destruct s1.
    rewrite !IH. destruct (component_lines s1 comps) as [ls s2]. simpl.
    by rewrite <-!app_assoc.
Qed.

Lemma report_components_warnings comps ws :
  (report_components ws comps).2
  = ws ++ flat_map (fun c => norm_warnings (comp_name c.2)) comps.
Proof.
  revert ws. induction comps as [|[cid comp] comps IH]; intros ws; simpl.
  - by rewrite app_nil_r.
  - unfold report_component. rewrite normalize_split.
    specialize (IH (ws ++ norm_warnings (comp_name comp))).
    destruct (report_components _ comps) as [more ws']. simpl in *.
    by rewrite IH, <-app_assoc.
Qed.

Lemma generate_report_state s :
  (generate_report s).2
  = set_warnings s
      (warnings s ++ flat_map (fun c => norm_warnings (comp_name c.2)) (components s)).
Proof.
  unfold generate_report.
  pose proof (report_components_warnings (components s) (warnings s)) as H.
  destruct (report_components (warnings s) (components s)) as [ls ws].
  simpl in *. by rewrite H.
Qed.

Lemma convert_set_warnings s ws :
  (convert (set_warnings s ws)).1 = (convert s).1 ∧
  (convert (set_warnings s ws)).2
  = set_warnings (convert s).2
      (ws ++ flat_map (fun c => norm_warnings (comp_name c.2)) (components s)).
Proof.
  unfold convert, _generate_hdl_signature. simpl.
  rewrite component_lines_set_warnings.
  by destruct (component_lines s (components s)).
Qed.

(** X13.  Printing the report before converting, as [main] does, does not
    change the module text nor the identifier table; it only adds one more
    round of the normaliser's warnings, so that a removed component ends up
    with three warnings in the list whose length [main] prints. *)
Theorem report_then_convert g :
  let '(report, hdl, converter) := main_run g in
  hdl = (lower_pass g).1 ∧
  wire_name_map converter = wire_name_map (pass_final g) ∧
  wire_counter converter = wire_counter (pass_final g) ∧
  warnings converter =
    (warnings (init g) ++
     flat_map (fun c => norm_warnings (comp_name c.2)) (components (init g))) ++
    flat_map (fun c => norm_warnings (comp_name c.2)) (components (init g)) ∧
  length (filter is_ChipRemoved (warnings converter)) =
    ((match chip_name (init g) with None => 1 | Some _ => 0 end) +
     3 * length (filter is_removed (components (init g))))%nat.
Proof.
  unfold main_run.
  pose proof (generate_report_state (init g)) as Hrep.
  destruct (generate_report (init g)) as [report s1]. simpl in Hrep. subst s1.
  pose proof (convert_set_warnings (init g)
    (warnings (init g) ++
     flat_map (fun c => norm_warnings (comp_name c.2)) (components (init g))))
    as [Htext Hstate].
  destruct (convert (set_warnings (init g) _)) as [hdl s2]. simpl in Htext, Hstate.
  assert (Hlow : (lower_pass g).1 = (convert (init g)).1).
  { unfold lower_pass. by destruct (convert (init g)). }
  assert (Hfin : (convert (init g)).2 = pass_final g) by apply convert_state.
  rewrite Hfin in Hstate. subst s2. simpl.
  split_and!; [congruence|done|done|done|].
  rewrite init_warnings_eq, !filter_app, !length_app.
  rewrite !count_removed_norm, count_removed_infer, norm_warnings_removed.
  rewrite init_chip_name. destruct (norm_result (Name g)); lia.
Qed.

(** X14.  A component whose name cleans to the empty string (a name made
    of separators only) is shown as [[SKIP] ... SKIPPED] by the report,
    without its pin names, although [convert] does not skip it: its entry
    is a statement or a no-connections comment with an empty type name. *)
Theorem report_skips_empty_type ws s cid comp :
  clean_chip_name (comp_name comp) = "" →
  norm_result (comp_name comp) = Some "" ∧
  (report_component ws cid comp).1 =
    ["  [SKIP] " +:+ comp_name comp +:+ " -> SKIPPED [ID: " +:+ pretty cid +:+ "]"] ∧
  (component_line s cid comp).1 ≠ Skipped (comp_name comp) ∧
  ((∃ conns, (component_line s cid comp).1 = Part "" conns) ∨
   (component_line s cid comp).1 = NoConnections "").
Proof.
  intros Hclean.
  assert (Hnorm : norm_result (comp_name comp) = Some "").
  { unfold norm_result, _normalize_chip_name. by rewrite Hclean. }
  split; [done|]. split.
  - unfold report_component. rewrite normalize_split, Hnorm. done.
  - unfold component_line. rewrite normalize_split, Hnorm.
    destruct (input_connections _ comp _) as [ins s1].
    destruct (output_connections s1 cid comp _) as [outs s2].
    destruct (ins ++ outs) as [|c conns]; simpl; split; try done; eauto.
Qed.

Lemma report_skips_empty_type_witness :
  (report_component [] 10 (new_Component (mkSub "_-_" 10 []))).1
  = ["  [SKIP] _-_ -> SKIPPED [ID: 10]"] ∧
  (component_line (init ex_bus) 10 (new_Component (mkSub "_-_" 10 []))).1
  = NoConnections "".
Proof.
  pose proof (report_skips_empty_type [] (init ex_bus) 10
    (new_Component (mkSub "_-_" 10 [])) eq_refl) as (_ & H & _).
  split; [exact H | reflexivity].
Defined.

(** ** When the wire resolver agrees with the signature *)

Lemma sorted_of_sorted l : StronglySorted Z.lt l → sorted l = l.
Proof.
  unfold sorted. induction 1 as [|x l Hl IH Hx]; simpl; [done|].
  rewrite IH. destruct l as [|y r]; [done|]. simpl.
  apply Forall_cons in Hx as [Hxy _].
  by rewrite (proj2 (Z.leb_le x y)) by lia.
Qed.

Lemma filter_length_ext {A} (P Q : A → Prop)
    `{∀ x, Decision (P x)} `{∀ x, Decision (Q x)} (l : list A) :
  (∀ x, x ∈ l → P x ↔ Q x) → length (filter P l) = length (filter Q l).
Proof.
  induction l as [|x l IH]; intros Hext; [done|].
  assert (Hx : P x ↔ Q x) by (apply Hext, elem_of_cons; by left).
  assert (Hl : length (filter P l) = length (filter Q l)).
  { apply IH. intros y Hy. apply Hext, elem_of_cons. by right. }
  destruct (decide (P x)) as [HP|HP].
  - rewrite !filter_cons_True by tauto. simpl. by rewrite Hl.
  - rewrite !filter_cons_False by tauto. done.
Qed.

Lemma filter_values {V} (P : V → Prop) `{∀ x, Decision (P x)} (l : list (Z * V)) :
  filter P (od_values l) = od_values (filter (fun e => P e.2) l).
Proof.
  unfold od_values. induction l as [|[k v] l IH]; [done|]. csimpl.
  destruct (decide (P v)).
  - rewrite !filter_cons_True by done. csimpl. by rewrite IH.
  - rewrite !filter_cons_False by done. done.
Qed.

Lemma index_of_filter {A} (f : A → Z) (P : A → Prop) `{∀ x, Decision (P x)}
    (l : list A) i x :
  NoDup (f <$> l) → l !! i = Some x → P x →
  index_of (f x) (f <$> filter P l) = length (filter P (take i l)).
Proof.
  revert i. induction l as [|y l IH]; intros i Hnd Hi HP; [done|].
  csimpl in Hnd. apply NoDup_cons in Hnd as [Hy Hnd].
  destruct i as [|i]; simpl in Hi.
  - injection Hi as ->. rewrite filter_cons_True by done. csimpl.
    by rewrite decide_True.
  - assert (Hne : f y ≠ f x).
    { intros Heq. apply Hy. rewrite Heq. apply list_elem_of_fmap.
      exists x. split; [done|]. by eapply list_elem_of_lookup_2. }
    cbn [take]. destruct (decide (P y)).
    + rewrite !filter_cons_True by done. csimpl.
      rewrite decide_False by done. f_equal. by apply IH.
    + rewrite !filter_cons_False by done. by apply IH.
Qed.

Lemma filter_take_length {A} (P : A → Prop) `{∀ x, Decision (P x)} (l : list A) i x :
  l !! i = Some x → P x →
  (length (filter P (take i l)) < length (filter P l))%nat.
Proof.
  intros Hi HP. rewrite <-(take_drop_middle l i x Hi) at 2.
  rewrite filter_app, length_app, filter_cons_True by done. simpl. lia.
Qed.

Lemma pretty_nat_Z (n : nat) : pretty (Z.of_nat n) = pretty n.
Proof. by destruct n. Qed.

Lemma StronglySorted_lt_NoDup l : StronglySorted Z.lt l → NoDup l.
Proof.
  induction 1 as [|x l Hl IH Hx]; constructor; [|done].
  intros Hin. eapply Forall_forall in Hx; [|done]. lia.
Qed.

Lemma StronglySorted_fmap_filter {A} (f : A → Z) (P : A → Prop)
    `{∀ x, Decision (P x)} (l : list A) :
  StronglySorted Z.lt (f <$> l) → StronglySorted Z.lt (f <$> filter P l).
Proof.
  induction l as [|x l IH]; [done|]. csimpl.
  intros [Hl Hx]%StronglySorted_inv.
  destruct (decide (P x)).
  - rewrite filter_cons_True by done. csimpl. constructor; [by apply IH|].
    apply Forall_forall. intros y [z [-> Hz]]%list_elem_of_fmap.
    apply list_elem_of_filter in Hz as [_ Hz].
    eapply Forall_forall in Hx; [done|]. apply list_elem_of_fmap. by exists z.
  - rewrite filter_cons_False by done. by apply IH.
Qed.

Lemma index_pins_keys_are_ids pins e :
  NoDup (od_keys (index_pins pins)) → e ∈ index_pins pins → pin_ID e.2 = e.1.
Proof.
  intros Hnd Hin. destruct e as [k p]. simpl.
  apply list_elem_of_lookup in Hin as [j Hj].
  pose proof (od_get_lookup _ _ _ _ Hnd Hj) as Hg.
  destruct (foldl_od_set pin_ID (fun p => p) pins) as [Hlast _].
  unfold index_pins in Hg. rewrite Hlast in Hg.
  destruct (last _) as [q|] eqn:Hq; [|done]. injection Hg as ->.
  apply last_Some_elem_of in Hq. by apply list_elem_of_filter in Hq as [? _].
Qed.

(** X15.  When the input pins are registered in ascending id order and pins
    whose names agree up to case agree exactly, the name the wire resolver
    uses for an input pin is the one the [IN] signature declares for it:
    the signature entry is that name, with the [[<BitCount>]] suffix for a
    bus. *)
Theorem reference_matches_signature g i pid pin :
  input_pins (init g) !! i = Some (pid, pin) →
  StronglySorted Z.lt (od_keys (input_pins (init g))) →
  (∀ e e', e ∈ input_pins (init g) → e' ∈ input_pins (init g) →
           lower (pin_Name e.2) = lower (pin_Name e'.2) →
           pin_Name e.2 = pin_Name e'.2) →
  let ref := input_pin_reference (init g) pin in
  in_parts ∅ (input_pins (init g)) !! i
  = Some (if 1 <? pin_BitCount pin
          then ref +:+ "[" +:+ pretty (pin_BitCount pin) +:+ "]"
          else ref).
Proof.
  intros Hi Hsorted Hcase ref.
  rewrite (in_parts_lookup ∅ [] _ _ pid pin (fun nm => lookup_empty nm) Hi).
  rewrite app_nil_l. f_equal. unfold signature_entry.
  assert (Href : ref =
    let name := lower (pin_Name pin) in
    let c := occurrences name (take i (input_pins (init g))) in
    if decide (c = 0%nat) then name else name +:+ pretty (Z.of_nat c));
    [|by rewrite Href].
  assert (Hpins : input_pins (init g) = index_pins (InputPins g)).
  { unfold init. rewrite normalize_split. by rewrite infer_pin_names_split. }
  pose proof (StronglySorted_lt_NoDup _ Hsorted) as Hnd.
  assert (Hids : ∀ e, e ∈ input_pins (init g) → pin_ID e.2 = e.1).
  { intros e He. rewrite Hpins in Hnd, He. by eapply index_pins_keys_are_ids. }
  set (pins := input_pins (init g)) in *.
  set (P := fun e : Z * Pin => pin_Name e.2 = pin_Name pin).
  assert (Hkeys : (fun e : Z * Pin => pin_ID e.2) <$> pins = od_keys pins).
  { unfold od_keys. apply list_fmap_ext. intros j e He.
    apply Hids. by eapply list_elem_of_lookup_2. }
  assert (Hsame : pin_ID <$> filter (fun p => pin_Name p = pin_Name pin) (od_values pins)
                  = (fun e : Z * Pin => pin_ID e.2) <$> filter P pins).
  { rewrite filter_values. unfold od_values. by rewrite <-list_fmap_compose. }
  assert (Hsub : StronglySorted Z.lt ((fun e : Z * Pin => pin_ID e.2) <$> filter P pins)).
  { apply StronglySorted_fmap_filter. by rewrite Hkeys. }
  assert (Hin : (pid, pin) ∈ pins) by by eapply list_elem_of_lookup_2.
  assert (HPpin : P (pid, pin)) by done.
  assert (Hcount : length (filter P (take i pins))
                   = occurrences (lower (pin_Name pin)) (take i pins)).
  { unfold occurrences. apply filter_length_ext. intros e He.
    assert (e ∈ pins) by (eapply elem_of_submseteq; [done|];
                          apply sublist_submseteq, sublist_take).
    unfold P. split; [by intros -> | intros Hl; by apply (Hcase e (pid, pin))]. }
  subst ref. unfold input_pin_reference. fold pins. cbv zeta.
  rewrite Hsame, (sorted_of_sorted _ Hsub).
  rewrite (index_of_filter (fun e : Z * Pin => pin_ID e.2) P pins i (pid, pin));
    [|by rewrite Hkeys|done|done].
  rewrite filter_values. unfold od_values. rewrite length_fmap. fold P.
  rewrite Hcount.
  pose proof (filter_take_length P pins i (pid, pin) Hi HPpin) as Hlt.
  rewrite Hcount in Hlt.
  set (c := occurrences (lower (pin_Name pin)) (take i pins)) in *.
  destruct (decide (c = 0%nat)) as [->|Hc].
  - simpl. by destruct (1 <? length (filter P pins))%nat.
  - rewrite (proj2 (Nat.ltb_lt 1 (length (filter P pins)))) by lia.
    rewrite (proj2 (Nat.ltb_lt 0 c)) by lia. by rewrite pretty_nat_Z.
Qed.

Lemma reference_matches_signature_witness :
  in_parts ∅ (input_pins (init ex_duplicate_names_in_order)) !! 1%nat
  = Some (input_pin_reference (init ex_duplicate_names_in_order) (mkPin 2 "IN" 1)).
Proof.
  apply (reference_matches_signature ex_duplicate_names_in_order 1 2 (mkPin 2 "IN" 1)).
  - reflexivity.
  - repeat constructor; lia.
  - intros e e' He He'. simpl in He, He'.
    repeat (apply elem_of_cons in He as [->|He]); try (by apply elem_of_nil in He);
    repeat (apply elem_of_cons in He' as [->|He']); try (by apply elem_of_nil in He');
    done.
Defined.

(** ** The reference to an input pin, by rank *)

Lemma insert_sorted_Permutation x l : insert_sorted x l ≡ₚ x :: l.
Proof.
  induction l as [|y l IH]; simpl; [done|].
  destruct (x <=? y); [done|]. rewrite IH. apply Permutation_swap.
Qed.

Lemma sorted_Permutation l : sorted l ≡ₚ l.
Proof.
  unfold sorted. induction l as [|x l IH]; simpl; [done|].
  by rewrite insert_sorted_Permutation, IH.
Qed.

Lemma insert_sorted_lt x l :
  StronglySorted Z.lt l → x ∉ l → StronglySorted Z.lt (insert_sorted x l).
Proof.
  induction 1 as [|y l Hl IH Hy]; intros Hx; simpl.
  - repeat constructor.
  - apply not_elem_of_cons in Hx as [Hne Hx].
    destruct (x <=? y) eqn:Hle.
    + apply Z.leb_le in Hle. constructor; [by constructor|].
      constructor; [lia|]. eapply Forall_impl; [exact Hy|]. simpl. lia.
    + apply Z.leb_gt in Hle. constructor; [by apply IH|].
      apply Forall_forall. intros z [->|Hz]%insert_sorted_elem; [done|].
      by eapply Forall_forall in Hy.
Qed.

Lemma sorted_StronglySorted l : NoDup l → StronglySorted Z.lt (sorted l).
Proof.
  unfold sorted. induction 1 as [|x l Hx Hl IH]; simpl; [constructor|].
  apply insert_sorted_lt; [done|]. by rewrite (sorted_elem x l).
Qed.

(** In a strictly ascending list an element sits at the position given by
    the number of smaller elements. *)
Lemma index_of_ascending (x : Z) l :
  StronglySorted Z.lt l → x ∈ l →
  index_of x l = length (filter (fun y => y < x) l).
Proof.
  induction 1 as [|y l Hl IH Hy]; intros Hx; [by apply elem_of_nil in Hx|].
  simpl. destruct (decide (y = x)) as [->|Hne].
  - rewrite filter_cons_False by lia.
    assert (Hnone : filter (fun y => y < x) l = []); [|by rewrite Hnone].
    clear -Hy. induction Hy as [|z l Hz _ IH]; [done|].
    by rewrite filter_cons_False by lia.
  - apply elem_of_cons in Hx as [->|Hx]; [done|].
    assert (y < x) by (by eapply Forall_forall in Hy).
    rewrite filter_cons_True by done. simpl. f_equal. by apply IH.
Qed.

Lemma index_of_sorted (x : Z) l :
  NoDup l → x ∈ l →
  index_of x (sorted l) = length (filter (fun y => y < x) l).
Proof.
  intros Hnd Hx.
  rewrite index_of_ascending;
    [|by apply sorted_StronglySorted|by apply sorted_elem].
  apply Permutation_length. by rewrite sorted_Permutation.
Qed.

Lemma index_pins_NoDup pins : NoDup (od_keys (index_pins pins)).
Proof.
  destruct (foldl_od_set pin_ID (fun p => p) pins) as [_ Hkeys].
  unfold index_pins. rewrite Hkeys. clear Hkeys.
  induction (pin_ID <$> pins) as [|x l IH] using rev_ind; [constructor|].
  rewrite first_seen_snoc. case_decide as Hin; [done|].
  apply NoDup_app. split_and!; [done| |apply NoDup_singleton].
  intros y Hy ->%list_elem_of_singleton. done.
Qed.

(** [_get_wire_source_name] names an input pin by its lower-cased name,
    followed, when other registered pins of the same name have a smaller
    id, by the number of those pins. *)
Lemma input_pin_reference_rank g self k pin :
  same_env (init g) self →
  od_get k (input_pins self) = Some pin →
  input_pin_reference self pin = ranked_name (input_pins self) pin.
Proof.
  intros (_ & _ & Hip & _) Hg.
  destruct (init_document g) as (_ & Hpins & _). rewrite <-Hip in Hpins.
  set (pins := input_pins self) in *.
  pose proof (index_pins_NoDup (InputPins g)) as Hnd. rewrite <-Hpins in Hnd.
  assert (Hids : ∀ e, e ∈ pins → pin_ID e.2 = e.1).
  { intros e He. rewrite Hpins in He.
    eapply index_pins_keys_are_ids; [apply index_pins_NoDup | done]. }
  set (P := fun e : Z * Pin => pin_Name e.2 = pin_Name pin).
  assert (Hin : (k, pin) ∈ pins) by by apply od_get_Some_elem.
  assert (Hkeys : (fun e : Z * Pin => pin_ID e.2) <$> pins = od_keys pins).
  { unfold od_keys. apply list_fmap_ext. intros j e He.
    apply Hids. by eapply list_elem_of_lookup_2. }
  assert (Hsame : pin_ID <$> filter (fun p => pin_Name p = pin_Name pin) (od_values pins)
                  = (fun e : Z * Pin => pin_ID e.2) <$> filter P pins).
  { rewrite filter_values. unfold od_values. by rewrite <-list_fmap_compose. }
  assert (Hsub : NoDup ((fun e : Z * Pin => pin_ID e.2) <$> filter P pins)).
  { rewrite <-Hkeys in Hnd.
    eapply sublist_NoDup; [exact Hnd | apply fmap_sublist, sublist_filter]. }
  assert (Hmem : pin_ID pin ∈ (fun e : Z * Pin => pin_ID e.2) <$> filter P pins).
  { apply list_elem_of_fmap. exists (k, pin). split; [done|].
    by apply list_elem_of_filter. }
  assert (Hrank : length (filter (fun y => y < pin_ID pin)
                     ((fun e : Z * Pin => pin_ID e.2) <$> filter P pins))
                  = id_rank pins pin).
  { unfold id_rank. clear. induction pins as [|e pins IH]; [done|].
    unfold P in *. destruct (decide (pin_Name e.2 = pin_Name pin)) as [Hn|Hn].
    - rewrite (filter_cons_True (fun e => pin_Name e.2 = pin_Name pin)) by done.
      csimpl. destruct (decide (pin_ID e.2 < pin_ID pin)).
      + rewrite !filter_cons_True by done. simpl. by rewrite IH.
      + rewrite !filter_cons_False by tauto. done.
    - rewrite (filter_cons_False (fun e => pin_Name e.2 = pin_Name pin)) by done.
      rewrite filter_cons_False by tauto. done. }
  unfold input_pin_reference, ranked_name. fold pins. cbv zeta.
  rewrite Hsame, (index_of_sorted _ _ Hsub Hmem), Hrank.
  rewrite filter_values. unfold od_values. rewrite length_fmap. fold P.
  assert (Hle : (id_rank pins pin < length (filter P pins))%nat).
  { rewrite <-Hrank, <-(length_fmap (fun e : Z * Pin => pin_ID e.2) (filter P pins)).
    rewrite <-(index_of_sorted _ _ Hsub Hmem).
    rewrite <-(Permutation_length (sorted_Permutation _)).
    apply index_of_lt. by apply sorted_elem. }
  destruct (decide (id_rank pins pin = 0%nat)) as [->|Hr].
  - simpl. by destruct (1 <? length (filter P pins))%nat.
  - rewrite (proj2 (Nat.ltb_lt 1 (length (filter P pins)))) by lia.
    by rewrite (proj2 (Nat.ltb_lt 0 (id_rank pins pin))) by lia.
Qed.

(** X19.  The expression of a wire that leaves a top-level input pin, said
    without the code's sort and search: the pin's lower-cased name,
    followed by the number of registered input pins of the same name and a
    smaller id when there are any, followed by [[<sourcePinId>]] exactly
    when [BitCount > 1] and [sourcePinId < BitCount]; resolving it leaves
    the converter as it was. *)
Theorem input_reference_by_rank g self wire pin :
  same_env (init g) self →
  od_get (source_owner_id wire) (input_pins self) = Some pin →
  let name := ranked_name (input_pins self) pin in
  let indexed := name +:+ "[" +:+ pretty (source_pin_id wire) +:+ "]" in
  let resolved := (_get_wire_source_name self wire).1 in
  (resolved = indexed ↔ bit_indexed pin wire) ∧
  (resolved = name ↔ ¬ bit_indexed pin wire) ∧
  (_get_wire_source_name self wire).2 = self.
Proof.
  intros Henv Hpin name indexed resolved.
  assert (Hne : name ≠ indexed) by apply string_app_cons_ne.
  subst resolved. unfold _get_wire_source_name. rewrite Hpin.
  rewrite (input_pin_reference_rank g self _ pin Henv Hpin).
  fold name. fold indexed. unfold bit_indexed.
  destruct (1 <? pin_BitCount pin) eqn:H1; simpl;
    [destruct (source_pin_id wire <? pin_BitCount pin) eqn:H2|]; simpl.
  - apply Z.ltb_lt in H1. apply Z.ltb_lt in H2.
    split_and!; [by split | | done].
    split; [intros E; by destruct Hne | intros Hn; by destruct Hn].
  - apply Z.ltb_lt in H1. apply Z.ltb_ge in H2.
    split_and!; [| by split; [|]; intros; [lia | done] | done].
    split; [intros E; by destruct Hne | lia].
  - apply Z.ltb_ge in H1.
    split_and!; [| by split; [|]; intros; [lia | done] | done].
    split; [intros E; by destruct Hne | lia].
Qed.

Lemma input_reference_by_rank_witness :
  od_get 2 (input_pins (init ex_bus_duplicate)) = Some (mkPin 2 "A" 8) ∧
  ((_get_wire_source_name (init ex_bus_duplicate) (mkWire 2 3 10 0)).1 = "a1[3]" ↔
     bit_indexed (mkPin 2 "A" 8) (mkWire 2 3 10 0)).
Proof.
  split; [reflexivity|].
  apply (input_reference_by_rank ex_bus_duplicate (init ex_bus_duplicate)
           (mkWire 2 3 10 0) (mkPin 2 "A" 8) (same_env_refl _)).
  reflexivity.
Defined.

(** ** Every emitted expression accounted for *)

(** X16.  The value emitted for the first wire of a connected input pin is
    one of three things, by the owner of the wire's source: for a top-level
    input pin, that pin's reference, bit-indexed under the bit-index
    condition; otherwise, for a registered component, the identifier the
    final table holds for the source pin; otherwise the marker [unknown]. *)
Theorem input_expression_cases g j cid comp nm idx pid w ws :
  components (init g) !! j = Some (cid, comp) →
  norm_result (comp_name comp) = Some nm →
  input_wires comp !! idx = Some (pid, w :: ws) →
  ∃ param expr,
    emitted (pass_body g) j idx = Some (param, expr) ∧
    match od_get (source_owner_id w) (input_pins (init g)) with
    | Some pin =>
        let ref := input_pin_reference (init g) pin in
        expr = if (1 <? pin_BitCount pin) && (source_pin_id w <? pin_BitCount pin)
               then ref +:+ "[" +:+ pretty (source_pin_id w) +:+ "]"
               else ref
    | None =>
        if od_mem (source_owner_id w) (components (init g))
        then wire_name_map (pass_final g) !! (source_owner_id w, source_pin_id w)
             = Some expr
        else expr = "unknown"
    end.
Proof.
  intros Hj Hnm Hidx.
  destruct (pass_input_connection _ _ _ _ _ _ _ _ _ Hj Hnm Hidx)
    as (si & conns & [Henv _] & _ & Hb & Hc & Hfin).
  pose proof Henv as (_ & _ & Hip & _ & Hcp & _).
  eexists _, _. split; [unfold emitted; by rewrite Hb, Hc|].
  revert Hfin. unfold _get_wire_source_name, input_pin_reference.
  rewrite Hip, Hcp.
  destruct (od_get _ (input_pins (init g))) as [pin|].
  - intros _. by destruct (_ && _).
  - destruct (od_mem _ _); [|done].
    destruct (_get_or_create_wire_name si _ _) as [ident s1] eqn:Hg.
    apply get_or_create_evolves in Hg as [_ Hm]. simpl.
    intros Hfin. by eapply extends_lookup.
Qed.

Lemma input_expression_cases_witness :
  emitted (pass_body ex_bus) 0 0 = Some ("a", "a[3]").
Proof.
  destruct (input_expression_cases ex_bus 0 10
    (Build_Component "AND" 10 []
       [(0, [mkWire 1 3 10 0]); (1, [mkWire 2 3 10 1])]
       [(0, [mkWire 10 0 5 0])] [(0, "a"); (1, "b")] [(0, "out")])
    "And" 0 0 (mkWire 1 3 10 0) [] eq_refl eq_refl eq_refl)
    as (param & expr & He & _).
  reflexivity.
Defined.

(** X17.  Producer and consumers agree on an internal signal: when none of
    the wires of a component's ordered, connected output pin reaches a
    top-level output pin, the identifier emitted in the producing statement
    is the one emitted in every statement that reads the pin. *)
Theorem producer_consumer_agree g
    j cid comp nm k p ws
    j' cid' comp' nm' idx pid w' ws' :
  components (init g) !! j = Some (cid, comp) →
  norm_result (comp_name comp) = Some nm →
  output_pin_ids_ordered comp !! k = Some p →
  od_get p (output_wires comp) = Some ws →
  first_output_pin (init g) ws = None →
  components (init g) !! j' = Some (cid', comp') →
  norm_result (comp_name comp') = Some nm' →
  input_wires comp' !! idx = Some (pid, w' :: ws') →
  source_owner_id w' = cid → source_pin_id w' = p →
  od_get cid (input_pins (init g)) = None →
  ∃ param param' ident,
    emitted (pass_body g) j
      (length (input_wires comp)
       + connected_before comp (output_pin_ids_ordered comp) k)
      = Some (param, ident) ∧
    emitted (pass_body g) j' idx = Some (param', ident).
Proof.
  intros Hj Hnm Hk Hws Hnone Hj' Hnm' Hidx Ho Hp Hin.
  destruct (producer_identifier _ _ _ _ _ _ _ _ Hj Hnm Hk Hws Hnone)
    as (param & ident & He & Hm).
  assert (Hreg : is_Some (od_get (source_owner_id w') (components (init g)))).
  { rewrite Ho. exists comp.
    exact (od_get_lookup _ _ _ _ (init_components_NoDup g) Hj). }
  rewrite <-Ho in Hin.
  destruct (consumer_identifier _ _ _ _ _ _ _ _ _ Hj' Hnm' Hidx Hin Hreg)
    as (param' & ident' & He' & Hm').
  rewrite Ho, Hp in Hm'. exists param, param', ident.
  split; [done|]. congruence.
Qed.

Lemma producer_consumer_agree_witness :
  emitted (pass_body ex_fanout) 1 1 = Some ("out", "w1") ∧
  emitted (pass_body ex_fanout) 2 0 = Some ("in", "w1").
Proof.
  destruct (producer_consumer_agree ex_fanout
    1 10 (Build_Component "NOT" 10 [] [(0, [mkWire 1 0 10 0])]
            [(0, [mkWire 10 0 20 0; mkWire 10 0 30 0])] [(0, "in")] [(0, "out")])
      "Not" 0 0 [mkWire 10 0 20 0; mkWire 10 0 30 0]
    2 30 (Build_Component "NOT" 30 [] [(0, [mkWire 10 0 30 0])] [] [(0, "in")] [])
      "Not" 0 0 (mkWire 10 0 30 0) []
    eq_refl eq_refl eq_refl eq_refl eq_refl eq_refl eq_refl eq_refl
    eq_refl eq_refl eq_refl) as (? & ? & ? & _).
  split; reflexivity.
Defined.

(** X18.  The diagnostics of one pass, in order: the warning of the module
    name, then for every component in registry order its normaliser warning
    followed by its input and output arity warnings, then once more the
    normaliser warning of every component.  Nothing else is ever
    recorded. *)
Theorem pass_diagnostics g :
  warnings (init g) =
    norm_warnings (Name g) ++
    flat_map (fun c => norm_warnings (comp_name c.2) ++ arity_warnings c.2)
      (components (init g)) ∧
  (lower_pass g).2 =
    (norm_warnings (Name g) ++
     flat_map (fun c => norm_warnings (comp_name c.2) ++ arity_warnings c.2)
       (components (init g))) ++
    flat_map (fun c => norm_warnings (comp_name c.2)) (components (init g)) ∧
  (∀ name, (length (norm_warnings name) ≤ 1)%nat) ∧
  (∀ comp, (length (arity_warnings comp) ≤ 2)%nat).
Proof.
  split_and!.
  - apply init_warnings_eq.
  - by rewrite pass_warnings, init_warnings_eq.
  - intros name. unfold norm_warnings, _normalize_chip_name.
    destruct (default _ _); simpl; [|lia].
    destruct (HackChipAPI.is_valid_chip _); simpl; lia.
  - intros comp. unfold arity_warnings.
    repeat case_match; simpl; lia.
Qed.
